(** * UnitSelectorV3: a select-exactly-one block over candidate units

    Shallow embedding of
    [idaes/models/unit_models/unit_selector_prototype_v3.py].

    The selector is a Pyomo block. Its methods add, replace and look up
    named members of blocks, move candidate units between blocks and
    raise Python exceptions. The embedding keeps

    - a store of blocks, each a finite map from member names to components
      (objects have identity: a detached block stays in the store);
    - the parent pointer of every candidate unit;
    - the values carried by ports, for state propagation;
    - a trace of the calls made to collaborators;
    - the attribute names of a disjunct, which Pyomo reserves.

    Methods are functions in a state-and-exception monad. A raised
    exception keeps the model reached so far, so that what happened before
    the failure can be stated. *)

From Stdlib Require Import Ascii.
From stdpp Require Import gmap strings pretty list fin_maps.

Local Open Scope Z_scope.
Set Warnings "-register-all,-clear-no-such-hyp".

(** ** Exceptions *)

(** The Python exceptions the module can meet. [AttributeError] carries the
    attribute that was looked up, [RuntimeError] the member name Pyomo
    refused to add twice. *)
Inductive exn :=
| AttributeError (attr : string)
| IndexError
| RuntimeError (name : string)
| ValueError
| TypeError
| ConfigurationError
| BurntToast
| InitializationError
| PropertyNotSupportedError.

(** ** Components *)

(** A connection point of a candidate unit, handed in by the caller. *)
Record conn_point := ConnPoint { cp_owner : positive; cp_name : string }.

(** A Pyomo [Port]: one built by the selector over one of its own state
    containers, or one that belongs to a candidate. *)
Inductive port_obj :=
| SelectorPort (state : positive)
| CandidatePort (p : conn_point).

(** A candidate unit: its identity and its [local_name]. *)
Record unit_model := UnitModel { unit_id : positive; local_name : string }.

(** Keyword arguments, kept as they are passed. *)
Definition kwargs := list (string * Z).

(** What a block member can be. Blocks, disjuncts and state containers are
    references into the store. *)
Inductive component :=
| Block_ (b : positive)
| Disjunct_ (b : positive)
| Disjunction_ (expr : list component)
| Unit_ (u : unit_model)
| Arc_ (source destination : component)
| StateBlock_ (b : positive) (doc : string) (args : gmap string bool)
| Port_ (p : port_obj)
| BooleanVar_
| BinaryVar_
| List_ (items : list component).

Global Instance conn_point_eq_dec : EqDecision conn_point.
Proof. solve_decision. Defined.
Global Instance conn_point_countable : Countable conn_point.
Proof.
  refine (inj_countable' (λ p, (cp_owner p, cp_name p))
                         (λ '(o, n), ConnPoint o n) _).
  by intros [].
Defined.
Global Instance port_obj_eq_dec : EqDecision port_obj.
Proof. solve_decision. Defined.
Global Instance port_obj_countable : Countable port_obj.
Proof.
  refine (inj_countable'
    (λ p, match p with SelectorPort s => inl s | CandidatePort c => inr c end)
    (λ x, match x with inl s => SelectorPort s | inr c => CandidatePort c end) _).
  by intros [].
Defined.
Global Instance unit_model_eq_dec : EqDecision unit_model.
Proof. solve_decision. Defined.
Global Instance unit_model_countable : Countable unit_model.
Proof.
  refine (inj_countable' (λ u, (unit_id u, local_name u))
                         (λ '(i, n), UnitModel i n) _).
  by intros [].
Defined.
Global Instance exn_eq_dec : EqDecision exn.
Proof. solve_decision. Defined.

(** ** The model *)

(** Calls made to collaborators, in the order they happen. *)
Inductive event :=
| EvPropagate (source destination : port_obj)
| EvInitialize (u : unit_model) (options : kwargs)
| EvTransformation (name : string) (target : positive).

(** [disjunct_dir] is Pyomo's [dir(Disjunct())], the attribute names of a
    new disjunct other than its two indicator variables: class data that
    the methods read and never change. *)
Record model := Model {
  blocks : gmap positive (gmap string component);
  parent : gmap unit_model positive;
  values : gmap port_obj Z;
  trace : list event;
  disjunct_dir : gset string;
}.

(** Members of block [b]; a reference to nothing has no member. *)
Definition members (m : model) (b : positive) : gmap string component :=
  default ∅ (blocks m !! b).

Definition set_members (b : positive) (ms : gmap string component)
    (m : model) : model :=
  Model (<[b := ms]> (blocks m)) (parent m) (values m) (trace m) (disjunct_dir m).

Definition set_parent (u : unit_model) (p : option positive) (m : model) : model :=
  Model (blocks m) (partial_alter (λ _, p) u (parent m)) (values m) (trace m)
    (disjunct_dir m).

Definition set_values (v : gmap port_obj Z) (m : model) : model :=
  Model (blocks m) (parent m) v (trace m) (disjunct_dir m).

Definition record (e : event) (m : model) : model :=
  Model (blocks m) (parent m) (values m) (trace m ++ [e]) (disjunct_dir m).

(** ** State and exception monad *)

Inductive outcome (A : Type) :=
| Return (a : A) (m : model)
| Raise (e : exn) (m : model).
Arguments Return {A} a m.
Arguments Raise {A} e m.

Definition M (A : Type) : Type := model → outcome A.

Definition ret {A} (a : A) : M A := λ m, Return a m.
Definition raise {A} (e : exn) : M A := λ m, Raise e m.
Definition bind {A B} (c : M A) (k : A → M B) : M B :=
  λ m, match c m with
       | Return a m' => k a m'
       | Raise e m' => Raise e m'
       end.
Definition get : M model := λ m, Return m m.
Definition modify (f : model → model) : M unit := λ m, Return tt (f m).

Global Instance M_ret : MRet M := @ret.
Global Instance M_bind : MBind M := λ A B k c, bind c k.

(** The model an outcome ends in, and whether it is a normal return. *)
Definition final {A} (o : outcome A) : model :=
  match o with Return _ m => m | Raise _ m => m end.
Definition raised {A} (o : outcome A) : option exn :=
  match o with Return _ _ => None | Raise e _ => Some e end.

(** [for x in xs: body(x)] *)
Fixpoint for_each {X} (xs : list X) (body : X → M unit) : M unit :=
  match xs with
  | [] => ret tt
  | x :: rest => body x ;; for_each rest body
  end.

(** ** Pyomo's block interface *)

(** The store reference behind a block-like component. *)
Definition block_of (c : component) : option positive :=
  match c with
  | Block_ b | Disjunct_ b | StateBlock_ b _ _ => Some b
  | _ => None
  end.

(** [getattr(c, name)]: a missing member is an [AttributeError]. *)
Definition getattr (c : component) (name : string) : M component :=
  λ m, match block_of c with
       | Some b =>
           match members m b !! name with
           | Some v => Return v m
           | None => Raise (AttributeError name) m
           end
       | None => Raise (AttributeError name) m
       end.

(** A component that holds a unit registers itself as that unit's parent. *)
Definition adopt (b : positive) (v : component) (m : model) : model :=
  match v with
  | Unit_ u => set_parent u (Some b) m
  | _ => m
  end.
Definition orphan (v : option component) (m : model) : model :=
  match v with
  | Some (Unit_ u) => set_parent u None m
  | _ => m
  end.

(** A component that still has a parent cannot join another block. *)
Definition owned (v : component) (m : model) : bool :=
  match v with
  | Unit_ u => bool_decide (is_Some (parent m !! u))
  | _ => false
  end.

(** An arc is constructed when it joins a block; both ends must be ports. *)
Definition constructible (v : component) : bool :=
  match v with
  | Arc_ (Port_ _) (Port_ _) => true
  | Arc_ _ _ => false
  | _ => true
  end.

(** [s.startswith(p)] *)
Fixpoint starts_with (p s : string) : bool :=
  match p with
  | EmptyString => true
  | String a p' =>
      match s with
      | String b s' => bool_decide (a = b) && starts_with p' s'
      | EmptyString => false
      end
  end.

(** The form of the names the selector gives to its edges. *)
Definition edge_name (n : string) : bool :=
  starts_with "inlet_to_unit_arc_" n || starts_with "unit_to_outlet_arc_" n.

(** [name in blk._Block_reserved_words and hasattr(blk, name)]. The
    reserved words of a disjunct are its attribute names: its two
    indicator variables and the names in [disjunct_dir], among which
    there is no name of the form of an edge's. The names that the
    selector gives to members of other blocks are not reserved there. *)
Definition disjunct_reserved (name : string) (m : model) : bool :=
  bool_decide (name = "indicator_var")
  || bool_decide (name = "binary_indicator_var")
  || (bool_decide (name ∈ disjunct_dir m) && negb (edge_name name)).

Definition reserved (blk : component) (name : string) (m : model) : bool :=
  match blk with
  | Disjunct_ _ => disjunct_reserved name m
  | _ => false
  end.

(** [blk.add_component(name, val)]: Pyomo refuses a reserved word with
    [ValueError], then a name that is taken, then a component that
    another block still owns. *)
Definition add_component (blk : component) (name : string) (val : component)
    : M unit :=
  λ m, match block_of blk with
       | Some b =>
           if reserved blk name m then Raise ValueError m
           else
             match members m b !! name with
             | Some _ => Raise (RuntimeError name) m
             | None =>
                 if owned val m then Raise (RuntimeError name) m
                 else if constructible val
                 then Return tt (adopt b val (set_members b (<[name := val]> (members m b)) m))
                 else Raise ValueError m
             end
       | None => Raise (AttributeError "add_component") m
       end.

(** [blk.del_component(name)]: removing a name that is absent does nothing. *)
Definition del_component (blk : component) (name : string) : M unit :=
  λ m, match block_of blk with
       | Some b =>
           Return tt (set_members b (delete name (members m b))
                        (orphan (members m b !! name) m))
       | None => Raise (AttributeError "del_component") m
       end.

(** [setattr(blk, name, val)] with a component or a list: a new name is
    added; a taken name is replaced (Pyomo logs a warning and goes on). *)
Definition setattr (blk : component) (name : string) (val : component)
    : M unit :=
  λ m, match block_of blk with
       | Some b =>
           match members m b !! name with
           | Some _ => (del_component blk name ;; add_component blk name val) m
           | None => add_component blk name val m
           end
       | None => Raise (AttributeError name) m
       end.

(** A new object in the store, with the given members. *)
Definition allocate (ms : gmap string component) : M positive :=
  λ m, let b := fresh (dom (blocks m)) in Return b (set_members b ms m).

(** [Block()] *)
Definition Block : M component := b ← allocate ∅; ret (Block_ b).

(** [Disjunct()]: comes with its two indicator variables. *)
Definition Disjunct : M component :=
  b ← allocate (<["indicator_var" := BooleanVar_]>
                 (<["binary_indicator_var" := BinaryVar_]> ∅));
  ret (Disjunct_ b).

(** [unit.parent_block()]: the block holding the unit, [None] if detached. *)
Definition parent_block (u : unit_model) : M (option component) :=
  λ m, Return (Block_ <$> parent m !! u) m.

(** Calling a method on what [parent_block] returned. *)
Definition on_object {A} (o : option component) (method : string)
    (call : component → M A) : M A :=
  match o with
  | Some c => call c
  | None => raise (AttributeError method)
  end.

(** ** Configuration *)

(** The template behind [unit_source] and [unit_sink]: the property
    package it was configured with and that package's arguments. *)
Record template := Template {
  property_package : positive;
  property_package_args : gmap string bool;
}.

(** A flag declared with [domain=In([False])]: the configuration block
    refuses any other value when the flag is set, so that [False] is the
    one value a method of the selector can find there. *)
Inductive false_only := False_.

(** The CONFIG block. [unit_disjunct_inlet] and [unit_disjunct_outlet] are
    dicts; they are kept as their [items()], in insertion order. *)
Record config := Config {
  dynamic : false_only;
  has_holdup : false_only;
  unit_disjunct : list unit_model;
  unit_source : option template;
  unit_sink : option template;
  unit_disjunct_inlet : list (Z * list conn_point);
  unit_disjunct_outlet : list (Z * list conn_point);
  mixed_state_block : option positive;
  construct_ports : bool;
}.

(** ** Names and ranges *)

Definition unit_disjunct_ (idx : Z) : string := "unit_disjunct_" +:+ pretty idx.
Definition inlet_to_unit_arc_ (idx : Z) : string := "inlet_to_unit_arc_" +:+ pretty idx.
Definition unit_to_outlet_arc_ (idx : Z) : string := "unit_to_outlet_arc_" +:+ pretty idx.
Definition inlet_ (n : Z) : string := "inlet_" +:+ pretty n.
Definition outlet_ (n : Z) : string := "outlet_" +:+ pretty n.
Definition state_ (p : string) : string := p +:+ "_state".

(** [RangeSet(n)]: 1, 2, ..., n. *)
Definition RangeSet (n : nat) : list Z := seqZ 1 (Z.of_nat n).

(** [range(a, b)] *)
Definition range (a b : Z) : list Z := seqZ a (b - a).

(** [enumerate(xs)], counting from [start]. *)
Fixpoint enumerate_from {X} (start : Z) (xs : list X) : list (Z * X) :=
  match xs with
  | [] => []
  | x :: rest => (start, x) :: enumerate_from (start + 1) rest
  end.
Definition enumerate {X} (xs : list X) : list (Z * X) := enumerate_from 0 xs.

(** A list comprehension whose element expression can raise. *)
Fixpoint comprehension {X A} (xs : list X) (f : X → M A) : M (list A) :=
  match xs with
  | [] => ret []
  | x :: rest => a ← f x; r ← comprehension rest f; ret (a :: r)
  end.

(** ** Collaborators outside the module *)

(** Modelled from the spec: [UnitModelBlockData.build], the base class's
    build, is not in the module. The spec's build sequence starts at branch
    assembly, and the flags the base class checks, [dynamic] and
    [has_holdup], are [False] in every configuration; it is taken to add
    no member. *)
Definition UnitModelBlockData_build (cfg : config) (self : positive) : M unit :=
  ret tt.

(** The property package's [build_state_block]: a new state container. Its
    insides belong to the package and are not modelled. *)
Definition build_state_block (t : template) (doc : string)
    (args : gmap string bool) : M component :=
  b ← allocate ∅; ret (StateBlock_ b doc args).

(** Modelled from the spec: [add_port] of the unit-model base class is not
    in the module. It exposes a state container as a named connector of
    the selector, which it adds with [add_component]: a name that the
    selector has in use is refused with Pyomo's [RuntimeError]. Anything
    but a state container is refused. *)
Definition add_port (self : positive) (name : string) (block : component)
    (doc : string) : M unit :=
  match block with
  | StateBlock_ b _ _ => add_component (Block_ self) name (Port_ (SelectorPort b))
  | _ => raise ConfigurationError
  end.

(** Pyomo's [network.expand_arcs]: turns every arc under [self] into
    equality constraints, kept in new blocks of their own next to the arc.
    The declared members stay as they are; the call is recorded. *)
Definition expand_arcs (self : positive) : M unit :=
  modify (record (EvTransformation "network.expand_arcs" self)).

(** Modelled from the spec: [propagate_state] is not in the module. Given
    an edge it copies the values at the edge's source to its destination;
    a source that has no value is refused with [ValueError], and the
    destination is then left as it is; given anything but an edge it
    fails. *)
Definition propagate_state (arc : component) : M unit :=
  match arc with
  | Arc_ (Port_ src) (Port_ dst) =>
      λ m, match values m !! src with
           | Some v =>
               Return tt (record (EvPropagate src dst)
                            (set_values (<[dst := v]> (values m)) m))
           | None => Raise ValueError m
           end
  | _ => raise TypeError
  end.

(** ** The selector's methods *)

Section UnitSelectorData.

  (** The configuration and the selector's own block. *)
Variable cfg : config.
Variable self : positive.

  (** A candidate's own [initialize]: it may change port values or raise. *)
Variable unit_initialize :
    unit_model → kwargs → gmap port_obj Z → gmap port_obj Z + exn.

Definition this : component := Block_ self.

(** One round of the first loop of [create_unit_disjunct]. *)
Definition new_disjunct (idx : Z) : M unit :=
  selector_block ← getattr this "selector_block";
  d ← Disjunct;
  setattr selector_block (unit_disjunct_ idx) d.

(** [getattr(self.selector_block, f'unit_disjunct_{idx}')] *)
Definition disjunct_at (idx : Z) : M component :=
  selector_block ← getattr this "selector_block";
  getattr selector_block (unit_disjunct_ idx).

Definition create_unit_disjunct : M unit :=
  for_each (RangeSet (length (unit_disjunct cfg))) new_disjunct ;;
  (* Create the select only one disjunction *)
  selector_block ← getattr this "selector_block";
  expr ← comprehension (RangeSet (length (unit_disjunct cfg))) disjunct_at;
  setattr selector_block "unit_disjunction" (Disjunction_ expr).

(** One round of the loop of [add_units_to_disjunct]. *)
Definition move_unit (selector_block : component) (item : Z * unit_model)
    : M unit :=
  let '(unit_index, unit) := item in
  disjunct_obj ← getattr selector_block (unit_disjunct_ (unit_index + 1));
  p ← parent_block unit;
  on_object p "del_component" (λ b, del_component b (local_name unit)) ;;
  add_component disjunct_obj (local_name unit) (Unit_ unit).

Definition add_units_to_disjunct : M unit :=
  selector_block ← getattr this "selector_block";
  let units := unit_disjunct cfg in
  for_each (enumerate units) (move_unit selector_block).

Definition create_inlet_list : list string :=
    inlet_ <$> range 1 (Z.of_nat (length (unit_disjunct_inlet cfg)) + 1).

Definition create_outlet_list : list string :=
    outlet_ <$> range 1 (Z.of_nat (length (unit_disjunct_outlet cfg)) + 1).

Definition direction (is_inlet : bool) : string :=
    if is_inlet then "Inlet" else "Outlet".

Fixpoint state_block_loop (t : template) (doc : string)
      (tmp_dict : gmap string bool) (port_type_list : list string)
      (port_block : list component) : M (list component) :=
    match port_type_list with
    | [] => ret port_block
    | p :: rest =>
        p_obj ← build_state_block t doc tmp_dict;
        setattr this (state_ p) p_obj ;;
        x ← getattr this (state_ p);
        state_block_loop t doc tmp_dict rest (port_block ++ [x])
    end.

Definition add_port_state_block (unit_type : option template)
      (port_type_list : list string) (is_inlet : bool) : M (list component) :=
    match unit_type with
    | None => raise (AttributeError "config")
    | Some t =>
        let tmp_dict := property_package_args t in
        let tmp_dict := <["has_phase_equilibrium" := false]> tmp_dict in
        let tmp_dict := <["defined_state" := true]> tmp_dict in
        state_block_loop t ("Selector Unit " +:+ direction is_inlet)
          tmp_dict port_type_list []
    end.

Definition add_port_objects (port_list : list string) (is_inlet : bool)
      : M unit :=
    if construct_ports cfg then
      for_each port_list (λ p,
        p_state ← getattr this (state_ p);
        add_port self p p_state ("Connector " +:+ direction is_inlet +:+ " Port"))
    else ret tt.

Definition update_port_bounds : M unit := ret tt.

  (** [xs[0]] *)
Definition first_item {X} (xs : list X) : M X :=
    match xs with
    | x :: _ => ret x
    | [] => raise IndexError
    end.

  (** The loop over a list of more than one connection point; [dsj_counter]
      is the running branch counter. *)
Fixpoint inlet_fan_out (inlet_idx : Z) (unit_inlet_list : list conn_point)
      (dsj_counter : Z) : M unit :=
    match unit_inlet_list with
    | [] => ret tt
    | unit_inlet_port :: rest =>
        selector_block ← getattr this "selector_block";
        unit_disjunct ← getattr selector_block (unit_disjunct_ dsj_counter);
        selector_inlet_port ← getattr this (inlet_ inlet_idx);
        add_component unit_disjunct (inlet_to_unit_arc_ dsj_counter)
          (Arc_ selector_inlet_port (Port_ (CandidatePort unit_inlet_port))) ;;
        inlet_fan_out inlet_idx rest (dsj_counter + 1)
    end.

  (** One round of the loop over [unit_disjunct_inlet.items()]. *)
Definition wire_inlet (item : Z * list conn_point) : M unit :=
    let '(inlet_idx, unit_inlet_list) := item in
    if bool_decide (1 < length unit_inlet_list)%nat then
      inlet_fan_out inlet_idx unit_inlet_list 1
    else
      (* For single-element list, omit looping *)
      selector_block ← getattr this "selector_block";
      unit_disjunct ← getattr selector_block (unit_disjunct_ inlet_idx);
      selector_inlet_port ← getattr this (inlet_ inlet_idx);
      destination ← first_item unit_inlet_list;
      add_component unit_disjunct (inlet_to_unit_arc_ inlet_idx)
        (Arc_ selector_inlet_port (Port_ (CandidatePort destination))).

Definition arc_selector_inlet_to_unit : M unit :=
    for_each (unit_disjunct_inlet cfg) wire_inlet.

Fixpoint outlet_fan_in (outlet_idx : Z) (unit_outlet_list : list conn_point)
      (dsj_counter : Z) : M unit :=
    match unit_outlet_list with
    | [] => ret tt
    | unit_outlet_port :: rest =>
        selector_block ← getattr this "selector_block";
        unit_disjunct ← getattr selector_block (unit_disjunct_ dsj_counter);
        selector_outlet_port ← getattr this (outlet_ outlet_idx);
        add_component unit_disjunct (unit_to_outlet_arc_ dsj_counter)
          (Arc_ (Port_ (CandidatePort unit_outlet_port)) selector_outlet_port) ;;
        outlet_fan_in outlet_idx rest (dsj_counter + 1)
    end.

  (** One round of the loop over [unit_disjunct_outlet.items()]. *)
Definition wire_outlet (item : Z * list conn_point) : M unit :=
    let '(outlet_idx, unit_outlet_list) := item in
    if bool_decide (1 < length unit_outlet_list)%nat then
      outlet_fan_in outlet_idx unit_outlet_list 1
    else
      (* For single-element list, omit looping *)
      selector_block ← getattr this "selector_block";
      unit_disjunct ← getattr selector_block (unit_disjunct_ outlet_idx);
      selector_outlet_port ← getattr this (outlet_ outlet_idx);
      source ← first_item unit_outlet_list;
      add_component unit_disjunct (unit_to_outlet_arc_ outlet_idx)
        (Arc_ (Port_ (CandidatePort source)) selector_outlet_port).

Definition arc_unit_outlet_to_selector : M unit :=
    for_each (unit_disjunct_outlet cfg) wire_outlet.

Definition build : M unit :=
    (* Call super.build() *)
    UnitModelBlockData_build cfg self ;;
    b ← Block;
    setattr this "selector_block" b ;;
    create_unit_disjunct ;;
    add_units_to_disjunct ;;
    (* Create inlet list *)
    let inlet_list := create_inlet_list in
    (* Create outlet list *)
    let outlet_list := create_outlet_list in
    l ← add_port_state_block (unit_source cfg) inlet_list true;
    setattr this "selector_inlet_block" (List_ l) ;;
    l ← add_port_state_block (unit_sink cfg) outlet_list false;
    setattr this "selector_outlet_block" (List_ l) ;;
    add_port_objects inlet_list true ;;
    add_port_objects outlet_list false ;;
    arc_selector_inlet_to_unit ;;
    arc_unit_outlet_to_selector ;;
    expand_arcs self.

  (** [unit_block.initialize]: only a unit has the method. *)
Definition call_initialize (unit_block : component) (options : kwargs)
      : M unit :=
    match unit_block with
    | Unit_ u =>
        λ m, let m := record (EvInitialize u options) m in
             match unit_initialize u options (values m) with
             | inl v => Return tt (set_values v m)
             | inr e => Raise e m
             end
    | _ => raise (AttributeError "initialize")
    end.

(** One round of the loop of [initialize]. *)
Definition initialize_unit (selector_block : component) (options : kwargs)
    (item : Z * unit_model) : M unit :=
  let '(unit_index, unit) := item in
  let idx := unit_index + 1 in
  disjunct_block ← getattr selector_block (unit_disjunct_ idx);
  unit_block ← getattr disjunct_block (local_name unit);
  inlet_arc ← getattr disjunct_block (inlet_to_unit_arc_ idx);
  propagate_state inlet_arc ;;
  call_initialize unit_block options ;;
  outlet_arc ← getattr disjunct_block (unit_to_outlet_arc_ idx);
  mret tt.

Definition initialize (options : kwargs) : M unit :=
  selector_block ← getattr this "selector_block";
  let units := unit_disjunct cfg in
  for_each (enumerate units) (initialize_unit selector_block options).

End UnitSelectorData.

(** * Reasoning about outcomes *)

Lemma bind_Return {A B} (c : M A) (k : A → M B) m b m' :
  (c ≫= k) m = Return b m' ↔ ∃ a m1, c m = Return a m1 ∧ k a m1 = Return b m'.
Proof.
  unfold mbind, M_bind, bind. split.
  - destruct (c m) as [a m1|e m1]; [eauto | discriminate].
  - intros (a & m1 & H1 & H). by rewrite H1.
Qed.

Lemma bind_Raise {A B} (c : M A) (k : A → M B) m e m' :
  (c ≫= k) m = Raise e m' ↔
  c m = Raise e m' ∨ ∃ a m1, c m = Return a m1 ∧ k a m1 = Raise e m'.
Proof.
  unfold mbind, M_bind, bind. split.
  - destruct (c m) as [a m1|e1 m1]; [eauto | intros [= -> ->]; by left].
  - intros [H | (a & m1 & H1 & H)]; [by rewrite H | by rewrite H1].
Qed.

(** [triple P c Q E]: from a model in [P], [c] returns in [Q] or raises
    in [E]. *)
Definition triple {A} (P : model → Prop) (c : M A)
    (Q : A → model → Prop) (E : exn → model → Prop) : Prop :=
  ∀ m, P m → match c m with Return a m' => Q a m' | Raise e m' => E e m' end.



Lemma triple_weaken {A} (P P' : model → Prop) (c : M A)
    (Q Q' : A → model → Prop) (E E' : exn → model → Prop) :
  triple P' c Q' E' → (∀ m, P m → P' m) → (∀ a m, Q' a m → Q a m) →
  (∀ e m, E' e m → E e m) → triple P c Q E.
Proof.
  intros H HP HQ HE m Hm. specialize (H m (HP m Hm)).
  destruct (c m); auto.
Qed.


(** ** Members after a change of the store *)

Lemma members_set_members b ms m b' :
  members (set_members b ms m) b' = if decide (b = b') then ms else members m b'.
Proof.
  unfold members, set_members; simpl. rewrite lookup_insert.
  by case_decide.
Qed.

Lemma members_set_members_eq b ms m : members (set_members b ms m) b = ms.
Proof. rewrite members_set_members. by rewrite decide_True. Qed.

Lemma members_set_members_ne b ms m b' :
  b ≠ b' → members (set_members b ms m) b' = members m b'.
Proof. intros. rewrite members_set_members. by rewrite decide_False. Qed.

Lemma members_set_parent u p m b : members (set_parent u p m) b = members m b.
Proof. done. Qed.

Lemma members_adopt b v m b' : members (adopt b v m) b' = members m b'.
Proof. by destruct v. Qed.

Lemma members_orphan v m b : members (orphan v m) b = members m b.
Proof. destruct v as [[]|]; done. Qed.

Lemma members_record e m b : members (record e m) b = members m b.
Proof. done. Qed.

Lemma members_set_values v m b : members (set_values v m) b = members m b.
Proof. done. Qed.

Lemma members_unallocated m b : b ∉ dom (blocks m) → members m b = ∅.
Proof. intros H. unfold members. by rewrite (not_elem_of_dom_1 _ _ H). Qed.

Lemma members_allocated m b n c : members m b !! n = Some c → b ∈ dom (blocks m).
Proof.
  unfold members. intros H. apply elem_of_dom.
  destruct (blocks m !! b); [done | simpl in H; by rewrite lookup_empty in H].
Qed.

(** ** What the primitives do *)

Lemma getattr_Return c n m v m' :
  getattr c n m = Return v m' ↔
  m' = m ∧ ∃ b, block_of c = Some b ∧ members m b !! n = Some v.
Proof.
  unfold getattr. split.
  - destruct (block_of c) as [b|]; [|done].
    destruct (members m b !! n) eqn:E; [|done]. intros [= -> ->]. eauto.
  - intros (-> & b & -> & ->). done.
Qed.

Lemma getattr_Raise c n m e m' :
  getattr c n m = Raise e m' →
  m' = m ∧ e = AttributeError n ∧ ∀ b, block_of c = Some b → members m b !! n = None.
Proof.
  unfold getattr. destruct (block_of c) as [b|].
  - destruct (members m b !! n) eqn:E; [done|]. intros [= <- <-].
    split_and!; [done..|]. by intros ? [= <-].
  - intros [= <- <-]. done.
Qed.

(** The model after a successful [add_component]. *)
Definition with_member (b : positive) (name : string) (val : component)
    (m : model) : model :=
  adopt b val (set_members b (<[name := val]> (members m b)) m).

(** The reserved words are class data: no step of a method changes them. *)
Lemma disjunct_dir_adopt b v m : disjunct_dir (adopt b v m) = disjunct_dir m.
Proof. by destruct v. Qed.

Lemma disjunct_dir_orphan v m : disjunct_dir (orphan v m) = disjunct_dir m.
Proof. destruct v as [[]|]; done. Qed.

Lemma disjunct_dir_with_member b n v m :
  disjunct_dir (with_member b n v m) = disjunct_dir m.
Proof. unfold with_member. by rewrite disjunct_dir_adopt. Qed.

Lemma disjunct_reserved_dir n m m' :
  disjunct_dir m' = disjunct_dir m → disjunct_reserved n m' = disjunct_reserved n m.
Proof. intros H. unfold disjunct_reserved. by rewrite H. Qed.

Lemma reserved_dir blk n m m' :
  disjunct_dir m' = disjunct_dir m → reserved blk n m' = reserved blk n m.
Proof. intros H. destruct blk; try done. by apply disjunct_reserved_dir. Qed.

Lemma reserved_block blk n m :
  (∀ d, blk ≠ Disjunct_ d) → reserved blk n m = false.
Proof. intros H. destruct blk; try done. by destruct (H b). Qed.

Lemma reserved_edge_name blk n m : edge_name n = true → reserved blk n m = false.
Proof.
  intros Hn. destruct blk; try done. unfold reserved, disjunct_reserved.
  rewrite Hn, andb_false_r, orb_false_r.
  apply orb_false_iff. split; apply bool_decide_eq_false; by intros ->.
Qed.

Lemma reserved_indicator d n m :
  n = "indicator_var" ∨ n = "binary_indicator_var" →
  reserved (Disjunct_ d) n m = true.
Proof. by intros [-> | ->]. Qed.

Lemma add_component_Return blk n v m m' :
  add_component blk n v m = Return tt m' ↔
  ∃ b, block_of blk = Some b ∧ reserved blk n m = false ∧
       members m b !! n = None ∧ owned v m = false ∧
       constructible v = true ∧ m' = with_member b n v m.
Proof.
  unfold add_component. split.
  - destruct (block_of blk) as [b|]; [|done].
    destruct (reserved blk n m) eqn:R; [done|].
    destruct (members m b !! n) eqn:E; [done|].
    destruct (owned v m) eqn:O; [done|].
    destruct (constructible v) eqn:C; [|done].
    intros [= <-]. by exists b.
  - intros (b & -> & -> & -> & -> & -> & ->). done.
Qed.

Lemma add_component_Raise blk n v m e m' :
  add_component blk n v m = Raise e m' →
  m' = m ∧
  (e = AttributeError "add_component" ∧ block_of blk = None
   ∨ e = RuntimeError n ∧
     (∃ b, block_of blk = Some b ∧ (is_Some (members m b !! n) ∨ owned v m = true))
   ∨ e = ValueError ∧ (reserved blk n m = true ∨ constructible v = false)).
Proof.
  unfold add_component. destruct (block_of blk) as [b|]; [|intros [= <- <-]; auto].
  destruct (reserved blk n m) eqn:R.
  { intros [= <- <-]. split; [done|]. right; right. by split; [|left]. }
  destruct (members m b !! n) eqn:E.
  { intros [= <- <-]. split; [done|]. right; left. split; [done|]. exists b. eauto. }
  destruct (owned v m) eqn:O.
  { intros [= <- <-]. split; [done|]. right; left. split; [done|]. exists b. eauto. }
  destruct (constructible v) eqn:C; [done|].
  intros [= <- <-]. split; [done|]. right; right. by split; [|right].
Qed.

(** The model after [del_component]. *)
Definition without_member (b : positive) (name : string) (m : model) : model :=
  set_members b (delete name (members m b)) (orphan (members m b !! name) m).

Lemma disjunct_dir_without_member b n m :
  disjunct_dir (without_member b n m) = disjunct_dir m.
Proof. unfold without_member. simpl. by rewrite disjunct_dir_orphan. Qed.

Lemma del_component_Return blk n m m' :
  del_component blk n m = Return tt m' ↔
  ∃ b, block_of blk = Some b ∧ m' = without_member b n m.
Proof.
  unfold del_component. split.
  - destruct (block_of blk) as [b|]; [|done]. intros [= <-]. by exists b.
  - intros (b & -> & ->). done.
Qed.

Lemma allocate_Return ms m b m' :
  allocate ms m = Return b m' ↔
  b = fresh (dom (blocks m)) ∧ m' = set_members b ms m.
Proof. unfold allocate. split; [by intros [= <- <-] | by intros [-> ->]]. Qed.

Lemma allocate_fresh ms m b m' :
  allocate ms m = Return b m' → b ∉ dom (blocks m).
Proof. intros [-> _]%allocate_Return. apply is_fresh. Qed.

(** ** Member names *)

(** [str(n)] of an integer holds digits and at most a sign. *)
Definition numeral (a : ascii) : bool :=
  bool_decide (a ∈ ["0"; "1"; "2"; "3"; "4"; "5"; "6"; "7"; "8"; "9"; "-"]%char).

Fixpoint numeric (s : string) : bool :=
  match s with
  | EmptyString => true
  | String a r => numeral a && numeric r
  end.

Lemma numeric_app s1 s2 : numeric (s1 +:+ s2) = numeric s1 && numeric s2.
Proof.
  induction s1 as [|a s1 IH]; simpl; [done|].
  by rewrite IH, andb_assoc.
Qed.

Lemma pretty_N_go_numeric x s : numeric s = true → numeric (pretty_N_go x s) = true.
Proof.
  revert s. induction (N.lt_wf_0 x) as [x _ IH]; intros s Hs.
  destruct (decide (x = 0)%N) as [->|Hx]; [by rewrite pretty_N_go_0|].
  rewrite pretty_N_go_step by lia. apply IH.
  - apply N.div_lt; lia.
  - simpl. rewrite Hs, andb_true_r.
    unfold pretty_N_char. by repeat case_match.
Qed.

Lemma pretty_N_numeric (x : N) : numeric (pretty x) = true.
Proof.
  unfold pretty, pretty_N. case_decide; [done|].
  by apply pretty_N_go_numeric.
Qed.

Lemma pretty_Z_numeric (z : Z) : numeric (pretty z) = true.
Proof.
  destruct z as [|p|p]; simpl; [done|..].
  - apply pretty_N_numeric.
  - unfold pretty, pretty_Z. simpl. apply pretty_N_numeric.
Qed.

(** A decimal numeral never equals a text that holds a letter. *)
Lemma pretty_Z_ne (z : Z) (s : string) : numeric s = false → pretty z ≠ s.
Proof. intros Hs <-. by rewrite pretty_Z_numeric in Hs. Qed.

Lemma unit_disjunct_inj i j : unit_disjunct_ i = unit_disjunct_ j → i = j.
Proof. unfold unit_disjunct_. intros H. by simplify_eq/=. Qed.

Lemma inlet_to_unit_arc_inj i j : inlet_to_unit_arc_ i = inlet_to_unit_arc_ j → i = j.
Proof. unfold inlet_to_unit_arc_. intros H. by simplify_eq/=. Qed.

Lemma unit_to_outlet_arc_inj i j : unit_to_outlet_arc_ i = unit_to_outlet_arc_ j → i = j.
Proof. unfold unit_to_outlet_arc_. intros H. by simplify_eq/=. Qed.

Lemma inlet_inj i j : inlet_ i = inlet_ j → i = j.
Proof. unfold inlet_. intros H. by simplify_eq/=. Qed.

Lemma outlet_inj i j : outlet_ i = outlet_ j → i = j.
Proof. unfold outlet_. intros H. by simplify_eq/=. Qed.

(** Two member names built from different texts differ. The tactic strips
    the common prefix and finds a letter where a numeral is needed. *)
Ltac names_differ :=
  let H := fresh "H" in
  intros H;
  unfold unit_disjunct_, inlet_to_unit_arc_, unit_to_outlet_arc_, inlet_,
    outlet_, state_ in H;
  simpl in H; simplify_eq/=;
  try match goal with
  | H : _ = _ |- _ =>
      first
        [ by (eapply pretty_Z_ne; [|exact H]; rewrite ?numeric_app; simpl;
              rewrite ?andb_false_r)
        | by (eapply pretty_Z_ne; [|symmetry; exact H]; rewrite ?numeric_app;
              simpl; rewrite ?andb_false_r) ]
  end.

Lemma unit_disjunct_not_disjunction i : unit_disjunct_ i ≠ "unit_disjunction".
Proof. names_differ. Qed.

Lemma inlet_not_inlet_arc k i : inlet_ k ≠ inlet_to_unit_arc_ i.
Proof. names_differ. Qed.

Lemma inlet_arc_not_outlet_arc i j : inlet_to_unit_arc_ i ≠ unit_to_outlet_arc_ j.
Proof. names_differ. Qed.

Lemma inlet_not_state k p : inlet_ k ≠ state_ (inlet_ p).
Proof. names_differ. Qed.

(** * Observing the structure *)

(** What [getattr(self.selector_block, f'unit_disjunct_{i}')] finds. *)
Definition branch (self : positive) (m : model) (i : Z) : option component :=
  sbc ← members m self !! "selector_block";
  sb ← block_of sbc;
  members m sb !! unit_disjunct_ i.

(** The store reference of branch [i]. *)
Definition branch_block (self : positive) (m : model) (i : Z) : option positive :=
  branch self m i ≫= block_of.

Lemma elem_of_enumerate_from {X} (start : Z) (xs : list X) i x :
  (i, x) ∈ enumerate_from start xs ↔
  ∃ j : nat, i = start + Z.of_nat j ∧ xs !! j = Some x.
Proof.
  revert start. induction xs as [|y xs IH]; intros start; simpl.
  - split; [by intros ?%elem_of_nil | by intros (j & _ & ?)].
  - rewrite elem_of_cons, IH. split.
    + intros [[= -> ->] | (j & -> & Hj)].
      * exists 0%nat. split; [lia | done].
      * exists (S j). split; [lia | done].
    + intros ([|j] & -> & Hj); simpl in Hj.
      * left. simplify_eq. f_equal. lia.
      * right. exists j. split; [lia | done].
Qed.

(** * Wiring *)

(** The inlet and the outlet wiring are one loop, up to the names used and
    the direction of the arc. The loop is studied once, in this form. *)
Section Wiring.

Variable self : positive.
Variable port_name arc_name : Z → string.
Variable mk_arc : component → conn_point → component.

Hypothesis mk_arc_arc : ∀ s p, ∃ a b, mk_arc s p = Arc_ a b.
Hypothesis arc_name_edge : ∀ i, edge_name (arc_name i) = true.
Hypothesis arc_name_inj : ∀ i j, arc_name i = arc_name j → i = j.
Hypothesis arc_name_selector : ∀ i, arc_name i ≠ "selector_block".
Hypothesis arc_name_branch : ∀ i j, arc_name i ≠ unit_disjunct_ j.
Hypothesis arc_name_port : ∀ i k, arc_name i ≠ port_name k.

  (** One edge: look up the branch and the selector's port, add the arc. *)
Definition place_edge (k i : Z) (p : conn_point) : M unit :=
    selector_block ← getattr (this self) "selector_block";
    unit_disjunct ← getattr selector_block (unit_disjunct_ i);
    selector_port ← getattr (this self) (port_name k);
    add_component unit_disjunct (arc_name i) (mk_arc selector_port p).

Fixpoint fan (k : Z) (ports : list conn_point) (dsj_counter : Z) : M unit :=
    match ports with
    | [] => mret tt
    | p :: rest => place_edge k dsj_counter p ;; fan k rest (dsj_counter + 1)
    end.

Definition wire (item : Z * list conn_point) : M unit :=
    let '(k, ports) := item in
    if bool_decide (1 < length ports)%nat then fan k ports 1
    else
      selector_block ← getattr (this self) "selector_block";
      unit_disjunct ← getattr selector_block (unit_disjunct_ k);
      selector_port ← getattr (this self) (port_name k);
      p ← first_item ports;
      add_component unit_disjunct (arc_name k) (mk_arc selector_port p).

Lemma owned_mk_arc s p m : owned (mk_arc s p) m = false.
Proof. destruct (mk_arc_arc s p) as (a & b & ->). done. Qed.

Lemma with_member_mk_arc d n s p m :
    with_member d n (mk_arc s p) m
    = set_members d (<[n := mk_arc s p]> (members m d)) m.
Proof. unfold with_member. destruct (mk_arc_arc s p) as (a & b & ->). done. Qed.

  (** The lookups of [place_edge], as one equation. *)
Lemma place_edge_eq k i p m :
    place_edge k i p m =
    match members m self !! "selector_block" with
    | None => Raise (AttributeError "selector_block") m
    | Some _ =>
        match branch self m i with
        | None => Raise (AttributeError (unit_disjunct_ i)) m
        | Some unit_disjunct =>
            match members m self !! port_name k with
            | None => Raise (AttributeError (port_name k)) m
            | Some port => add_component unit_disjunct (arc_name i) (mk_arc port p) m
            end
        end
    end.
Proof.
    unfold place_edge, branch, mbind at 1 2 3, M_bind, bind, getattr, this; simpl.
    destruct (members m self !! "selector_block") as [sbc|]; simpl; [|done].
    destruct (block_of sbc) as [sb|]; simpl; [|done].
    destruct (members m sb !! unit_disjunct_ i) as [udc|]; simpl; [|done].
    destruct (members m self !! port_name k) as [port|]; done.
Qed.

Lemma place_edge_Return k i p m m' :
    place_edge k i p m = Return tt m' ↔
    ∃ udc d port,
      branch self m i = Some udc ∧ block_of udc = Some d ∧
      members m self !! port_name k = Some port ∧
      members m d !! arc_name i = None ∧
      constructible (mk_arc port p) = true ∧
      m' = set_members d (<[arc_name i := mk_arc port p]> (members m d)) m.
Proof.
    rewrite place_edge_eq. split.
    - destruct (members m self !! "selector_block") eqn:Hsb; [|done].
      destruct (branch self m i) as [udc|] eqn:Hb; [|done].
      destruct (members m self !! port_name k) as [port|] eqn:Hp; [|done].
      intros (d & ? & ? & ? & ? & ? & ->)%add_component_Return.
      exists udc, d, port. by rewrite with_member_mk_arc.
    - intros (udc & d & port & Hb & Hd & Hp & Hn & Hc & ->).
      assert (is_Some (members m self !! "selector_block")) as [? ->].
      { unfold branch in Hb. destruct (members m self !! "selector_block"); [eauto|done]. }
      rewrite Hb, Hp. apply add_component_Return. exists d.
      by rewrite owned_mk_arc, with_member_mk_arc, reserved_edge_name.
Qed.

  (** A failed placement leaves the model as it was. *)
Lemma place_edge_Raise k i p m e m' :
    place_edge k i p m = Raise e m' →
    m' = m ∧
    (e = AttributeError "selector_block" ∧ members m self !! "selector_block" = None
     ∨ e = AttributeError (unit_disjunct_ i) ∧ branch self m i = None
     ∨ e = AttributeError (port_name k) ∧ members m self !! port_name k = None
     ∨ e = AttributeError "add_component" ∧ branch_block self m i = None
     ∨ e = RuntimeError (arc_name i) ∧
       (∃ d, branch_block self m i = Some d ∧ is_Some (members m d !! arc_name i))
     ∨ e = ValueError).
Proof.
    rewrite place_edge_eq. unfold branch_block.
    destruct (members m self !! "selector_block") eqn:Hsb;
      [|intros [= <- <-]; auto].
    destruct (branch self m i) as [udc|] eqn:Hb; [|intros [= <- <-]; auto 10].
    destruct (members m self !! port_name k) as [port|] eqn:Hp;
      [|intros [= <- <-]; auto 10].
    intros [-> H]%add_component_Raise. split; [done|]. simpl.
    destruct H as [[-> ?] | [[-> (d & Hd & H)] | [-> ?]]]; [auto 10 | | auto 10].
    rewrite owned_mk_arc in H. destruct H as [H|?]; [|done].
    do 4 right. left. split; [done|]. exists d. by rewrite Hd.
Qed.

  (** Lookups that wiring itself relies on see no change when an arc joins
      a block. *)
Section after_edge.
Context (m : model) (d : positive) (i : Z) (arc : component).
Abbreviation m1 := (set_members d (<[arc_name i := arc]> (members m d)) m).

Lemma lookup_after_edge b n :
      members m1 b !! n =
      if decide (b = d ∧ n = arc_name i) then Some arc else members m b !! n.
Proof.
      rewrite members_set_members.
      destruct (decide (d = b)) as [->|Hne].
      - rewrite lookup_insert. destruct (decide (arc_name i = n)) as [<-|?].
        + by rewrite decide_True.
        + rewrite decide_False; [done | intros [_ Heq]; congruence].
      - rewrite decide_False; [done | intros [Heq _]; congruence].
Qed.

Lemma selector_after_edge :
      members m1 self !! "selector_block" = members m self !! "selector_block".
Proof.
      rewrite lookup_after_edge. rewrite decide_False; [done|].
      intros [_ H]. symmetry in H. by apply arc_name_selector in H.
Qed.

Lemma port_after_edge k :
      members m1 self !! port_name k = members m self !! port_name k.
Proof.
      rewrite lookup_after_edge. rewrite decide_False; [done|].
      intros [_ H]. symmetry in H. by apply arc_name_port in H.
Qed.

Lemma branch_after_edge j : branch self m1 j = branch self m j.
Proof.
      unfold branch. rewrite selector_after_edge.
      destruct (members m self !! "selector_block") as [sbc|]; simpl; [|done].
      destruct (block_of sbc) as [sb|]; simpl; [|done].
      rewrite lookup_after_edge. rewrite decide_False; [done|].
      intros [_ H]. symmetry in H. by apply arc_name_branch in H.
Qed.
End after_edge.

  (** What a list of edges [(i, p)] did between two models: the arc for
      [p] is a new member of branch [i], and nothing else changed. *)
Definition edges_placed (arc_of : conn_point → component)
      (edges : list (Z * conn_point)) (m m' : model) : Prop :=
    (∀ i p, (i, p) ∈ edges →
       ∃ d, branch_block self m i = Some d ∧
            members m d !! arc_name i = None ∧
            members m' d !! arc_name i = Some (arc_of p)) ∧
    (∀ b n, (∀ i p, (i, p) ∈ edges → branch_block self m i = Some b → n ≠ arc_name i) →
       members m' b !! n = members m b !! n) ∧
    parent m' = parent m ∧ values m' = values m ∧ trace m' = trace m.

Lemma fan_Return k ports c m m' port :
    fan k ports c m = Return tt m' →
    members m self !! port_name k = Some port →
    edges_placed (mk_arc port) (enumerate_from c ports) m m'.
Proof.
    revert c m. induction ports as [|p rest IH]; intros c m; simpl.
    - intros [= <-] _. split_and!; try done. by intros i p ?%elem_of_nil.
    - intros ([] & m1 & Hstep & Hrest)%bind_Return Hport.
      apply place_edge_Return in Hstep
        as (udc & d & port' & Hb & Hd & Hp & Hfree & _ & ->).
      rewrite Hport in Hp. injection Hp as <-.
      specialize (IH _ _ Hrest). rewrite port_after_edge in IH.
      destruct (IH Hport) as (Hnew & Hframe & Hpar & Hval & Htr). clear IH.
      assert (Hbb : branch_block self m c = Some d).
      { unfold branch_block. by rewrite Hb. }
      split_and!; [| |done..].
      + intros i q [[= -> ->] | Hin]%elem_of_cons.
        * exists d. split_and!; [done..|].
          rewrite Hframe.
          { rewrite lookup_after_edge. by rewrite decide_True. }
          intros i q (j & -> & _)%elem_of_enumerate_from _ ?%arc_name_inj. lia.
        * destruct (Hnew _ _ Hin) as (d' & Hb' & Hfree' & Hset).
          unfold branch_block in Hb'. rewrite branch_after_edge in Hb'.
          exists d'. split_and!; [done| |done].
          rewrite lookup_after_edge in Hfree'.
          apply elem_of_enumerate_from in Hin as (j & -> & _).
          rewrite decide_False in Hfree'; [done|].
          intros [_ ?%arc_name_inj]. lia.
      + intros b n Hother. rewrite Hframe.
        * rewrite lookup_after_edge. rewrite decide_False; [done|].
          intros [-> ->]. eapply (Hother c p); [by left | done | done].
        * intros i q Hin Hb'. unfold branch_block in Hb'.
          rewrite branch_after_edge in Hb'. eapply Hother; [by right | done].
Qed.

Lemma wire_single k p m :
    wire (k, [p]) m = place_edge k k p m.
Proof.
    unfold wire, place_edge. simpl.
    unfold mbind, M_bind, bind.
    destruct (getattr _ _ m) as [sbc m1|]; [|done].
    destruct (getattr _ _ m1) as [udc m2|]; [|done].
    by destruct (getattr _ _ m2).
Qed.

  (** An empty list stops at [ports[0]], or at a lookup before it. *)
Lemma wire_empty k m :
    wire (k, []) m =
    match members m self !! "selector_block" with
    | None => Raise (AttributeError "selector_block") m
    | Some _ =>
        match branch self m k with
        | None => Raise (AttributeError (unit_disjunct_ k)) m
        | Some _ =>
            match members m self !! port_name k with
            | None => Raise (AttributeError (port_name k)) m
            | Some _ => Raise IndexError m
            end
        end
    end.
Proof.
    unfold wire, branch, mbind at 1 2 3, M_bind, bind, getattr, this; simpl.
    destruct (members m self !! "selector_block") as [sbc|]; simpl; [|done].
    destruct (block_of sbc) as [sb|]; simpl; [|done].
    destruct (members m sb !! unit_disjunct_ k) as [udc|]; simpl; [|done].
    destruct (members m self !! port_name k) as [port|]; done.
Qed.

  (** What one round of the wiring loop does when it completes. *)
Lemma wire_Return k ports m m' :
    wire (k, ports) m = Return tt m' →
    ∃ port, members m self !! port_name k = Some port ∧
      ((∃ p, ports = [p] ∧ edges_placed (mk_arc port) [(k, p)] m m')
       ∨ ((1 < length ports)%nat ∧
          edges_placed (mk_arc port) (enumerate_from 1 ports) m m')).
Proof.
    destruct ports as [|p [|q rest]].
    - rewrite wire_empty. by repeat case_match.
    - rewrite wire_single. intros H.
      assert (Hfan : fan k [p] k m = Return tt m').
      { simpl. apply bind_Return. eauto. }
      apply place_edge_Return in H as (_ & _ & port & _ & _ & Hp & _).
      exists port. split; [done|]. left. exists p. split; [done|].
      by apply (fan_Return _ _ _ _ _ _ Hfan).
    - intros H. change (fan k (p :: q :: rest) 1 m = Return tt m') in H.
      assert (is_Some (members m self !! port_name k)) as [port Hp].
      { simpl in H. apply bind_Return in H as ([] & m1 & H & _).
        apply place_edge_Return in H as (_ & _ & port & _ & _ & Hp & _). eauto. }
      exists port. split; [done|]. right. split; [simpl; lia|].
      by apply (fan_Return _ _ _ _ _ _ H).
Qed.

End Wiring.

(** ** The two wiring methods are instances of the loop *)

Inductive side := Inlet | Outlet.

Definition port_name_of (s : side) : Z → string :=
  match s with Inlet => inlet_ | Outlet => outlet_ end.
Definition arc_name_of (s : side) : Z → string :=
  match s with Inlet => inlet_to_unit_arc_ | Outlet => unit_to_outlet_arc_ end.

(** The arc between the selector's port and a candidate's connection
    point: into the candidate on the inlet side, out of it on the outlet
    side. *)
Definition arc_between (s : side) (port : component) (p : conn_point) : component :=
  match s with
  | Inlet => Arc_ port (Port_ (CandidatePort p))
  | Outlet => Arc_ (Port_ (CandidatePort p)) port
  end.

Definition wire_side (s : side) (self : positive) : Z * list conn_point → M unit :=
  match s with Inlet => wire_inlet self | Outlet => wire_outlet self end.

Definition wiring_of (s : side) (cfg : config) : list (Z * list conn_point) :=
  match s with
  | Inlet => unit_disjunct_inlet cfg
  | Outlet => unit_disjunct_outlet cfg
  end.

(** The generic loop, for one side of the selector. *)
Definition wire_of (s : side) (self : positive) : Z * list conn_point → M unit :=
  wire self (port_name_of s) (arc_name_of s) (arc_between s).

Lemma inlet_fan_out_fan self k ports c m :
  inlet_fan_out self k ports c m
  = fan self inlet_ inlet_to_unit_arc_ (arc_between Inlet) k ports c m.
Proof.
  revert c m. induction ports as [|p rest IH]; intros c m; simpl; [done|].
  unfold place_edge, mbind, M_bind, bind.
  destruct (getattr _ _ m) as [sbc m1|]; [|done].
  destruct (getattr _ _ m1) as [udc m2|]; [|done].
  destruct (getattr _ _ m2) as [port m3|]; [|done].
  simpl. destruct (add_component _ _ _ m3); [apply IH | done].
Qed.

Lemma outlet_fan_in_fan self k ports c m :
  outlet_fan_in self k ports c m
  = fan self outlet_ unit_to_outlet_arc_ (arc_between Outlet) k ports c m.
Proof.
  revert c m. induction ports as [|p rest IH]; intros c m; simpl; [done|].
  unfold place_edge, mbind, M_bind, bind.
  destruct (getattr _ _ m) as [sbc m1|]; [|done].
  destruct (getattr _ _ m1) as [udc m2|]; [|done].
  destruct (getattr _ _ m2) as [port m3|]; [|done].
  simpl. destruct (add_component _ _ _ m3); [apply IH | done].
Qed.

Lemma wire_side_wire s self item m :
  wire_side s self item m
  = wire self (port_name_of s) (arc_name_of s) (arc_between s) item m.
Proof.
  destruct item as [k ports], s; simpl; case_bool_decide; try done.
  - apply inlet_fan_out_fan.
  - apply outlet_fan_in_fan.
Qed.

Lemma arc_between_arc s port p : ∃ a b, arc_between s port p = Arc_ a b.
Proof. destruct s; simpl; eauto. Qed.

Lemma arc_name_of_edge s i : edge_name (arc_name_of s i) = true.
Proof. by destruct s. Qed.

Lemma arc_name_of_inj s i j : arc_name_of s i = arc_name_of s j → i = j.
Proof. destruct s; [apply inlet_to_unit_arc_inj | apply unit_to_outlet_arc_inj]. Qed.

Lemma arc_name_of_selector s i : arc_name_of s i ≠ "selector_block".
Proof. destruct s; simpl; names_differ. Qed.

Lemma arc_name_of_branch s i j : arc_name_of s i ≠ unit_disjunct_ j.
Proof. destruct s; simpl; names_differ. Qed.

Lemma arc_name_of_port s i k : arc_name_of s i ≠ port_name_of s k.
Proof. destruct s; simpl; names_differ. Qed.

(** One round of either wiring loop, when it completes. *)
Lemma wire_side_Return (s : side) (self : positive) (k : Z)
    (ports : list conn_point) (m m' : model) :
  wire_side s self (k, ports) m = Return tt m' →
  ∃ port, members m self !! port_name_of s k = Some port ∧
    ((∃ p, ports = [p] ∧
        edges_placed self (arc_name_of s) (arc_between s port) [(k, p)] m m')
     ∨ ((1 < length ports)%nat ∧
        edges_placed self (arc_name_of s) (arc_between s port)
          (enumerate_from 1 ports) m m')).
Proof.
  rewrite wire_side_wire. apply wire_Return.
  - apply arc_between_arc.
  - apply arc_name_of_edge.
  - apply arc_name_of_inj.
  - apply arc_name_of_selector.
  - apply arc_name_of_branch.
  - apply arc_name_of_port.
Qed.

(** * The structure [build] leaves *)

(** Pyomo keeps a component's parent pointer and the parent's member table
    in step: a unit with a parent is that parent's member, under its own
    name. *)
Definition consistent (m : model) : Prop :=
  ∀ u p, parent m !! u = Some p → members m p !! local_name u = Some (Unit_ u).

(** Components that [setattr] can always store: no unit, no broken arc. *)
Definition plain (v : component) : bool :=
  match v with
  | Unit_ _ => false
  | _ => constructible v
  end.

(** The model after [setattr(b, n, v)]. *)
Definition assigned (b : positive) (n : string) (v : component) (m : model)
    : model :=
  match members m b !! n with
  | Some _ => with_member b n v (without_member b n m)
  | None => with_member b n v m
  end.

(** The members of a new [Disjunct]. *)
Definition disjunct_members : gmap string component :=
  <["indicator_var" := BooleanVar_]> (<["binary_indicator_var" := BinaryVar_]> ∅).

(** The members of [selector_block] for branches [ds], in branch order. *)
Definition branch_table (ds : list positive) : gmap string component :=
  list_to_map (imap (λ i d, (unit_disjunct_ (Z.of_nat i + 1), Disjunct_ d)) ds).

Definition selection_table (ds : list positive) : gmap string component :=
  <["unit_disjunction" := Disjunction_ (Disjunct_ <$> ds)]> (branch_table ds).

(** The selector with its branches [ds] under [selector_block], which is
    block [sb]; [table] tells what [sb] holds. *)
Record laid_out (self sb : positive) (ds : list positive)
    (table : gmap string component) (m : model) : Prop := LaidOut {
  lo_selector : members m self !! "selector_block" = Some (Block_ sb);
  lo_table : members m sb = table;
  lo_distinct : NoDup (self :: sb :: ds);
  lo_allocated : ∀ b, b ∈ self :: sb :: ds → b ∈ dom (blocks m);
}.

(** What a branch may hold: its own candidate under the candidate's name,
    and under an inlet edge's name only arcs that end at a candidate. *)
Definition branch_member_ok (cfg : config) (i : nat) (n : string)
    (c : component) : Prop :=
  match c with
  | Unit_ u => unit_disjunct cfg !! i = Some u ∧ n = local_name u
  | Arc_ _ dst =>
      (∃ j, n = inlet_to_unit_arc_ j) → ∃ p, dst = Port_ (CandidatePort p)
  | _ => True
  end.

Definition branches_ok (cfg : config) (ds : list positive) (m : model) : Prop :=
  ∀ (i : nat) d n c,
    ds !! i = Some d → members m d !! n = Some c → branch_member_ok cfg i n c.

(** The invariant of a selector whose branches are assembled. *)
Record built (cfg : config) (self sb : positive) (ds : list positive)
    (m : model) : Prop := Built {
  built_consistent : consistent m;
  built_layout : laid_out self sb ds (selection_table ds) m;
  built_count : length ds = length (unit_disjunct cfg);
  built_branches : branches_ok cfg ds m;
}.

(** A [Disjunction] is an exclusive or: exactly one of its disjuncts has
    its indicator set. *)
Definition active (indicator : positive → bool) (c : component) : bool :=
  match c with
  | Disjunct_ d => indicator d
  | _ => false
  end.

Definition satisfied (indicator : positive → bool) (c : component) : Prop :=
  match c with
  | Disjunction_ expr => length (filter (λ x, active indicator x = true) expr) = 1%nat
  | _ => True
  end.

(** ** Consistency is kept *)

Lemma parent_set_parent u p m u' :
  parent (set_parent u p m) !! u' = if decide (u = u') then p else parent m !! u'.
Proof. unfold set_parent; simpl. by rewrite lookup_partial_alter. Qed.

Lemma consistent_set_members_fresh b ms m :
  consistent m → b ∉ dom (blocks m) → consistent (set_members b ms m).
Proof.
  intros Hc Hb u p Hp. rewrite members_set_members_ne; [by apply Hc|].
  intros ->. apply Hb. eapply members_allocated. by apply Hc.
Qed.

Lemma consistent_without_member b n m :
  consistent m → consistent (without_member b n m).
Proof.
  intros Hc u p Hp. unfold without_member in *.
  assert (Hpar : parent m !! u = Some p ∧ members m b !! n ≠ Some (Unit_ u)).
  { simpl in Hp. destruct (members m b !! n) as [[]|]; simpl in Hp; try done.
    rewrite lookup_partial_alter in Hp. case_decide; [done|].
    split; [done|]. congruence. }
  destruct Hpar as [Hpar Hne]. specialize (Hc _ _ Hpar).
  rewrite members_set_members, members_orphan. case_decide as Hb; [|done].
  subst p. rewrite lookup_delete_ne; [done|]. intros ->. by rewrite Hc in Hne.
Qed.

Lemma consistent_with_member b n v m :
  consistent m → members m b !! n = None → owned v m = false →
  (∀ u, v = Unit_ u → n = local_name u) →
  consistent (with_member b n v m).
Proof.
  intros Hc Hfree Hown Hname u p Hp. unfold with_member in *.
  rewrite members_adopt, members_set_members.
  assert (Hcase : (v = Unit_ u ∧ p = b) ∨ parent m !! u = Some p).
  { destruct v as [| | |u0| | | | | |]; simpl in Hp; auto.
    rewrite lookup_partial_alter in Hp. case_decide; [|auto].
    left. by simplify_eq. }
  destruct Hcase as [[-> ->] | Hpar].
  - rewrite decide_True by done.
    rewrite (Hname u eq_refl). by rewrite lookup_insert_eq.
  - specialize (Hc _ _ Hpar). case_decide as Hb; [|done]. subst p.
    rewrite lookup_insert_ne; [done|]. intros ->. by rewrite Hc in Hfree.
Qed.

Lemma consistent_record e m : consistent m → consistent (record e m).
Proof. done. Qed.

Lemma consistent_set_values v m : consistent m → consistent (set_values v m).
Proof. done. Qed.

(** ** [setattr] with a plain component always succeeds *)

Lemma plain_owned v m : plain v = true → owned v m = false.
Proof. by destruct v. Qed.

Lemma plain_constructible v : plain v = true → constructible v = true.
Proof. by destruct v. Qed.

Lemma plain_adopt b v m : plain v = true → adopt b v m = m.
Proof. by destruct v. Qed.

Lemma setattr_plain blk b n v m :
  block_of blk = Some b → plain v = true → reserved blk n m = false →
  setattr blk n v m = Return tt (assigned b n v m).
Proof.
  intros Hb Hv Hr. unfold setattr, assigned. rewrite Hb.
  destruct (members m b !! n) eqn:Hn.
  - unfold mbind, M_bind, bind, del_component. rewrite Hb, Hn.
    fold (without_member b n m). unfold without_member at 1. rewrite Hn.
    fold (without_member b n m).
    apply add_component_Return. exists b. split_and!; try done.
    + rewrite <- Hr. apply reserved_dir. exact (disjunct_dir_orphan (Some c) m).
    + unfold without_member. rewrite members_set_members_eq. apply lookup_delete_eq.
    + by apply plain_owned.
    + by apply plain_constructible.
  - apply add_component_Return. exists b. split_and!; try done.
    + by apply plain_owned.
    + by apply plain_constructible.
Qed.

(** [add_component] under a free name does what [setattr] would. *)
Lemma add_component_assigned blk b n v m m' :
  block_of blk = Some b →
  add_component blk n v m = Return tt m' →
  members m b !! n = None ∧ m' = assigned b n v m.
Proof.
  intros Hb (b' & Hb' & _ & Hfree & _ & _ & ->)%add_component_Return.
  assert (b' = b) as -> by congruence.
  unfold assigned. by rewrite Hfree.
Qed.

Lemma members_assigned b n v m b' :
  plain v = true →
  members (assigned b n v m) b'
  = if decide (b = b') then <[n := v]> (members m b) else members m b'.
Proof.
  intros Hv. unfold assigned, with_member, without_member.
  destruct (members m b !! n); rewrite members_adopt, !members_set_members.
  - case_decide; [|by rewrite members_orphan].
    rewrite decide_True by done. by rewrite insert_delete_eq.
  - done.
Qed.

Lemma blocks_set_members b ms m :
  dom (blocks (set_members b ms m)) = {[b]} ∪ dom (blocks m).
Proof. unfold set_members; simpl. apply dom_insert_L. Qed.

Lemma blocks_adopt b v m : blocks (adopt b v m) = blocks m.
Proof. by destruct v. Qed.

Lemma blocks_orphan v m : blocks (orphan v m) = blocks m.
Proof. by destruct v as [[]|]. Qed.

Lemma blocks_with_member b n v m :
  dom (blocks (with_member b n v m)) = {[b]} ∪ dom (blocks m).
Proof. unfold with_member. by rewrite blocks_adopt, blocks_set_members. Qed.

Lemma blocks_without_member b n m :
  dom (blocks (without_member b n m)) = {[b]} ∪ dom (blocks m).
Proof. unfold without_member. by rewrite blocks_set_members, blocks_orphan. Qed.

Lemma blocks_assigned b n v m :
  dom (blocks (assigned b n v m)) = {[b]} ∪ dom (blocks m).
Proof.
  unfold assigned. destruct (members m b !! n).
  - rewrite blocks_with_member, blocks_without_member.
    by rewrite (assoc_L (∪)), (idemp_L (∪)).
  - apply blocks_with_member.
Qed.

Lemma values_assigned b n v m : values (assigned b n v m) = values m.
Proof.
  unfold assigned, with_member, without_member.
  destruct (members m b !! n) as [[]|]; by destruct v.
Qed.

Lemma trace_assigned b n v m : trace (assigned b n v m) = trace m.
Proof.
  unfold assigned, with_member, without_member.
  destruct (members m b !! n) as [[]|]; by destruct v.
Qed.

Lemma consistent_assigned b n v m :
  plain v = true → consistent m → consistent (assigned b n v m).
Proof.
  intros Hv Hc. unfold assigned. destruct (members m b !! n) eqn:Hn.
  - apply consistent_with_member.
    + by apply consistent_without_member.
    + unfold without_member. rewrite members_set_members_eq. apply lookup_delete_eq.
    + by apply plain_owned.
    + intros u ->. done.
  - apply consistent_with_member; [done..| by apply plain_owned |].
    intros u ->. done.
Qed.

(** ** The table of branches *)

Lemma branch_table_snoc ds d :
  branch_table (ds ++ [d])
  = <[unit_disjunct_ (Z.of_nat (length ds) + 1) := Disjunct_ d]> (branch_table ds).
Proof.
  unfold branch_table. rewrite imap_app. simpl.
  rewrite Nat.add_0_r. apply list_to_map_snoc.
  intros ([n c] & Hn & Hin)%list_elem_of_fmap. simpl in Hn.
  apply elem_of_lookup_imap in Hin as (i & d' & [= -> ->] & Hi).
  apply unit_disjunct_inj in Hn. apply lookup_lt_Some in Hi. lia.
Qed.

Lemma branch_table_lookup_Some ds n c :
  branch_table ds !! n = Some c ↔
  ∃ (i : nat) d, ds !! i = Some d ∧ n = unit_disjunct_ (Z.of_nat i + 1) ∧ c = Disjunct_ d.
Proof.
  induction ds as [|d ds IH] using rev_ind.
  - unfold branch_table; simpl. rewrite lookup_empty. split; [done|].
    by intros (i & d & ? & _).
  - rewrite branch_table_snoc, lookup_insert_Some, IH. split.
    + intros [[<- <-] | (Hne & i & d' & Hi & -> & ->)].
      * exists (length ds), d. split_and!; [|done..].
        rewrite lookup_app_r by lia. by rewrite Nat.sub_diag.
      * exists i, d'. split_and!; [|done..]. by apply lookup_app_l_Some.
    + intros (i & d' & Hi & -> & ->).
      apply lookup_snoc_Some in Hi as [[Hlt Hi] | [-> ->]].
      * right. split; [|by eauto]. intros ?%unit_disjunct_inj. lia.
      * by left.
Qed.

Lemma branch_table_lookup ds (i : nat) :
  branch_table ds !! unit_disjunct_ (Z.of_nat i + 1) = Disjunct_ <$> ds !! i.
Proof.
  destruct (ds !! i) as [d|] eqn:Hi; simpl.
  - apply branch_table_lookup_Some. eauto.
  - destruct (branch_table ds !! _) as [c|] eqn:Hc; [|done].
    apply branch_table_lookup_Some in Hc as (j & d & Hj & Hn & _).
    apply unit_disjunct_inj in Hn. assert (i = j) as -> by lia. congruence.
Qed.

Lemma branch_table_range ds (idx : Z) :
  is_Some (branch_table ds !! unit_disjunct_ idx) ↔ 1 ≤ idx ≤ Z.of_nat (length ds).
Proof.
  split.
  - intros [c (i & d & Hi & Hn & _)%branch_table_lookup_Some].
    apply unit_disjunct_inj in Hn. apply lookup_lt_Some in Hi. lia.
  - intros Hidx. replace idx with (Z.of_nat (Z.to_nat (idx - 1)) + 1) by lia.
    rewrite branch_table_lookup.
    destruct (lookup_lt_is_Some_2 ds (Z.to_nat (idx - 1))) as [d ->]; [lia|].
    by eexists.
Qed.

Lemma branch_table_size ds : size (branch_table ds) = length ds.
Proof.
  induction ds as [|d ds IH] using rev_ind; [done|].
  rewrite branch_table_snoc, map_size_insert_None, IH, length_app; [simpl; lia|].
  destruct (branch_table ds !! _) as [c|] eqn:Hc; [|done].
  apply branch_table_lookup_Some in Hc as (j & d' & Hj & Hn & _).
  apply unit_disjunct_inj in Hn. apply lookup_lt_Some in Hj. lia.
Qed.

Lemma branch_table_no_disjunction ds : branch_table ds !! "unit_disjunction" = None.
Proof.
  destruct (branch_table ds !! _) as [c|] eqn:Hc; [|done].
  apply branch_table_lookup_Some in Hc as (j & d' & _ & Hn & _).
  symmetry in Hn. by apply unit_disjunct_not_disjunction in Hn.
Qed.

Lemma selection_table_branch ds (i : nat) :
  selection_table ds !! unit_disjunct_ (Z.of_nat i + 1) = Disjunct_ <$> ds !! i.
Proof.
  unfold selection_table. rewrite lookup_insert_ne; [apply branch_table_lookup|].
  intros H. symmetry in H. by apply unit_disjunct_not_disjunction in H.
Qed.

Lemma selection_table_range ds (idx : Z) :
  is_Some (selection_table ds !! unit_disjunct_ idx) ↔ 1 ≤ idx ≤ Z.of_nat (length ds).
Proof.
  unfold selection_table. rewrite lookup_insert_ne; [apply branch_table_range|].
  intros H. symmetry in H. by apply unit_disjunct_not_disjunction in H.
Qed.

Lemma selection_table_disjunction ds :
  selection_table ds !! "unit_disjunction" = Some (Disjunction_ (Disjunct_ <$> ds)).
Proof. apply lookup_insert_eq. Qed.

Lemma selection_table_size ds : size (selection_table ds) = S (length ds).
Proof.
  unfold selection_table.
  rewrite map_size_insert_None by apply branch_table_no_disjunction.
  by rewrite branch_table_size.
Qed.

(** Every member of the table is a branch, but for the one disjunction. *)
Lemma selection_table_lookup_Some ds n c :
  selection_table ds !! n = Some c →
  (n = "unit_disjunction" ∧ c = Disjunction_ (Disjunct_ <$> ds))
  ∨ ∃ (i : nat) d, ds !! i = Some d ∧ n = unit_disjunct_ (Z.of_nat i + 1) ∧ c = Disjunct_ d.
Proof.
  unfold selection_table. rewrite lookup_insert_Some.
  intros [[<- <-] | [_ H]]; [by left | right].
  by apply branch_table_lookup_Some.
Qed.

(** ** Branch construction *)

Lemma getattr_found c b n v m :
  block_of c = Some b → members m b !! n = Some v → getattr c n m = Return v m.
Proof. intros Hb Hn. unfold getattr. by rewrite Hb, Hn. Qed.

Lemma getattr_missing c b n m :
  block_of c = Some b → members m b !! n = None →
  getattr c n m = Raise (AttributeError n) m.
Proof. intros Hb Hn. unfold getattr. by rewrite Hb, Hn. Qed.

(** The selector while its branches are being created: [selector_block]
    holds the branches made so far, and each of them is as new. *)
Record laying_out (self sb : positive) (ds : list positive) (m : model)
    : Prop := LayingOut {
  lay_consistent : consistent m;
  lay_layout : laid_out self sb ds (branch_table ds) m;
  lay_new : ∀ d, d ∈ ds → members m d = disjunct_members;
}.

Lemma selector_block_assigned self m :
  consistent m → self ∈ dom (blocks m) →
  ∃ sb m',
    (Block ≫= λ b, setattr (this self) "selector_block" b) m = Return tt m' ∧
    (sb ∉ dom (blocks m)) ∧
    laying_out self sb [] m' ∧
    (∀ b, b ≠ self → b ≠ sb → members m' b = members m b) ∧
    (∀ n, n ≠ "selector_block" → members m' self !! n = members m self !! n) ∧
    dom (blocks m) ⊆ dom (blocks m') ∧
    (∀ u p, parent m' !! u = Some p → parent m !! u = Some p) ∧
    values m' = values m ∧ trace m' = trace m.
Proof.
  intros Hc Hself.
  set (sb := fresh (dom (blocks m))).
  assert (Hsb : sb ∉ dom (blocks m)) by apply is_fresh.
  assert (Hne : sb ≠ self) by (intros ->; done).
  set (m1 := set_members sb ∅ m).
  exists sb, (assigned self "selector_block" (Block_ sb) m1).
  assert (Hc1 : consistent m1) by by apply consistent_set_members_fresh.
  assert (Hm1 : members m1 self = members m self).
  { unfold m1. by rewrite members_set_members_ne. }
  split_and!.
  - unfold Block, allocate, mbind, M_bind, bind, mret, M_ret, ret; simpl.
    fold sb. fold m1. by apply setattr_plain.
  - done.
  - split.
    + by apply consistent_assigned.
    + split.
      * rewrite members_assigned, decide_True by done. apply lookup_insert_eq.
      * rewrite members_assigned, decide_False by done.
        unfold m1. by rewrite members_set_members_eq.
      * repeat constructor; [|by intros ?%elem_of_nil..].
        intros ?%list_elem_of_singleton. done.
      * intros b Hb. rewrite blocks_assigned. unfold m1.
        rewrite blocks_set_members.
        apply elem_of_cons in Hb as [->|Hb]; [set_solver|].
        apply list_elem_of_singleton in Hb as ->. set_solver.
    + by intros d ?%elem_of_nil.
  - intros b Hb1 Hb2. rewrite members_assigned, decide_False by done.
    unfold m1. by rewrite members_set_members_ne.
  - intros n Hn. rewrite members_assigned, decide_True by done.
    rewrite lookup_insert_ne by done. by rewrite Hm1.
  - rewrite blocks_assigned. unfold m1. rewrite blocks_set_members. set_solver.
  - intros u p. unfold assigned, with_member, without_member; simpl.
    destruct (members m1 self !! "selector_block") as [[]|]; simpl; try done.
    rewrite lookup_partial_alter. by case_decide.
  - by rewrite values_assigned.
  - by rewrite trace_assigned.
Qed.

Lemma laid_out_distinct self sb ds table m :
  laid_out self sb ds table m → self ≠ sb ∧ (self ∉ ds) ∧ (sb ∉ ds).
Proof.
  intros [_ _ [H1 [H2 _]%NoDup_cons]%NoDup_cons _].
  split_and!; [|by intros ?; apply H1; right|done].
  intros ->. apply H1. by left.
Qed.

Lemma laying_out_selector self sb ds m :
  laying_out self sb ds m →
  getattr (this self) "selector_block" m = Return (Block_ sb) m.
Proof. intros [_ [] _]. by apply (getattr_found _ self). Qed.

Lemma new_disjunct_Return self sb ds m :
  laying_out self sb ds m →
  ∃ d m',
    new_disjunct self (Z.of_nat (length ds) + 1) m = Return tt m' ∧
    (d ∉ dom (blocks m)) ∧
    laying_out self sb (ds ++ [d]) m' ∧
    (∀ b, b ≠ sb → b ≠ d → members m' b = members m b) ∧
    dom (blocks m) ⊆ dom (blocks m') ∧
    parent m' = parent m ∧ values m' = values m ∧ trace m' = trace m.
Proof.
  intros Hlay. pose proof Hlay as [Hc [Hsel Htab Hnd Hal] Hnew].
  set (d := fresh (dom (blocks m))).
  assert (Hd : d ∉ dom (blocks m)) by apply is_fresh.
  set (m1 := set_members d disjunct_members m).
  set (name := unit_disjunct_ (Z.of_nat (length ds) + 1)).
  exists d, (assigned sb name (Disjunct_ d) m1).
  assert (Hfree : members m sb !! name = None).
  { rewrite Htab. destruct (branch_table ds !! name) eqn:E; [|done].
    assert (is_Some (branch_table ds !! name)) as H%branch_table_range by eauto. lia. }
  assert (Hdself : d ≠ self). { intros ->. apply Hd, Hal. by left. }
  assert (Hdsb : d ≠ sb). { intros ->. apply Hd, Hal. right. by left. }
  assert (Hdds : d ∉ ds). { intros Hin. apply Hd, Hal. by do 2 right. }
  destruct (laid_out_distinct _ _ _ _ _ (lay_layout _ _ _ _ Hlay))
    as (Hsbself & Hselfds & Hsbds).
  assert (Hc1 : consistent m1) by by apply consistent_set_members_fresh.
  assert (Hm1sb : members m1 sb !! name = None).
  { unfold m1. by rewrite members_set_members_ne. }
  assert (Hasg : assigned sb name (Disjunct_ d) m1 = with_member sb name (Disjunct_ d) m1).
  { unfold assigned. by rewrite Hm1sb. }
  split_and!.
  - unfold new_disjunct. apply bind_Return. exists (Block_ sb), m.
    split; [by eapply laying_out_selector|].
    unfold Disjunct, allocate, mbind, M_bind, bind, mret, M_ret, ret; simpl.
    fold disjunct_members. fold d. fold m1. by apply setattr_plain.
  - done.
  - split.
    + by apply consistent_assigned.
    + split.
      * rewrite members_assigned, decide_False by done.
        unfold m1. by rewrite members_set_members_ne.
      * rewrite members_assigned, decide_True by done.
        unfold m1. rewrite members_set_members_ne, Htab by done.
        by rewrite branch_table_snoc.
      * rewrite !app_comm_cons. apply NoDup_app. split_and!; [done| |apply NoDup_singleton].
        intros b Hb ->%list_elem_of_singleton. apply Hd. by apply Hal.
      * intros b Hb. rewrite blocks_assigned. unfold m1. rewrite blocks_set_members.
        rewrite !app_comm_cons in Hb. apply elem_of_app in Hb as [Hb|Hb].
        -- apply Hal in Hb. set_solver.
        -- apply list_elem_of_singleton in Hb as ->. set_solver.
    + intros b [Hb | ->%list_elem_of_singleton]%elem_of_app.
      * rewrite members_assigned by done.
        rewrite decide_False by (by intros ->).
        unfold m1. rewrite members_set_members_ne by (by intros <-).
        by apply Hnew.
      * rewrite members_assigned, decide_False by done.
        unfold m1. by rewrite members_set_members_eq.
  - intros b Hb1 Hb2. rewrite members_assigned, decide_False by done.
    unfold m1. by rewrite members_set_members_ne.
  - rewrite blocks_assigned. unfold m1. rewrite blocks_set_members. set_solver.
  - by rewrite Hasg.
  - by rewrite values_assigned.
  - by rewrite trace_assigned.
Qed.

(** The first loop of [create_unit_disjunct] adds [n] branches. *)
Lemma new_disjunct_loop self sb (n : nat) ds m :
  laying_out self sb ds m →
  ∃ ds' m',
    for_each (seqZ (Z.of_nat (length ds) + 1) (Z.of_nat n)) (new_disjunct self) m
      = Return tt m' ∧
    length ds' = n ∧
    laying_out self sb (ds ++ ds') m' ∧
    (∀ b, b ∈ dom (blocks m) → b ≠ sb → members m' b = members m b) ∧
    dom (blocks m) ⊆ dom (blocks m') ∧
    (∀ d, d ∈ ds' → d ∉ dom (blocks m)) ∧
    parent m' = parent m ∧ values m' = values m ∧ trace m' = trace m.
Proof.
  revert ds m. induction n as [|n IH]; intros ds m Hlay.
  - exists [], m. rewrite app_nil_r. split_and!; try done.
    by intros d ?%elem_of_nil.
  - rewrite seqZ_cons by lia.
    destruct (new_disjunct_Return _ _ _ _ Hlay)
      as (d & m1 & Hstep & Hd & Hlay1 & Hfr1 & Hdom1 & Hp1 & Hv1 & Ht1).
    destruct (IH _ _ Hlay1) as (ds' & m' & Hloop & Hlen & Hlay' & Hfr & Hdom & Hnew & Hp & Hv & Ht).
    exists (d :: ds'), m'. split_and!.
    + simpl. apply bind_Return. exists tt, m1. split; [done|].
      rewrite length_app in Hloop. simpl in Hloop.
      replace (Z.succ (Z.of_nat (length ds) + 1)) with (Z.of_nat (length ds + 1) + 1) by lia.
      by replace (Z.pred (Z.of_nat (S n))) with (Z.of_nat n) by lia.
    + simpl. by rewrite Hlen.
    + by rewrite <-app_assoc in Hlay'.
    + intros b Hb Hbsb. rewrite Hfr by auto. apply Hfr1; [done|]. by intros ->.
    + set_solver.
    + intros b [->|Hb]%elem_of_cons; [done|]. intros Hin. by apply (Hnew b Hb), Hdom1.
    + congruence.
    + congruence.
    + congruence.
Qed.

Lemma disjunct_at_Return self sb m (i : nat) d :
  members m self !! "selector_block" = Some (Block_ sb) →
  members m sb !! unit_disjunct_ (Z.of_nat i + 1) = Some (Disjunct_ d) →
  disjunct_at self (Z.of_nat i + 1) m = Return (Disjunct_ d) m.
Proof.
  intros Hsel Hd. unfold disjunct_at. apply bind_Return.
  exists (Block_ sb), m. split; by eapply getattr_found.
Qed.

Lemma comprehension_disjunct_at self sb ds m (n k : nat) :
  members m self !! "selector_block" = Some (Block_ sb) →
  (∀ (i : nat) d, ds !! i = Some d →
     members m sb !! unit_disjunct_ (Z.of_nat i + 1) = Some (Disjunct_ d)) →
  (k + n ≤ length ds)%nat →
  comprehension (seqZ (Z.of_nat k + 1) (Z.of_nat n)) (disjunct_at self) m
  = Return (Disjunct_ <$> take n (drop k ds)) m.
Proof.
  intros Hsel Hds. revert k. induction n as [|n IH]; intros k Hk; [done|].
  rewrite seqZ_cons by lia. simpl.
  destruct (lookup_lt_is_Some_2 ds k) as [d Hd]; [lia|].
  rewrite (drop_S _ d) by done. simpl.
  apply bind_Return. exists (Disjunct_ d), m. split.
  { eapply disjunct_at_Return; eauto. }
  apply bind_Return. exists (Disjunct_ <$> take n (drop (S k) ds)), m. split; [|done].
  replace (Z.succ (Z.of_nat k + 1)) with (Z.of_nat (S k) + 1) by lia.
  replace (Z.pred (Z.of_nat (S n))) with (Z.of_nat n) by lia.
  apply IH. lia.
Qed.

(** The selector once [create_unit_disjunct] is done: the branches are all
    there, still as new, and the disjunction ranges over them. *)
Record assembled (cfg : config) (self sb : positive) (ds : list positive)
    (m : model) : Prop := Assembled {
  asm_consistent : consistent m;
  asm_layout : laid_out self sb ds (selection_table ds) m;
  asm_count : length ds = length (unit_disjunct cfg);
  asm_new : ∀ d, d ∈ ds → members m d = disjunct_members;
}.

Lemma create_unit_disjunct_Return cfg self sb m :
  laying_out self sb [] m →
  ∃ ds m',
    create_unit_disjunct cfg self m = Return tt m' ∧
    assembled cfg self sb ds m' ∧
    (∀ b, b ∈ dom (blocks m) → b ≠ sb → members m' b = members m b) ∧
    dom (blocks m) ⊆ dom (blocks m') ∧
    (∀ d, d ∈ ds → d ∉ dom (blocks m)) ∧
    parent m' = parent m ∧ values m' = values m ∧ trace m' = trace m.
Proof.
  intros Hlay.
  destruct (new_disjunct_loop self sb (length (unit_disjunct cfg)) [] m Hlay)
    as (ds & m1 & Hloop & Hlen & Hlay1 & Hfr & Hdom & Hnew & Hp & Hv & Ht).
  simpl in Hloop, Hlay1.
  pose proof Hlay1 as [Hc1 [Hsel Htab Hnd Hal] Hnew1].
  destruct (laid_out_distinct _ _ _ _ _ (lay_layout _ _ _ _ Hlay1))
    as (Hsbself & Hselfds & Hsbds).
  set (disj := Disjunction_ (Disjunct_ <$> ds)).
  exists ds, (assigned sb "unit_disjunction" disj m1). split_and!.
  - unfold create_unit_disjunct, RangeSet. apply bind_Return. exists tt, m1.
    split; [done|].
    apply bind_Return. exists (Block_ sb), m1.
    split; [by eapply getattr_found|].
    apply bind_Return. exists (Disjunct_ <$> ds), m1. split.
    + rewrite <-Hlen.
      pose proof (comprehension_disjunct_at self sb ds m1 (length ds) 0 Hsel) as H.
      change (Z.of_nat 0 + 1) with 1 in H. rewrite drop_0 in H.
      rewrite H; [by rewrite firstn_all | | done].
      intros i d Hi. rewrite Htab, branch_table_lookup, Hi. done.
    + by apply setattr_plain.
  - split.
    + by apply consistent_assigned.
    + split.
      * rewrite members_assigned, decide_False by done. done.
      * rewrite members_assigned, decide_True by done. by rewrite Htab.
      * done.
      * intros b Hb. rewrite blocks_assigned. apply Hal in Hb. set_solver.
    + done.
    + intros d Hd. rewrite members_assigned by done.
      rewrite decide_False by (by intros ->). by apply Hnew1.
  - intros b Hb Hbsb. rewrite members_assigned by done.
    rewrite decide_False by done. by apply Hfr.
  - rewrite blocks_assigned. set_solver.
  - done.
  - unfold assigned. rewrite Htab, branch_table_no_disjunction. by rewrite <-Hp.
  - by rewrite values_assigned.
  - by rewrite trace_assigned.
Qed.

(** ** Relocation of the candidates *)

Lemma members_without_member b n m b' :
  members (without_member b n m) b'
  = if decide (b = b') then delete n (members m b) else members m b'.
Proof.
  unfold without_member. rewrite members_set_members.
  case_decide; [done|]. by rewrite members_orphan.
Qed.

Lemma members_with_member b n v m b' :
  members (with_member b n v m) b'
  = if decide (b = b') then <[n := v]> (members m b) else members m b'.
Proof. unfold with_member. by rewrite members_adopt, members_set_members. Qed.

Lemma parent_without_member_unit p u m :
  members m p !! local_name u = Some (Unit_ u) →
  parent (without_member p (local_name u) m) !! u = None.
Proof.
  intros H. unfold without_member. rewrite H. simpl.
  rewrite lookup_partial_alter. by rewrite decide_True.
Qed.

(** One round of relocation, once the branch is found. *)
Lemma move_unit_eq sb (i : nat) d u m :
  members m sb !! unit_disjunct_ (Z.of_nat i + 1) = Some (Disjunct_ d) →
  move_unit (Block_ sb) (Z.of_nat i, u) m =
  match parent m !! u with
  | None => Raise (AttributeError "del_component") m
  | Some p =>
      add_component (Disjunct_ d) (local_name u) (Unit_ u)
        (without_member p (local_name u) m)
  end.
Proof.
  intros Hd. unfold move_unit, mbind at 1 2, M_bind, bind.
  rewrite (getattr_found _ sb _ (Disjunct_ d)) by done.
  unfold parent_block. destruct (parent m !! u) as [p|]; simpl; [|done].
  unfold mbind, M_bind, bind, del_component. simpl. done.
Qed.

(** The selector while candidates are being moved in: the first [k]
    branches may hold their candidate, the others are still as new. *)
Record relocating (cfg : config) (self sb : positive) (ds : list positive)
    (k : nat) (m : model) : Prop := Relocating {
  rel_consistent : consistent m;
  rel_layout : laid_out self sb ds (selection_table ds) m;
  rel_count : length ds = length (unit_disjunct cfg);
  rel_branches : branches_ok cfg ds m;
  rel_new : ∀ (j : nat) d, (k ≤ j)%nat → ds !! j = Some d →
            members m d = disjunct_members;
}.

Lemma disjunct_members_lookup n c :
  disjunct_members !! n = Some c →
  (n = "indicator_var" ∧ c = BooleanVar_)
  ∨ (n = "binary_indicator_var" ∧ c = BinaryVar_).
Proof.
  unfold disjunct_members. rewrite !lookup_insert_Some, lookup_empty.
  naive_solver.
Qed.

Lemma disjunct_members_ok cfg i n c :
  disjunct_members !! n = Some c → branch_member_ok cfg i n c.
Proof. by intros [[_ ->] | [_ ->]]%disjunct_members_lookup. Qed.

Lemma assembled_relocating cfg self sb ds m :
  assembled cfg self sb ds m → relocating cfg self sb ds 0 m.
Proof.
  intros [Hc Hl Hn Hnew]. split; try done.
  - intros i d n c Hi Hm. rewrite (Hnew d) in Hm by by eapply list_elem_of_lookup_2.
    by eapply disjunct_members_ok.
  - intros j d _ Hj. apply Hnew. by eapply list_elem_of_lookup_2.
Qed.

Lemma relocating_built cfg self sb ds k m :
  relocating cfg self sb ds k m → built cfg self sb ds m.
Proof. intros []. by split. Qed.

(** A unit's parent is never [selector_block], and a unit under the
    selector itself is not the member named [selector_block]. *)
Lemma parent_not_selector_block self sb ds m u p :
  consistent m → laid_out self sb ds (selection_table ds) m →
  parent m !! u = Some p →
  p ≠ sb ∧ (p = self → local_name u ≠ "selector_block").
Proof.
  intros Hc [Hsel Htab _ _] Hp. specialize (Hc _ _ Hp). split.
  - intros ->. rewrite Htab in Hc.
    apply selection_table_lookup_Some in Hc as [[_ ?] | (? & ? & _ & _ & ?)]; done.
  - intros -> Hn. rewrite Hn, Hsel in Hc. done.
Qed.

(** What a completed round of relocation leaves. *)
Lemma move_unit_Return cfg self sb ds (i : nat) u d m m' :
  relocating cfg self sb ds i m →
  unit_disjunct cfg !! i = Some u → ds !! i = Some d →
  move_unit (Block_ sb) (Z.of_nat i, u) m = Return tt m' →
  relocating cfg self sb ds (S i) m' ∧
  disjunct_members !! local_name u = None ∧
  parent m' !! u = Some d ∧
  (∀ u', u' ≠ u → parent m' !! u' = parent m !! u') ∧
  dom (blocks m) ⊆ dom (blocks m') ∧
  values m' = values m ∧ trace m' = trace m.
Proof.
  intros [Hc Hl Hn Hok Hnew] Hu Hd.
  pose proof Hl as [Hsel Htab Hnd Hal].
  destruct (laid_out_distinct _ _ _ _ _ Hl) as (Hselfsb & Hselfds & Hsbds).
  assert (Hdin : d ∈ ds) by by eapply list_elem_of_lookup_2.
  assert (Hndds : NoDup ds) by by apply NoDup_cons in Hnd as [_ [_ ?]%NoDup_cons].
  rewrite (move_unit_eq sb i d) by (by rewrite Htab, selection_table_branch, Hd).
  destruct (parent m !! u) as [p|] eqn:Hp; [|done].
  destruct (parent_not_selector_block _ _ _ _ _ _ Hc Hl Hp) as [Hpsb Hpself].
  pose proof (Hc _ _ Hp) as Hmem.
  set (name := local_name u) in *.
  set (m1 := without_member p name m).
  intros (d' & [= <-] & _ & Hfree & Hown & _ & ->)%add_component_Return.
  assert (Hc1 : consistent m1) by by apply consistent_without_member.
  assert (Hdself : d ≠ self) by by intros ->.
  assert (Hdsb : d ≠ sb) by by intros ->.
  assert (Hdnew : members m d = disjunct_members) by by apply (Hnew i).
  assert (Hpnd : p ≠ d).
  { intros ->. rewrite Hdnew in Hmem.
    by apply disjunct_members_lookup in Hmem as [[_ ?] | [_ ?]]. }
  split_and!.
  - split.
    + apply consistent_with_member; try done. by intros ? [= <-].
    + split.
      * rewrite members_with_member, decide_False by done.
        unfold m1. rewrite members_without_member. case_decide as Hps; [|done].
        subst p. rewrite lookup_delete_ne; [done|]. intros Heq. by apply Hpself.
      * rewrite members_with_member, decide_False by done.
        unfold m1. rewrite members_without_member. by rewrite decide_False.
      * done.
      * intros b Hb. rewrite blocks_with_member. unfold m1.
        rewrite blocks_without_member. apply Hal in Hb. set_solver.
    + done.
    + intros j dj n c Hj.
      assert (Hold : ∀ c', members m1 dj !! n = Some c' → branch_member_ok cfg j n c').
      { intros c'. unfold m1. rewrite members_without_member.
        case_decide as Hpd;
          [intros [_ Hm']%lookup_delete_Some; rewrite Hpd in Hm'|intros Hm'];
          by eapply Hok. }
      intros Hm. rewrite members_with_member in Hm.
      case_decide as Hdj; [|by apply Hold].
      subst dj. assert (j = i) as -> by (by eapply NoDup_lookup).
      apply lookup_insert_Some in Hm as [[<- <-] | [_ Hm]]; [done|].
      by apply Hold.
    + intros j dj Hij Hj. rewrite members_with_member.
      assert (d ≠ dj).
      { intros ->. assert (j = i); [|lia]. by eapply NoDup_lookup. }
      rewrite decide_False by done.
      unfold m1. rewrite members_without_member.
      assert (Hdjnew : members m dj = disjunct_members) by (apply (Hnew j); [lia|done]).
      case_decide as Hpd; [|done]. rewrite Hpd, Hdjnew in Hmem.
      by apply disjunct_members_lookup in Hmem as [[_ ?] | [_ ?]].
  - unfold m1 in Hfree. rewrite members_without_member in Hfree.
    rewrite decide_False in Hfree by done. by rewrite <-Hdnew.
  - unfold with_member; simpl. rewrite lookup_partial_alter. by rewrite decide_True.
  - intros u' Hu'. unfold with_member; simpl. rewrite lookup_partial_alter.
    rewrite decide_False by done. unfold m1, without_member. rewrite Hmem. simpl.
    rewrite lookup_partial_alter. by rewrite decide_False.
  - rewrite blocks_with_member. unfold m1. rewrite blocks_without_member. set_solver.
  - unfold m1, without_member. by rewrite Hmem.
  - unfold m1, without_member. by rewrite Hmem.
Qed.

Lemma move_unit_loop_Return cfg self sb ds us (k : nat) m m' :
  drop k (unit_disjunct cfg) = us →
  relocating cfg self sb ds k m →
  for_each (enumerate_from (Z.of_nat k) us) (move_unit (Block_ sb)) m = Return tt m' →
  relocating cfg self sb ds (k + length us) m' ∧
  (∀ u, u ∈ us → disjunct_members !! local_name u = None) ∧
  (∀ u, u ∈ us → ∃ d, d ∈ ds ∧ parent m' !! u = Some d) ∧
  (∀ u, u ∉ us → parent m' !! u = parent m !! u) ∧
  dom (blocks m) ⊆ dom (blocks m') ∧
  values m' = values m ∧ trace m' = trace m.
Proof.
  revert k m. induction us as [|u us IH]; intros k m Hus Hrel; simpl.
  - intros [= <-]. rewrite Nat.add_0_r.
    split_and!; try done; by intros u ?%elem_of_nil.
  - intros ([] & m1 & Hstep & Hloop)%bind_Return.
    assert (Hu : unit_disjunct cfg !! k = Some u).
    { pose proof (lookup_drop (unit_disjunct cfg) k 0) as H.
      by rewrite Hus, Nat.add_0_r in H. }
    assert (Hus' : drop (S k) (unit_disjunct cfg) = us).
    { replace (S k) with (k + 1)%nat by lia. by rewrite <-drop_drop, Hus. }
    destruct (lookup_lt_is_Some_2 ds k) as [d Hd].
    { rewrite (rel_count _ _ _ _ _ _ Hrel). by eapply lookup_lt_Some. }
    destruct (move_unit_Return _ _ _ _ _ _ _ _ _ Hrel Hu Hd Hstep)
      as (Hrel1 & Hnc1 & Hpu & Hpo & Hdom1 & Hv1 & Ht1).
    replace (Z.of_nat k + 1) with (Z.of_nat (S k)) in Hloop by lia.
    destruct (IH _ _ Hus' Hrel1 Hloop) as (Hrel' & Hnc & Hin & Hout & Hdom & Hv & Ht).
    split_and!.
    + by replace (k + S (length us))%nat with (S k + length us)%nat by lia.
    + intros u' [->|Hu']%elem_of_cons; [done | by apply Hnc].
    + intros u' [->|Hu']%elem_of_cons; [|by apply Hin].
      destruct (decide (u ∈ us)) as [?|Hnin]; [by apply Hin|].
      exists d. split; [by eapply list_elem_of_lookup_2|].
      by rewrite (Hout _ Hnin).
    + intros u' [Hne Hnin]%not_elem_of_cons. rewrite (Hout _ Hnin). by apply Hpo.
    + set_solver.
    + congruence.
    + congruence.
Qed.

Lemma add_units_to_disjunct_Return cfg self sb ds m m' :
  assembled cfg self sb ds m →
  add_units_to_disjunct cfg self m = Return tt m' →
  built cfg self sb ds m' ∧
  (∀ u, u ∈ unit_disjunct cfg → disjunct_members !! local_name u = None) ∧
  (∀ u, u ∈ unit_disjunct cfg → ∃ d, d ∈ ds ∧ parent m' !! u = Some d) ∧
  (∀ u, u ∉ unit_disjunct cfg → parent m' !! u = parent m !! u) ∧
  dom (blocks m) ⊆ dom (blocks m') ∧
  values m' = values m ∧ trace m' = trace m.
Proof.
  intros Hasm. unfold add_units_to_disjunct, enumerate.
  intros (sbc & m1 & Hget & Hloop)%bind_Return.
  apply getattr_Return in Hget as (-> & b & [= <-] & Hsb).
  rewrite (lo_selector _ _ _ _ _ (asm_layout _ _ _ _ _ Hasm)) in Hsb.
  injection Hsb as <-.
  apply assembled_relocating in Hasm.
  destruct (move_unit_loop_Return cfg self sb ds _ 0 m m' eq_refl Hasm Hloop)
    as (Hrel & ?). split; [|done]. by eapply relocating_built.
Qed.

(** ** Steps that keep the invariant *)

Lemma built_step cfg self sb ds m m' :
  built cfg self sb ds m →
  consistent m' →
  members m' self !! "selector_block" = members m self !! "selector_block" →
  members m' sb = members m sb →
  dom (blocks m) ⊆ dom (blocks m') →
  (∀ (i : nat) d n c, ds !! i = Some d → members m' d !! n = Some c →
     members m d !! n = Some c ∨ branch_member_ok cfg i n c) →
  built cfg self sb ds m'.
Proof.
  intros [Hc [Hsel Htab Hnd Hal] Hn Hok] Hc' Hsel' Htab' Hdom Hnew.
  split; [done| |done|].
  - split; [congruence | congruence | done |].
    intros b Hb. by apply Hdom, Hal.
  - intros i d n c Hi Hm. destruct (Hnew _ _ _ _ Hi Hm) as [Hold|?]; [|done].
    by eapply Hok.
Qed.

Lemma built_distinct cfg self sb ds m :
  built cfg self sb ds m → self ≠ sb ∧ (self ∉ ds) ∧ (sb ∉ ds) ∧ NoDup ds.
Proof.
  intros [_ Hl _ _]. destruct (laid_out_distinct _ _ _ _ _ Hl) as (? & ? & ?).
  split_and!; try done. destruct Hl as [_ _ Hnd _].
  by apply NoDup_cons in Hnd as [_ [_ ?]%NoDup_cons].
Qed.

Lemma built_same_store cfg self sb ds m m' :
  built cfg self sb ds m → blocks m' = blocks m → parent m' = parent m →
  built cfg self sb ds m'.
Proof.
  intros Hb Hbl Hpa.
  assert (Hmem : ∀ b, members m' b = members m b).
  { intros b. unfold members. by rewrite Hbl. }
  eapply built_step; try done.
  - intros u p. rewrite Hpa, Hmem. apply Hb.
  - by rewrite !Hmem.
  - by rewrite Hbl.
  - intros i d n c _. rewrite Hmem. auto.
Qed.

(** A new object somewhere in the store. *)
Lemma built_allocated cfg self sb ds m b ms :
  built cfg self sb ds m → b ∉ dom (blocks m) →
  built cfg self sb ds (set_members b ms m).
Proof.
  intros Hb Hfresh.
  assert (Hne : ∀ b', b' ∈ self :: sb :: ds → b ≠ b').
  { intros b' Hb' ->. apply Hfresh. by apply Hb. }
  eapply built_step; try done.
  - apply consistent_set_members_fresh; [apply Hb | done].
  - rewrite members_set_members_ne; [done|]. apply Hne. by left.
  - rewrite members_set_members_ne; [done|]. apply Hne. right. by left.
  - rewrite blocks_set_members. set_solver.
  - intros i d n c Hi. rewrite members_set_members_ne; [auto|].
    apply Hne. do 2 right. by eapply list_elem_of_lookup_2.
Qed.

(** A plain member of the selector itself, under any name but
    [selector_block]. *)
Lemma built_assigned_self cfg self sb ds m n v :
  built cfg self sb ds m → n ≠ "selector_block" → plain v = true →
  built cfg self sb ds (assigned self n v m).
Proof.
  intros Hb Hn Hv. destruct (built_distinct _ _ _ _ _ Hb) as (? & ? & ? & _).
  eapply built_step; try done.
  - apply consistent_assigned; [done | apply Hb].
  - rewrite members_assigned, decide_True by done. by rewrite lookup_insert_ne.
  - rewrite members_assigned by done. by rewrite decide_False.
  - rewrite blocks_assigned. set_solver.
  - intros i d n' c Hi. rewrite members_assigned by done.
    rewrite decide_False; [auto|]. intros ->.
    by apply list_elem_of_lookup_2 in Hi.
Qed.

(** A new arc in a branch. *)
Lemma built_edge cfg self sb ds m (i : nat) d n a b :
  built cfg self sb ds m → ds !! i = Some d → members m d !! n = None →
  branch_member_ok cfg i n (Arc_ a b) →
  built cfg self sb ds (set_members d (<[n := Arc_ a b]> (members m d)) m).
Proof.
  intros Hb Hi Hfree Hok. destruct (built_distinct _ _ _ _ _ Hb) as (? & ? & ? & Hnd).
  assert (Hd : d ∈ ds) by by eapply list_elem_of_lookup_2.
  eapply built_step; try done.
  - apply (consistent_with_member d n (Arc_ a b)); [apply Hb | done..].
  - rewrite members_set_members_ne; [done | by intros ->].
  - rewrite members_set_members_ne; [done | by intros ->].
  - rewrite blocks_set_members. set_solver.
  - intros j d' n' c Hj. rewrite members_set_members. case_decide; [|auto].
    subst d'. assert (j = i) as -> by by eapply NoDup_lookup.
    intros [[<- <-] | [_ ?]]%lookup_insert_Some; auto.
Qed.

(** ** Ports keep the invariant *)

Lemma for_each_Return_inv {X} (P : model → Prop) (xs : list X) (body : X → M unit) m m' :
  (∀ x m m', x ∈ xs → P m → body x m = Return tt m' → P m') →
  P m → for_each xs body m = Return tt m' → P m'.
Proof.
  revert m. induction xs as [|x xs IH]; intros m Hbody Hm; simpl.
  - by intros [= <-].
  - intros ([] & m1 & Hx & Hrest)%bind_Return.
    eapply (IH m1); [|by eapply Hbody; [left|..]|done].
    intros y ? ? Hy. apply Hbody. by right.
Qed.

Lemma inlet_not_selector_block k : inlet_ k ≠ "selector_block".
Proof. names_differ. Qed.
Lemma outlet_not_selector_block k : outlet_ k ≠ "selector_block".
Proof. names_differ. Qed.
Lemma inlet_state_not_selector_block k : state_ (inlet_ k) ≠ "selector_block".
Proof. names_differ. Qed.
Lemma outlet_state_not_selector_block k : state_ (outlet_ k) ≠ "selector_block".
Proof. names_differ. Qed.

(** The names of the selector's ports on one side. *)
Definition port_names (s : side) (cfg : config) : list string :=
  match s with
  | Inlet => create_inlet_list cfg
  | Outlet => create_outlet_list cfg
  end.

Lemma elem_of_port_names s cfg p :
  p ∈ port_names s cfg ↔
  ∃ k, p = port_name_of s k ∧ 1 ≤ k ≤ Z.of_nat (length (wiring_of s cfg)).
Proof.
  destruct s; simpl; unfold create_inlet_list, create_outlet_list, range;
    rewrite list_elem_of_fmap; setoid_rewrite elem_of_seqZ;
    split; intros (k & ? & ?); exists k; (split; [done | lia]).
Qed.

Lemma port_name_not_selector_block s k : port_name_of s k ≠ "selector_block".
Proof. destruct s; [apply inlet_not_selector_block | apply outlet_not_selector_block]. Qed.

Lemma port_state_not_selector_block s k : state_ (port_name_of s k) ≠ "selector_block".
Proof.
  destruct s; [apply inlet_state_not_selector_block | apply outlet_state_not_selector_block].
Qed.

Lemma state_block_loop_built cfg self sb ds t doc args names acc m l m' :
  (∀ p, p ∈ names → state_ p ≠ "selector_block") →
  built cfg self sb ds m →
  state_block_loop self t doc args names acc m = Return l m' →
  built cfg self sb ds m'.
Proof.
  revert acc m. induction names as [|p names IH]; intros acc m Hnames Hb; simpl.
  - by intros [= _ <-].
  - intros (c & m1 & Hnew & Hrest)%bind_Return.
    apply bind_Return in Hnew as (b & m0 & Halloc & [= <- <-]).
    pose proof (allocate_fresh _ _ _ _ Halloc) as Hfresh.
    apply allocate_Return in Halloc as [-> ->].
    apply bind_Return in Hrest as ([] & m2 & Hset & Hrest).
    rewrite (setattr_plain _ self) in Hset by done. injection Hset as <-.
    apply bind_Return in Hrest as (x & m3 & Hget & Hrest).
    apply getattr_Return in Hget as [-> _].
    eapply IH; [|  |done].
    + intros q Hq. apply Hnames. by right.
    + apply built_assigned_self; [|apply Hnames; by left|done].
      by apply built_allocated.
Qed.

Lemma add_port_state_block_built cfg self sb ds s unit_type is_inlet m l m' :
  built cfg self sb ds m →
  add_port_state_block self unit_type (port_names s cfg) is_inlet m = Return l m' →
  built cfg self sb ds m'.
Proof.
  intros Hb. unfold add_port_state_block. destruct unit_type as [t|]; [|done].
  apply state_block_loop_built; [|done].
  intros p (k & -> & _)%elem_of_port_names. apply port_state_not_selector_block.
Qed.

Lemma add_port_objects_built cfg self sb ds s is_inlet m m' :
  built cfg self sb ds m →
  add_port_objects cfg self (port_names s cfg) is_inlet m = Return tt m' →
  built cfg self sb ds m'.
Proof.
  intros Hb. unfold add_port_objects. destruct (construct_ports cfg).
  - apply for_each_Return_inv; [|done].
    intros p m1 m2 (k & -> & _)%elem_of_port_names Hb1
      (c & m3 & Hget & Hadd)%bind_Return.
    apply getattr_Return in Hget as [-> _].
    unfold add_port in Hadd. destruct c; try done.
    apply (add_component_assigned _ self) in Hadd as [_ ->]; [|done].
    apply built_assigned_self; [done | apply port_name_not_selector_block | done].
  - by intros [= <-].
Qed.

(** ** Wiring keeps the invariant *)

Lemma built_branch cfg self sb ds m i udc :
  built cfg self sb ds m → branch self m i = Some udc →
  ∃ (j : nat) d, ds !! j = Some d ∧ i = Z.of_nat j + 1 ∧ udc = Disjunct_ d.
Proof.
  intros [_ [Hsel Htab _ _] _ _]. unfold branch. rewrite Hsel. simpl.
  rewrite Htab. intros [[H _] | (j & d & Hj & Hn & ->)]%selection_table_lookup_Some.
  - by apply unit_disjunct_not_disjunction in H.
  - apply unit_disjunct_inj in Hn. eauto.
Qed.

Lemma built_branch_lookup cfg self sb ds m (j : nat) :
  built cfg self sb ds m →
  branch self m (Z.of_nat j + 1) = Disjunct_ <$> ds !! j.
Proof.
  intros [_ [Hsel Htab _ _] _ _]. unfold branch. rewrite Hsel. simpl.
  rewrite Htab. apply selection_table_branch.
Qed.

Lemma arc_between_ok cfg s (j : nat) i port p :
  branch_member_ok cfg j (arc_name_of s i) (arc_between s port p).
Proof.
  destruct s; simpl; [eauto|].
  intros [k Hk]. symmetry in Hk. by apply inlet_arc_not_outlet_arc in Hk.
Qed.

Lemma place_edge_built cfg self sb ds s k i p m m' :
  built cfg self sb ds m →
  place_edge self (port_name_of s) (arc_name_of s) (arc_between s) k i p m
    = Return tt m' →
  built cfg self sb ds m'.
Proof.
  intros Hb H.
  apply place_edge_Return in H as (udc & d & port & Hbr & Hd & _ & Hfree & _ & ->);
    [|apply arc_between_arc|apply arc_name_of_edge].
  destruct (built_branch _ _ _ _ _ _ _ Hb Hbr) as (j & d' & Hj & -> & ->).
  injection Hd as <-.
  destruct (arc_between_arc s port p) as (a & b & Harc).
  pose proof (arc_between_ok cfg s j (Z.of_nat j + 1) port p) as Hok.
  rewrite Harc in *. by eapply built_edge.
Qed.

Lemma fan_built cfg self sb ds s k ports c m m' :
  built cfg self sb ds m →
  fan self (port_name_of s) (arc_name_of s) (arc_between s) k ports c m
    = Return tt m' →
  built cfg self sb ds m'.
Proof.
  revert c m. induction ports as [|p rest IH]; intros c m Hb; simpl.
  - by intros [= <-].
  - intros ([] & m1 & Hstep & Hrest)%bind_Return.
    eapply IH; [|done]. by eapply place_edge_built.
Qed.

Lemma wire_side_built cfg self sb ds s item m m' :
  built cfg self sb ds m → wire_side s self item m = Return tt m' →
  built cfg self sb ds m'.
Proof.
  intros Hb. rewrite wire_side_wire. destruct item as [k [|p [|q rest]]].
  - rewrite wire_empty. by repeat case_match.
  - rewrite wire_single. by apply place_edge_built.
  - by apply fan_built.
Qed.

Lemma wiring_built cfg self sb ds s m m' :
  built cfg self sb ds m →
  for_each (wiring_of s cfg) (wire_side s self) m = Return tt m' →
  built cfg self sb ds m'.
Proof.
  intros Hb. apply for_each_Return_inv; [|done].
  intros item m1 m2 _. apply wire_side_built.
Qed.

(** * What holds between the model before and the model after *)

(** [c] takes every model to one that is [R]-related to it, whether it
    returns or raises. *)
Definition keeps {A} (R : relation model) (c : M A) : Prop :=
  ∀ m, R m (final (c m)).

Lemma keeps_Return {A} (R : relation model) (c : M A) m a m' :
  keeps R c → c m = Return a m' → R m m'.
Proof. intros H Heq. specialize (H m). by rewrite Heq in H. Qed.

Section Keeps.

Context (R : relation model) `{!PreOrder R}.

Lemma keeps_ret {A} (a : A) : keeps R (mret a).
Proof. intros m. simpl. reflexivity. Qed.

Lemma keeps_raise {A} e : keeps R (raise (A:=A) e).
Proof. intros m. simpl. reflexivity. Qed.

Lemma keeps_bind {A B} (c : M A) (k : A → M B) :
  keeps R c → (∀ a, keeps R (k a)) → keeps R (c ≫= k).
Proof.
  intros Hc Hk m. specialize (Hc m). unfold mbind, M_bind, bind.
  destruct (c m) as [a m1|e m1]; simpl in *; [|done].
  etrans; [done | apply Hk].
Qed.

Lemma keeps_for_each {X} (xs : list X) (body : X → M unit) :
  (∀ x, keeps R (body x)) → keeps R (for_each xs body).
Proof.
  intros Hbody. induction xs as [|x xs IH]; simpl; [apply keeps_ret|].
  apply keeps_bind; [apply Hbody | by intros _].
Qed.

Lemma keeps_comprehension {X A} (xs : list X) (f : X → M A) :
  (∀ x, keeps R (f x)) → keeps R (comprehension xs f).
Proof.
  intros Hf. induction xs as [|x xs IH]; simpl; [apply keeps_ret|].
  apply keeps_bind; [apply Hf|]. intros a.
  apply keeps_bind; [apply IH|]. intros r. apply keeps_ret.
Qed.

End Keeps.

(** The port values, the record of calls and the reserved words are as
    they were, and no object has left the store. *)
Definition untouched (m m' : model) : Prop :=
  values m' = values m ∧ trace m' = trace m ∧ dom (blocks m) ⊆ dom (blocks m') ∧
  disjunct_dir m' = disjunct_dir m.

Global Instance untouched_preorder : PreOrder untouched.
Proof.
  split.
  - by intros m.
  - intros m1 m2 m3 (Hv1 & Ht1 & Hd1 & Hr1) (Hv2 & Ht2 & Hd2 & Hr2).
    split_and!; [congruence | congruence | set_solver | congruence].
Qed.

Lemma untouched_getattr c n : keeps untouched (getattr c n).
Proof.
  intros m. unfold getattr. destruct (block_of c) as [b|]; [|done].
  by destruct (members m b !! n).
Qed.

Lemma untouched_add_component blk n v : keeps untouched (add_component blk n v).
Proof.
  intros m. unfold add_component. destruct (block_of blk) as [b|]; [|done].
  destruct (reserved blk n m); [done|].
  destruct (members m b !! n); [done|]. destruct (owned v m); [done|].
  destruct (constructible v); [|done]. simpl.
  split_and!; [by destruct v | by destruct v | | by destruct v].
  fold (with_member b n v m). rewrite blocks_with_member. set_solver.
Qed.

Lemma untouched_del_component blk n : keeps untouched (del_component blk n).
Proof.
  intros m. unfold del_component. destruct (block_of blk) as [b|]; [|done]. simpl.
  split_and!; [by destruct (members m b !! n) as [[]|] |
               by destruct (members m b !! n) as [[]|] | |
               by destruct (members m b !! n) as [[]|]].
  fold (without_member b n m). rewrite blocks_without_member. set_solver.
Qed.

Lemma untouched_setattr blk n v : keeps untouched (setattr blk n v).
Proof.
  intros m. unfold setattr. destruct (block_of blk) as [b|] eqn:Hb; [|done].
  destruct (members m b !! n).
  - apply (keeps_bind untouched);
      [apply untouched_del_component | intros _; apply untouched_add_component].
  - apply untouched_add_component.
Qed.

Lemma untouched_allocate ms : keeps untouched (allocate ms).
Proof.
  intros m. simpl. split_and!; [done | done | | done].
  rewrite blocks_set_members. set_solver.
Qed.

Lemma untouched_Block : keeps untouched Block.
Proof.
  apply (keeps_bind untouched); [apply untouched_allocate|].
  intros b. apply (keeps_ret untouched).
Qed.

Lemma untouched_Disjunct : keeps untouched Disjunct.
Proof.
  apply (keeps_bind untouched); [apply untouched_allocate|].
  intros b. apply (keeps_ret untouched).
Qed.

Lemma untouched_create_unit_disjunct cfg self :
  keeps untouched (create_unit_disjunct cfg self).
Proof.
  unfold create_unit_disjunct. apply (keeps_bind untouched).
  - apply (keeps_for_each untouched). intros idx. unfold new_disjunct.
    apply (keeps_bind untouched); [apply untouched_getattr | intros sbc].
    apply (keeps_bind untouched); [apply untouched_Disjunct | intros d].
    apply untouched_setattr.
  - intros _. apply (keeps_bind untouched); [apply untouched_getattr | intros sbc].
    apply (keeps_bind untouched); [|intros expr; apply untouched_setattr].
    apply (keeps_comprehension untouched). intros idx. unfold disjunct_at.
    apply (keeps_bind untouched); [apply untouched_getattr|].
    intros ?. apply untouched_getattr.
Qed.

Lemma untouched_move_unit sbc item : keeps untouched (move_unit sbc item).
Proof.
  destruct item as [i u]. unfold move_unit.
  apply (keeps_bind untouched); [apply untouched_getattr | intros d].
  apply (keeps_bind untouched); [by intros m | intros p].
  apply (keeps_bind untouched); [|intros _; apply untouched_add_component].
  destruct p as [c|]; simpl;
    [apply untouched_del_component | apply (keeps_raise untouched)].
Qed.

Lemma untouched_add_units_to_disjunct cfg self :
  keeps untouched (add_units_to_disjunct cfg self).
Proof.
  unfold add_units_to_disjunct.
  apply (keeps_bind untouched); [apply untouched_getattr | intros sbc].
  apply (keeps_for_each untouched). intros item. apply untouched_move_unit.
Qed.

Lemma untouched_state_block_loop self t doc args names acc :
  keeps untouched (state_block_loop self t doc args names acc).
Proof.
  revert acc. induction names as [|p names IH]; intros acc; simpl;
    [apply (keeps_ret untouched)|].
  apply (keeps_bind untouched).
  { apply (keeps_bind untouched); [apply untouched_allocate|].
    intros b. apply (keeps_ret untouched). }
  intros c. apply (keeps_bind untouched); [apply untouched_setattr | intros _].
  apply (keeps_bind untouched); [apply untouched_getattr | intros x]. apply IH.
Qed.

Lemma untouched_add_port_state_block self unit_type names is_inlet :
  keeps untouched (add_port_state_block self unit_type names is_inlet).
Proof.
  unfold add_port_state_block. destruct unit_type.
  - apply untouched_state_block_loop.
  - apply (keeps_raise untouched).
Qed.

Lemma untouched_add_port_objects cfg self names is_inlet :
  keeps untouched (add_port_objects cfg self names is_inlet).
Proof.
  unfold add_port_objects. destruct (construct_ports cfg);
    [|apply (keeps_ret untouched)].
  apply (keeps_for_each untouched). intros p.
  apply (keeps_bind untouched); [apply untouched_getattr | intros c].
  unfold add_port. destruct c; try apply (keeps_raise untouched).
  apply untouched_add_component.
Qed.

Lemma keeps_ext {A} (R : relation model) (c1 c2 : M A) :
  (∀ m, c1 m = c2 m) → keeps R c2 → keeps R c1.
Proof. intros Heq H m. rewrite Heq. apply H. Qed.

Lemma untouched_place_edge self port_name arc_name mk_arc k i p :
  keeps untouched (place_edge self port_name arc_name mk_arc k i p).
Proof.
  unfold place_edge.
  apply (keeps_bind untouched); [apply untouched_getattr | intros sbc].
  apply (keeps_bind untouched); [apply untouched_getattr | intros d].
  apply (keeps_bind untouched); [apply untouched_getattr | intros port].
  apply untouched_add_component.
Qed.

Lemma untouched_fan self port_name arc_name mk_arc k ports c :
  keeps untouched (fan self port_name arc_name mk_arc k ports c).
Proof.
  revert c. induction ports as [|p rest IH]; intros c; simpl;
    [apply (keeps_ret untouched)|].
  apply (keeps_bind untouched); [apply untouched_place_edge | intros _; apply IH].
Qed.

Lemma untouched_wire self port_name arc_name mk_arc item :
  keeps untouched (wire self port_name arc_name mk_arc item).
Proof.
  destruct item as [k ports]. unfold wire. case_bool_decide; [apply untouched_fan|].
  apply (keeps_bind untouched); [apply untouched_getattr | intros sbc].
  apply (keeps_bind untouched); [apply untouched_getattr | intros d].
  apply (keeps_bind untouched); [apply untouched_getattr | intros port].
  apply (keeps_bind untouched); [|intros p; apply untouched_add_component].
  destruct ports; [apply (keeps_raise untouched) | apply (keeps_ret untouched)].
Qed.

Lemma untouched_wiring s cfg self :
  keeps untouched (for_each (wiring_of s cfg) (wire_side s self)).
Proof.
  apply (keeps_for_each untouched). intros item.
  eapply keeps_ext; [apply wire_side_wire | apply untouched_wire].
Qed.

(** ** [build] establishes the invariant *)

Lemma build_built cfg self m m' :
  consistent m → self ∈ dom (blocks m) →
  build cfg self m = Return tt m' →
  ∃ sb ds, built cfg self sb ds m' ∧ (∀ b, b ∈ sb :: ds → b ∉ dom (blocks m)) ∧
    (∀ u, u ∈ unit_disjunct cfg → disjunct_members !! local_name u = None).
Proof.
  intros Hc Hself. unfold build, UnitModelBlockData_build.
  intros ([] & ? & [= <-] & H)%bind_Return.
  apply bind_Return in H as (b & m1 & HBlock & H).
  apply bind_Return in H as ([] & m2 & Hset & H).
  destruct (selector_block_assigned self m Hc Hself)
    as (sb & m2' & Hpre & Hsb & Hlay & _ & _ & Hdom2 & _).
  assert (m2' = m2) as ->.
  { assert ((Block ≫= λ b, setattr (this self) "selector_block" b) m = Return tt m2)
      as Heq by (apply bind_Return; eauto). congruence. }
  apply bind_Return in H as ([] & m3 & Hcreate & H).
  destruct (create_unit_disjunct_Return cfg self sb m2 Hlay)
    as (ds & m3' & Hcreate' & Hasm & _ & Hdom3 & Hnew3 & Hpar3 & _).
  assert (m3' = m3) as -> by congruence.
  apply bind_Return in H as ([] & m4 & Hmove & H).
  destruct (add_units_to_disjunct_Return _ _ _ _ _ _ Hasm Hmove)
    as (Hb4 & Hnc & _).
  apply bind_Return in H as (l1 & m5 & Hsb1 & H).
  apply (add_port_state_block_built cfg self sb ds Inlet) in Hsb1; [|done].
  apply bind_Return in H as ([] & m6 & Hs1 & H).
  rewrite (setattr_plain _ self) in Hs1 by done. injection Hs1 as <-.
  apply bind_Return in H as (l2 & m7 & Hsb2 & H).
  apply (add_port_state_block_built cfg self sb ds Outlet) in Hsb2;
    [|by apply built_assigned_self].
  apply bind_Return in H as ([] & m8 & Hs2 & H).
  rewrite (setattr_plain _ self) in Hs2 by done. injection Hs2 as <-.
  apply bind_Return in H as ([] & m9 & Hp1 & H).
  apply (add_port_objects_built cfg self sb ds Inlet) in Hp1;
    [|by apply built_assigned_self].
  apply bind_Return in H as ([] & m10 & Hp2 & H).
  apply (add_port_objects_built cfg self sb ds Outlet) in Hp2; [|done].
  apply bind_Return in H as ([] & m11 & Hw1 & H).
  apply (wiring_built cfg self sb ds Inlet) in Hw1; [|done].
  apply bind_Return in H as ([] & m12 & Hw2 & H).
  apply (wiring_built cfg self sb ds Outlet) in Hw2; [|done].
  injection H as <-.
  exists sb, ds. split_and!.
  - by apply (built_same_store _ _ _ _ m12).
  - intros b' [->|Hb']%elem_of_cons; [done|].
    intros Hin. by apply (Hnew3 _ Hb'), Hdom2.
  - done.
Qed.

(** ** Checking consistency of a given model *)

Definition holds_unit (m : model) (u : unit_model) (p : positive) : bool :=
  match members m p !! local_name u with
  | Some (Unit_ u') => bool_decide (u' = u)
  | _ => false
  end.

Lemma consistent_check m :
  bool_decide (map_Forall (λ u p, holds_unit m u p = true) (parent m)) = true →
  consistent m.
Proof.
  intros H%bool_decide_eq_true u p Hp. specialize (H u p Hp). simpl in H.
  unfold holds_unit in H.
  destruct (members m p !! local_name u) as [[]|]; try done.
  by apply bool_decide_eq_true in H as ->.
Qed.

(** ** Exactly one *)

Lemma xor_exactly_one (indicator : positive → bool) (ds : list positive) :
  length (filter (λ x, active indicator x = true) (Disjunct_ <$> ds)) = 1%nat ↔
  ∃ (i : nat) d, ds !! i = Some d ∧ indicator d = true ∧
    ∀ (j : nat) d', ds !! j = Some d' → indicator d' = true → j = i.
Proof.
  induction ds as [|d ds IH]; simpl.
  - split; [done | by intros (i & d & ? & _)].
  - rewrite filter_cons. simpl. destruct (indicator d) eqn:Hd.
    + rewrite decide_True by done. simpl. split.
      * intros Hlen. exists 0%nat, d. split_and!; [done..|].
        intros [|j] d' Hj Hd'; [done|]. simpl in Hj. exfalso.
        assert (Hin : Disjunct_ d' ∈ filter (λ x, active indicator x = true) (Disjunct_ <$> ds)).
        { apply list_elem_of_filter. split; [done|].
          apply list_elem_of_fmap. exists d'. split; [done|].
          by eapply list_elem_of_lookup_2. }
        destruct (filter _ _); [by apply elem_of_nil in Hin | done].
      * intros (i & d0 & Hi & Hd0 & Huniq).
        assert (i = 0%nat) as -> by (symmetry; by apply (Huniq 0%nat d)).
        f_equal. apply length_zero_iff_nil.
        destruct (filter _ _) as [|c l] eqn:Hf; [done|].
        assert (Hin : c ∈ filter (λ x, active indicator x = true) (Disjunct_ <$> ds))
          by (rewrite Hf; by left).
        apply list_elem_of_filter in Hin as [Hc (d' & -> & Hd')%list_elem_of_fmap].
        apply list_elem_of_lookup_1 in Hd' as [j Hj].
        by specialize (Huniq (S j) d' Hj Hc).
    + rewrite decide_False by done. rewrite IH. split.
      * intros (i & d0 & Hi & Hd0 & Huniq). exists (S i), d0. split_and!; [done..|].
        intros [|j] d' Hj Hd'; simpl in Hj; [congruence|].
        f_equal. by eapply Huniq.
      * intros ([|i] & d0 & Hi & Hd0 & Huniq); simpl in Hi; [congruence|].
        exists i, d0. split_and!; [done..|].
        intros j d' Hj Hd'. by specialize (Huniq (S j) d' Hj Hd') as [= ->].
Qed.

(** * The claims *)

(** What the selector holds for N candidates: [selector_block] holds
    exactly N branches, the disjuncts [unit_disjunct_1] to
    [unit_disjunct_N], and one disjunction over exactly those disjuncts, in
    that order; the disjunction is satisfied exactly when one of the N
    branches is active. *)
Definition branches_and_selection (cfg : config) (self sb : positive)
    (ds : list positive) (m : model) : Prop :=
  members m self !! "selector_block" = Some (Block_ sb) ∧
  length ds = length (unit_disjunct cfg) ∧ NoDup ds ∧
  members m sb = selection_table ds ∧
  (∀ idx, is_Some (members m sb !! unit_disjunct_ idx)
          ↔ 1 ≤ idx ≤ Z.of_nat (length (unit_disjunct cfg))) ∧
  (∀ i : nat, members m sb !! unit_disjunct_ (Z.of_nat i + 1) = Disjunct_ <$> ds !! i) ∧
  members m sb !! "unit_disjunction" = Some (Disjunction_ (Disjunct_ <$> ds)) ∧
  size (members m sb) = S (length (unit_disjunct cfg)) ∧
  (∀ indicator,
     satisfied indicator (Disjunction_ (Disjunct_ <$> ds)) ↔
     ∃ (i : nat) d, ds !! i = Some d ∧ indicator d = true ∧
       ∀ (j : nat) d', ds !! j = Some d' → indicator d' = true → j = i).

Lemma selection_structure cfg self sb ds m :
  members m self !! "selector_block" = Some (Block_ sb) →
  members m sb = selection_table ds →
  length ds = length (unit_disjunct cfg) → NoDup ds →
  branches_and_selection cfg self sb ds m.
Proof.
  intros Hsel Htab Hn Hnd. unfold branches_and_selection.
  rewrite Htab, <-Hn. split_and!; try done.
  - apply selection_table_range.
  - apply selection_table_branch.
  - apply selection_table_disjunction.
  - apply selection_table_size.
  - intros indicator. apply xor_exactly_one.
Qed.

(** [C1] For N candidates, the first statements of [build], up to
    [create_unit_disjunct], complete, and leave under [selector_block]
    exactly N branches and one disjunction over exactly those, satisfied
    exactly when one of the N branches is active; and whenever [build]
    completes, that is what the selector holds. The count N may be any,
    also 1 and more. *)
Theorem build_creates_branches_and_selection (cfg : config) (self : positive)
    (m : model) :
  consistent m → self ∈ dom (blocks m) →
  (∃ m1 sb ds,
     (UnitModelBlockData_build cfg self ;;
      b ← Block;
      setattr (this self) "selector_block" b ;;
      create_unit_disjunct cfg self) m = Return tt m1 ∧
     branches_and_selection cfg self sb ds m1) ∧
  (∀ m', build cfg self m = Return tt m' →
     ∃ sb ds, branches_and_selection cfg self sb ds m').
Proof.
  intros Hc Hself. split.
  - destruct (selector_block_assigned self m Hc Hself)
      as (sb & m0 & Hassign & _ & Hlay & _).
    destruct (create_unit_disjunct_Return cfg self sb m0 Hlay)
      as (ds & m1 & Hcreate & [_ [Hsel Htab Hnd _] Hn _] & _).
    exists m1, sb, ds. split.
    + apply bind_Return. exists tt, m. split; [done|].
      apply bind_Return in Hassign as (b & mb & Hb & Hset).
      apply bind_Return. exists b, mb. split; [done|].
      apply bind_Return. exists tt, m0. by split.
    + apply selection_structure; [done..|].
      by apply NoDup_cons in Hnd as [_ [_ ?]%NoDup_cons].
  - intros m' Hbuild.
    destruct (build_built _ _ _ _ Hc Hself Hbuild) as (sb & ds & Hb & _ & _).
    destruct (built_distinct _ _ _ _ _ Hb) as (_ & _ & _ & Hnd).
    destruct Hb as [_ [Hsel Htab _ _] Hn _].
    exists sb, ds. by apply selection_structure.
Qed.

(** * Initialization *)



Lemma for_each_cons {X} (x : X) (xs : list X) (body : X → M unit) m :
  for_each (x :: xs) body m =
  match body x m with
  | Return _ m1 => for_each xs body m1
  | Raise e m1 => Raise e m1
  end.
Proof. done. Qed.

Lemma for_each_app {X} (xs ys : list X) (body : X → M unit) m :
  for_each (xs ++ ys) body m =
  match for_each xs body m with
  | Return _ m1 => for_each ys body m1
  | Raise e m1 => Raise e m1
  end.
Proof.
  revert m. induction xs as [|x xs IH]; intros m; simpl; [done|].
  unfold mbind, M_bind, bind. destruct (body x m) as [[] m1|e m1]; [apply IH|done].
Qed.

Lemma enumerate_from_app {X} (start : Z) (xs ys : list X) :
  enumerate_from start (xs ++ ys)
  = enumerate_from start xs ++ enumerate_from (start + Z.of_nat (length xs)) ys.
Proof.
  revert start. induction xs as [|x xs IH]; intros start; simpl.
  - by rewrite Z.add_0_r.
  - rewrite IH. do 3 f_equal. lia.
Qed.

(** What [initialize] records while its rounds go well: for every candidate, the
    propagation along its branch's inlet edge and then the call of its
    own [initialize]. *)
Definition rounds (options : kwargs) (us : list unit_model)
    (ends : list (port_obj * port_obj)) : list event :=
  concat (zip_with (λ u e, [EvPropagate e.1 e.2; EvInitialize u options]) us ends).


Section Initialize.

Variable unit_initialize :
  unit_model → kwargs → gmap port_obj Z → gmap port_obj Z + exn.

(** One round of [initialize], once the branch is found. *)
Lemma initialize_unit_eq sb (i : nat) d u options m :
  members m sb !! unit_disjunct_ (Z.of_nat i + 1) = Some (Disjunct_ d) →
  initialize_unit unit_initialize (Block_ sb) options (Z.of_nat i, u) m =
  match members m d !! local_name u with
  | None => Raise (AttributeError (local_name u)) m
  | Some unit_block =>
      match members m d !! inlet_to_unit_arc_ (Z.of_nat i + 1) with
      | None => Raise (AttributeError (inlet_to_unit_arc_ (Z.of_nat i + 1))) m
      | Some inlet_arc =>
          match propagate_state inlet_arc m with
          | Raise e m1 => Raise e m1
          | Return _ m1 =>
              match call_initialize unit_initialize unit_block options m1 with
              | Raise e m2 => Raise e m2
              | Return _ m2 =>
                  match members m2 d !! unit_to_outlet_arc_ (Z.of_nat i + 1) with
                  | None =>
                      Raise (AttributeError (unit_to_outlet_arc_ (Z.of_nat i + 1))) m2
                  | Some _ => Return tt m2
                  end
              end
          end
      end
  end.
Proof.
  intros Hd. unfold initialize_unit, mbind at 1 2 3, M_bind, bind.
  rewrite (getattr_found _ sb _ (Disjunct_ d)) by done.
  unfold getattr at 1. simpl.
  destruct (members m d !! local_name u) as [c|]; [|done].
  unfold getattr at 1. simpl.
  destruct (members m d !! inlet_to_unit_arc_ _) as [arc|]; [|done].
  unfold mbind, M_bind, bind.
  destruct (propagate_state arc m) as [[] m1|]; [|done].
  destruct (call_initialize _ c options m1) as [[] m2|]; [|done].
  unfold getattr. simpl. by destruct (members m2 d !! unit_to_outlet_arc_ _).
Qed.

(** The model after propagating along an edge from [src] to [dst]. *)
Definition propagated (src dst : port_obj) (m : model) : model :=
  record (EvPropagate src dst)
    (set_values (partial_alter (λ _, values m !! src) dst (values m)) m).

Lemma propagate_state_Return src dst m :
  is_Some (values m !! src) →
  propagate_state (Arc_ (Port_ src) (Port_ dst)) m
  = Return tt (propagated src dst m).
Proof.
  intros [v Hv]. unfold propagated. simpl. rewrite Hv. done.
Qed.

Lemma propagate_state_cases arc m :
  (∃ src dst, arc = Arc_ (Port_ src) (Port_ dst) ∧
     ((is_Some (values m !! src) ∧
       propagate_state arc m = Return tt (propagated src dst m))
      ∨ (values m !! src = None ∧
         propagate_state arc m = Raise ValueError m)))
  ∨ ((∀ src dst, arc ≠ Arc_ (Port_ src) (Port_ dst)) ∧
     propagate_state arc m = Raise TypeError m).
Proof.
  destruct arc as [| | | |a b| | | | |]; try by right.
  destruct a as [| | | | | |src| | |]; try by right.
  destruct b as [| | | | | |dst| | |]; try by right.
  left. exists src, dst. split; [done|].
  destruct (values m !! src) as [v|] eqn:Hv.
  - left. split; [by eexists|]. apply propagate_state_Return. by rewrite Hv.
  - right. split; [done|]. simpl. by rewrite Hv.
Qed.

(** The model when a candidate's [initialize] has been entered. *)
Definition entered (u : unit_model) (options : kwargs) (m : model) : model :=
  record (EvInitialize u options) m.

Lemma call_initialize_cases c options m :
  (∃ u, c = Unit_ u ∧
     ((∃ v, unit_initialize u options (values m) = inl v ∧
            call_initialize unit_initialize c options m
            = Return tt (set_values v (entered u options m)))
      ∨ (∃ e, unit_initialize u options (values m) = inr e ∧
              call_initialize unit_initialize c options m
              = Raise e (entered u options m))))
  ∨ ((∀ u, c ≠ Unit_ u) ∧
     call_initialize unit_initialize c options m
     = Raise (AttributeError "initialize") m).
Proof.
  destruct c as [| | |u| | | | | |]; try by right.
  left. exists u. split; [done|]. simpl.
  destruct (unit_initialize u options (values m)) as [v|e] eqn:E; eauto.
Qed.

(** The eight ways one round of [initialize] can go, for candidate [u] in
    branch [d] with index [idx], from model [m]. In a built selector the
    member under the candidate's name is the candidate, and the inlet edge
    ends at a candidate's connection point. *)
Inductive round_outcome (m : model) (d : positive) (idx : Z) (u : unit_model)
    (options : kwargs) : outcome unit → Prop :=
| round_no_unit :
    members m d !! local_name u = None →
    round_outcome m d idx u options (Raise (AttributeError (local_name u)) m)
| round_no_inlet c :
    members m d !! local_name u = Some c →
    members m d !! inlet_to_unit_arc_ idx = None →
    round_outcome m d idx u options (Raise (AttributeError (inlet_to_unit_arc_ idx)) m)
| round_no_edge c arc :
    members m d !! local_name u = Some c →
    members m d !! inlet_to_unit_arc_ idx = Some arc →
    (∀ src dst, arc ≠ Arc_ (Port_ src) (Port_ dst)) →
    round_outcome m d idx u options (Raise TypeError m)
| round_no_value c src p :
    members m d !! local_name u = Some c →
    members m d !! inlet_to_unit_arc_ idx
      = Some (Arc_ (Port_ src) (Port_ (CandidatePort p))) →
    values m !! src = None →
    round_outcome m d idx u options (Raise ValueError m)
| round_no_method c src p :
    members m d !! local_name u = Some c →
    members m d !! inlet_to_unit_arc_ idx
      = Some (Arc_ (Port_ src) (Port_ (CandidatePort p))) →
    is_Some (values m !! src) →
    (∀ u', c ≠ Unit_ u') →
    round_outcome m d idx u options
      (Raise (AttributeError "initialize") (propagated src (CandidatePort p) m))
| round_candidate_raises src p e :
    members m d !! local_name u = Some (Unit_ u) →
    members m d !! inlet_to_unit_arc_ idx
      = Some (Arc_ (Port_ src) (Port_ (CandidatePort p))) →
    is_Some (values m !! src) →
    unit_initialize u options (values (propagated src (CandidatePort p) m)) = inr e →
    round_outcome m d idx u options
      (Raise e (entered u options (propagated src (CandidatePort p) m)))
| round_no_outlet src p v :
    members m d !! local_name u = Some (Unit_ u) →
    members m d !! inlet_to_unit_arc_ idx
      = Some (Arc_ (Port_ src) (Port_ (CandidatePort p))) →
    is_Some (values m !! src) →
    unit_initialize u options (values (propagated src (CandidatePort p) m)) = inl v →
    members m d !! unit_to_outlet_arc_ idx = None →
    round_outcome m d idx u options
      (Raise (AttributeError (unit_to_outlet_arc_ idx))
         (set_values v (entered u options (propagated src (CandidatePort p) m))))
| round_completes src p v :
    members m d !! local_name u = Some (Unit_ u) →
    members m d !! inlet_to_unit_arc_ idx
      = Some (Arc_ (Port_ src) (Port_ (CandidatePort p))) →
    is_Some (values m !! src) →
    unit_initialize u options (values (propagated src (CandidatePort p) m)) = inl v →
    is_Some (members m d !! unit_to_outlet_arc_ idx) →
    round_outcome m d idx u options
      (Return tt (set_values v (entered u options (propagated src (CandidatePort p) m)))).

Lemma initialize_unit_outcome cfg self sb ds options (i : nat) u d m :
  built cfg self sb ds m →
  unit_disjunct cfg !! i = Some u → ds !! i = Some d →
  round_outcome m d (Z.of_nat i + 1) u options
    (initialize_unit unit_initialize (Block_ sb) options (Z.of_nat i, u) m).
Proof.
  intros Hb Hu Hd. pose proof Hb as [_ [Hsel Htab _ _] _ Hok].
  rewrite (initialize_unit_eq sb i d)
    by (by rewrite Htab, selection_table_branch, Hd).
  destruct (members m d !! local_name u) as [c|] eqn:Hc; [|by constructor].
  destruct (members m d !! inlet_to_unit_arc_ _) as [arc|] eqn:Harc;
    [|by econstructor].
  destruct (propagate_state_cases arc m)
    as [(src & dst & -> & [[Hval ->] | [Hval ->]]) | [Hno ->]].
  3:{ by eapply round_no_edge. }
  2:{ destruct (Hok _ _ _ _ Hd Harc) as [p Hp]; [by eexists|].
      injection Hp as ->. by eapply round_no_value. }
  destruct (Hok _ _ _ _ Hd Harc) as [p Hp]; [by eexists|].
  injection Hp as ->.
  destruct (call_initialize_cases c options (propagated src (CandidatePort p) m))
    as [(u' & -> & Hcall) | [Hnot ->]].
  2:{ by eapply round_no_method. }
  destruct (Hok _ _ _ _ Hd Hc) as [Hu' _].
  assert (u' = u) as -> by congruence.
  destruct Hcall as [(v & Hv & ->) | (e & He & ->)].
  - change (members (set_values v (entered u options (propagated src (CandidatePort p) m))) d)
      with (members m d).
    destruct (members m d !! unit_to_outlet_arc_ _) eqn:Hout.
    + by eapply round_completes.
    + by eapply round_no_outlet.
  - by eapply round_candidate_raises.
Qed.

(** The loop of [initialize] from branch [c + 1] on: rounds that complete,
    possibly ended by one that raises. *)
Inductive loop_outcome (ds : list positive) (options : kwargs) :
    model → nat → list unit_model → outcome unit → Prop :=
| loop_done m c :
    loop_outcome ds options m c [] (Return tt m)
| loop_stop m c u us d e m' :
    ds !! c = Some d →
    round_outcome m d (Z.of_nat c + 1) u options (Raise e m') →
    loop_outcome ds options m c (u :: us) (Raise e m')
| loop_next m c u us d m1 o :
    ds !! c = Some d →
    round_outcome m d (Z.of_nat c + 1) u options (Return tt m1) →
    loop_outcome ds options m1 (S c) us o →
    loop_outcome ds options m c (u :: us) o.

Lemma round_outcome_same_store m d idx u options o :
  round_outcome m d idx u options o →
  blocks (final o) = blocks m ∧ parent (final o) = parent m.
Proof. by intros []. Qed.

Lemma initialize_loop_outcome cfg self sb ds options (c : nat) us m :
  built cfg self sb ds m → drop c (unit_disjunct cfg) = us →
  loop_outcome ds options m c us
    (for_each (enumerate_from (Z.of_nat c) us)
       (initialize_unit unit_initialize (Block_ sb) options) m).
Proof.
  revert c m. induction us as [|u us IH]; intros c m Hb Hus.
  - constructor.
  - assert (Hu : unit_disjunct cfg !! c = Some u).
    { pose proof (lookup_drop (unit_disjunct cfg) c 0) as H.
      by rewrite Hus, Nat.add_0_r in H. }
    assert (Hus' : drop (S c) (unit_disjunct cfg) = us).
    { replace (S c) with (c + 1)%nat by lia. by rewrite <-drop_drop, Hus. }
    destruct (lookup_lt_is_Some_2 ds c) as [d Hd].
    { rewrite (built_count _ _ _ _ _ Hb). by eapply lookup_lt_Some. }
    cbn [enumerate_from].
    pose proof (initialize_unit_outcome cfg self sb ds options c u d m Hb Hu Hd) as Hround.
    rewrite for_each_cons.
    destruct (initialize_unit _ _ _ _ m) as [[] m1|e m1] eqn:Hstep.
    + eapply loop_next; [done..|].
      replace (Z.of_nat c + 1) with (Z.of_nat (S c)) by lia.
      apply IH; [|done].
      destruct (round_outcome_same_store _ _ _ _ _ _ Hround).
      by eapply built_same_store.
    + by eapply loop_stop.
Qed.

Lemma initialize_outcome cfg self sb ds options m :
  built cfg self sb ds m →
  loop_outcome ds options m 0 (unit_disjunct cfg)
    (initialize cfg self unit_initialize options m).
Proof.
  intros Hb. unfold initialize, mbind at 1, M_bind, bind.
  rewrite (getattr_found _ self _ (Block_ sb)); [|done|apply Hb].
  by apply (initialize_loop_outcome cfg self sb ds options 0).
Qed.




(** When the loop completes, every branch it went through has both edges;
    an exception of the loop itself is an [AttributeError], a [TypeError]
    if the member under an inlet edge's name is no edge, or the
    [ValueError] of a propagation from a port without a value. *)
Lemma loop_outcome_edges ds options m c us o :
  loop_outcome ds options m c us o →
  (raised o = None →
   ∀ (i : nat) d, (c ≤ i < c + length us)%nat → ds !! i = Some d →
     is_Some (members m d !! inlet_to_unit_arc_ (Z.of_nat i + 1)) ∧
     is_Some (members m d !! unit_to_outlet_arc_ (Z.of_nat i + 1))) ∧
  (∀ e, raised o = Some e →
     (∃ n, e = AttributeError n) ∨ e = TypeError ∨ e = ValueError
     ∨ ∃ u v, unit_initialize u options v = inr e).
Proof.
  induction 1 as [m c | m c u us d e m' Hd Hr | m c u us d m1 o Hd Hr Hloop IH].
  - split; [|done]. intros _ i d Hi. simpl in Hi. lia.
  - split; [done|]. intros e' [= <-].
    inversion Hr; subst; eauto 10.
  - destruct IH as [Hall Herr]. split; [|done].
    intros Hret i di Hi Hdi.
    assert (Hsame : blocks m1 = blocks m)
      by by apply round_outcome_same_store in Hr as [? _].
    assert (Hmem : ∀ b, members m1 b = members m b)
      by (intros b; unfold members; by rewrite Hsame).
    destruct (decide (i = c)) as [->|Hne].
    + assert (di = d) as -> by congruence.
      inversion Hr as [| | | | | | |src p v ? Harc ? Hv Hout]; subst.
      split; [by rewrite Harc | done].
    + rewrite <-!Hmem. apply Hall; [done| |done]. simpl in Hi. lia.
Qed.

(** ** Rounds that go well *)

(** One round on a branch that holds its candidate and an inlet edge
    whose source has a value: the state is propagated, the candidate's
    [initialize] is entered, and what it returns decides. *)
Lemma initialize_unit_ready sb (i : nat) d u src dst options m :
  members m sb !! unit_disjunct_ (Z.of_nat i + 1) = Some (Disjunct_ d) →
  members m d !! local_name u = Some (Unit_ u) →
  members m d !! inlet_to_unit_arc_ (Z.of_nat i + 1)
    = Some (Arc_ (Port_ src) (Port_ dst)) →
  is_Some (values m !! src) →
  initialize_unit unit_initialize (Block_ sb) options (Z.of_nat i, u) m =
  match unit_initialize u options (values (propagated src dst m)) with
  | inr e => Raise e (entered u options (propagated src dst m))
  | inl v =>
      match members m d !! unit_to_outlet_arc_ (Z.of_nat i + 1) with
      | None =>
          Raise (AttributeError (unit_to_outlet_arc_ (Z.of_nat i + 1)))
            (set_values v (entered u options (propagated src dst m)))
      | Some _ => Return tt (set_values v (entered u options (propagated src dst m)))
      end
  end.
Proof.
  intros Hd Hunit Hin Hval.
  rewrite (initialize_unit_eq sb i d u options m Hd), Hunit, Hin.
  rewrite (propagate_state_Return src dst m Hval).
  destruct (call_initialize_cases (Unit_ u) options (propagated src dst m))
    as [(u' & [= <-] & [(v & Hv & ->) | (e & He & ->)]) | [Hne _]].
  - rewrite Hv.
    change (members (set_values v (entered u options (propagated src dst m))) d)
      with (members m d).
    by destruct (members m d !! unit_to_outlet_arc_ _).
  - by rewrite He.
  - by destruct (Hne u).
Qed.

Lemma propagated_keeps_values src dst p m :
  is_Some (values m !! src) → is_Some (values m !! p) →
  is_Some (values (propagated src dst m) !! p).
Proof.
  intros Hsrc Hp. simpl. rewrite lookup_partial_alter. by case_decide.
Qed.

(** The first [n] rounds, on branches that are ready and with candidates
    whose [initialize] succeeds and leaves the ports in [P], the sources
    among them, their values. *)
Lemma initialize_loop_reaches (P : port_obj → Prop) sb options (c : nat) us ds
    ends m (n : nat) :
  length ds = length us → length ends = length us →
  (∀ (j : nat) u d e, us !! j = Some u → ds !! j = Some d → ends !! j = Some e →
     members m sb !! unit_disjunct_ (Z.of_nat (c + j) + 1) = Some (Disjunct_ d) ∧
     members m d !! local_name u = Some (Unit_ u) ∧
     members m d !! inlet_to_unit_arc_ (Z.of_nat (c + j) + 1)
       = Some (Arc_ (Port_ e.1) (Port_ e.2)) ∧
     is_Some (members m d !! unit_to_outlet_arc_ (Z.of_nat (c + j) + 1))) →
  (∀ e, e ∈ ends → P e.1) →
  (∀ p, P p → is_Some (values m !! p)) →
  (∀ u v v' p, P p → unit_initialize u options v = inl v' →
               is_Some (v !! p) → is_Some (v' !! p)) →
  (∀ (j : nat) u v, (j < n)%nat → us !! j = Some u →
     ∃ v', unit_initialize u options v = inl v') →
  ∃ mn,
    for_each (take n (enumerate_from (Z.of_nat c) us))
      (initialize_unit unit_initialize (Block_ sb) options) m = Return tt mn ∧
    blocks mn = blocks m ∧ parent mn = parent m ∧
    trace mn = trace m ++ rounds options (take n us) (take n ends) ∧
    (∀ p, P p → is_Some (values mn !! p)).
Proof.
  revert c ds ends m n.
  induction us as [|u us IH];
    intros c ds ends m n Hds Hends Hbranch Hsrcs Hval Hkeep Hok.
  - exists m. simpl. rewrite !take_nil. unfold rounds. simpl.
    rewrite app_nil_r. by split_and!.
  - destruct n as [|n].
    { exists m. unfold rounds. simpl. rewrite app_nil_r. by split_and!. }
    destruct ds as [|d ds]; [done|]. destruct ends as [|[src dst] ends]; [done|].
    destruct (Hbranch 0%nat u d (src, dst) eq_refl eq_refl eq_refl)
      as (Hd & Hunit & Hin & [o Hout]).
    rewrite Nat.add_0_r in Hd, Hin, Hout. simpl in Hin.
    assert (Hsrc : is_Some (values m !! src)).
    { apply Hval. apply (Hsrcs (src, dst)). by left. }
    destruct (Hok 0%nat u (values (propagated src dst m))) as [v' Hv'];
      [lia | done |].
    set (m2 := set_values v' (entered u options (propagated src dst m))).
    assert (Hround : initialize_unit unit_initialize (Block_ sb) options
                       (Z.of_nat c, u) m = Return tt m2).
    { rewrite (initialize_unit_ready sb c d u src dst options m Hd Hunit Hin Hsrc).
      by rewrite Hv', Hout. }
    destruct (IH (S c) ds ends m2 n)
      as (m' & Hloop & Hblocks & Hparent & Htrace & Hval').
    + simpl in Hds. lia.
    + simpl in Hends. lia.
    + intros j u' d' e' Hu' Hd' He'.
      replace (S c + j)%nat with (c + S j)%nat by lia.
      apply (Hbranch (S j) u' d' e' Hu' Hd' He').
    + intros e He. apply Hsrcs. by right.
    + intros p Hp. apply (Hkeep u _ v' p Hp Hv').
      apply propagated_keeps_values; [done | by apply Hval].
    + done.
    + intros j u' v Hj Hu'. apply (Hok (S j)); [lia | done].
    + exists m'. split_and!.
      * cbn [enumerate_from take]. rewrite for_each_cons, Hround.
        by replace (Z.of_nat c + 1) with (Z.of_nat (S c)) by lia.
      * by rewrite Hblocks.
      * by rewrite Hparent.
      * rewrite Htrace. unfold rounds. simpl. by rewrite <-!app_assoc.
      * done.
Qed.

Lemma length_enumerate_from {X} (start : Z) (xs : list X) :
  length (enumerate_from start xs) = length xs.
Proof. revert start. induction xs; intros start; simpl; [done | by rewrite IHxs]. Qed.

Lemma lookup_enumerate_from {X} (start : Z) (xs : list X) (i : nat) :
  enumerate_from start xs !! i = (λ x, (start + Z.of_nat i, x)) <$> xs !! i.
Proof.
  revert start i. induction xs as [|x xs IH]; intros start [|i]; simpl; try done.
  - by rewrite Z.add_0_r.
  - rewrite IH. destruct (xs !! i); simpl; [|done]. do 2 f_equal. lia.
Qed.

(** [initialize] ends where the first round that raises ends. *)
Lemma initialize_stops cfg self sb options (i : nat) u m mi e m' :
  members m self !! "selector_block" = Some (Block_ sb) →
  unit_disjunct cfg !! i = Some u →
  for_each (take i (enumerate (unit_disjunct cfg)))
    (initialize_unit unit_initialize (Block_ sb) options) m = Return tt mi →
  initialize_unit unit_initialize (Block_ sb) options (Z.of_nat i, u) mi = Raise e m' →
  initialize cfg self unit_initialize options m = Raise e m'.
Proof.
  intros Hsel Hu Hreach Hround. unfold initialize, mbind at 1, M_bind, bind.
  rewrite (getattr_found (this self) self _ _ _ eq_refl Hsel).
  rewrite <-(take_drop i (enumerate (unit_disjunct cfg))), for_each_app, Hreach.
  rewrite (drop_S _ (Z.of_nat i, u)).
  - rewrite for_each_cons. by rewrite Hround.
  - unfold enumerate. rewrite lookup_enumerate_from, Hu. simpl. do 2 f_equal.
Qed.

(** [initialize] completes when all its rounds do. *)
Lemma initialize_returns cfg self sb options m m' :
  members m self !! "selector_block" = Some (Block_ sb) →
  for_each (take (length (unit_disjunct cfg)) (enumerate (unit_disjunct cfg)))
    (initialize_unit unit_initialize (Block_ sb) options) m = Return tt m' →
  initialize cfg self unit_initialize options m = Return tt m'.
Proof.
  intros Hsel Hloop. unfold initialize, mbind at 1, M_bind, bind.
  rewrite (getattr_found (this self) self _ _ _ eq_refl Hsel).
  rewrite take_ge in Hloop; [done|].
  unfold enumerate. by rewrite length_enumerate_from.
Qed.

End Initialize.




(** * The exceptions [build] can raise *)

(** Python's own exceptions, as opposed to the ones IDAES defines. *)
Definition builtin (e : exn) : Prop :=
  match e with
  | AttributeError _ | IndexError | RuntimeError _ | ValueError | TypeError => True
  | _ => False
  end.

(** [c] raises nothing but Python's own exceptions. *)
Definition safe {A} (c : M A) : Prop := ∀ m e m', c m = Raise e m' → builtin e.

Lemma safe_ret {A} (a : A) : safe (mret a).
Proof. by intros m e m'. Qed.

Lemma safe_raise {A} e : builtin e → safe (raise (A:=A) e).
Proof. by intros He m e' m' [= <- _]. Qed.

Lemma safe_bind {A B} (c : M A) (k : A → M B) :
  safe c → (∀ a, safe (k a)) → safe (c ≫= k).
Proof.
  intros Hc Hk m e m' [H | (a & m1 & _ & H)]%bind_Raise.
  - by eapply Hc.
  - by eapply Hk.
Qed.



Lemma safe_getattr c n : safe (getattr c n).
Proof. intros m e m' (_ & -> & _)%getattr_Raise. done. Qed.

Lemma safe_add_component blk n v : safe (add_component blk n v).
Proof.
  intros m e m' [_ [[-> _] | [[-> _] | [-> _]]]]%add_component_Raise; done.
Qed.

Lemma safe_del_component blk n : safe (del_component blk n).
Proof. intros m e m'. unfold del_component. by destruct (block_of blk); intros [= <- _]. Qed.

Lemma safe_setattr blk n v : safe (setattr blk n v).
Proof.
  intros m e m'. unfold setattr. destruct (block_of blk) as [b|] eqn:Hb.
  - destruct (members m b !! n).
    + apply safe_bind; [apply safe_del_component | intros _; apply safe_add_component].
    + apply safe_add_component.
  - by intros [= <- _].
Qed.

Lemma safe_allocate ms : safe (allocate ms).
Proof. by intros m e m'. Qed.






Lemma safe_state_block_loop self t doc args names acc :
  safe (state_block_loop self t doc args names acc).
Proof.
  revert acc. induction names as [|p names IH]; intros acc; simpl; [apply safe_ret|].
  apply safe_bind.
  { apply safe_bind; [apply safe_allocate | intros b; apply safe_ret]. }
  intros c. apply safe_bind; [apply safe_setattr | intros _].
  apply safe_bind; [apply safe_getattr | intros x]. apply IH.
Qed.

Lemma safe_add_port_state_block self unit_type names is_inlet :
  safe (add_port_state_block self unit_type names is_inlet).
Proof.
  unfold add_port_state_block. destruct unit_type.
  - apply safe_state_block_loop.
  - by apply safe_raise.
Qed.














Lemma port_name_not_state s s' k j : port_name_of s k ≠ state_ (port_name_of s' j).
Proof. destruct s, s'; simpl; names_differ. Qed.

Lemma selector_inlet_block_not_state s k :
  "selector_inlet_block" ≠ state_ (port_name_of s k).
Proof. destruct s; simpl; names_differ. Qed.

Lemma selector_outlet_block_not_state s k :
  "selector_outlet_block" ≠ state_ (port_name_of s k).
Proof. destruct s; simpl; names_differ. Qed.


(** * Examples *)

(** A flowsheet, block 1, with three reactors, and a new selector, block 2. *)
Definition R1 : unit_model := UnitModel 1 "R1".
Definition R2 : unit_model := UnitModel 2 "R2".
Definition R3 : unit_model := UnitModel 3 "R3".

(** Some of the attribute names of a new disjunct. *)
Definition disjunct_attributes : gset string :=
  {[ "_transformation_block"; "transformation_block"; "activate"; "deactivate" ]}.

Definition flowsheet : model :=
  Model
    (<[1%positive := <["R1" := Unit_ R1]> (<["R2" := Unit_ R2]> (<["R3" := Unit_ R3]> ∅))]>
       (<[2%positive := ∅]> ∅))
    (<[R1 := 1%positive]> (<[R2 := 1%positive]> (<[R3 := 1%positive]> ∅)))
    ∅ [] disjunct_attributes.

Definition properties : template := Template 9 ∅.

Definition inlet_of (u : unit_model) : conn_point := ConnPoint (unit_id u) "inlet".
Definition outlet_of (u : unit_model) : conn_point := ConnPoint (unit_id u) "outlet".

(** Two candidates on one inlet and one outlet, each fanned out to both. *)
Definition two_reactors : config :=
  Config False_ False_ [R1; R2] (Some properties) (Some properties)
    [(1, [inlet_of R1; inlet_of R2])] [(1, [outlet_of R1; outlet_of R2])]
    None true.


(** One candidate and no edge at all. *)
Definition unwired : config :=
  Config False_ False_ [R1] (Some properties) (Some properties) [] [] None true.


(** One candidate, two inlet indices with lists of length two. *)
Definition one_reactor_two_long_lists : config :=
  Config False_ False_ [R1] (Some properties) (Some properties)
    [(1, [inlet_of R1; inlet_of R2]); (2, [inlet_of R1; inlet_of R2])] []
    None true.

(** Two candidates, two inlet indices with lists of length two. *)
Definition two_reactors_two_long_lists : config :=
  Config False_ False_ [R1; R2] (Some properties) (Some properties)
    [(1, [inlet_of R1; inlet_of R2]); (2, [inlet_of R1; inlet_of R2])] []
    None true.


(** A candidate named like another attribute of a disjunct. *)
Definition Rt : unit_model := UnitModel 5 "_transformation_block".
Definition flowsheet_t : model :=
  Model (<[1%positive := <["_transformation_block" := Unit_ Rt]> ∅]>
           (<[2%positive := ∅]> ∅))
        (<[Rt := 1%positive]> ∅) ∅ [] disjunct_attributes.
Definition reserved_name : config :=
  Config False_ False_ [Rt] (Some properties) (Some properties) [] [] None true.

(** Candidates whose [initialize] changes nothing; and the same, but with
    a second reactor that cannot be initialized. *)
Definition inert (u : unit_model) (options : kwargs) (v : gmap port_obj Z)
    : gmap port_obj Z + exn := inl v.

(** [build] up to the point where wiring starts. *)
Definition build_up_to_wiring (cfg : config) (self : positive) : M unit :=
  b ← Block;
  setattr (this self) "selector_block" b ;;
  create_unit_disjunct cfg self ;;
  add_units_to_disjunct cfg self ;;
  l ← add_port_state_block self (unit_source cfg) (create_inlet_list cfg) true;
  setattr (this self) "selector_inlet_block" (List_ l) ;;
  l ← add_port_state_block self (unit_sink cfg) (create_outlet_list cfg) false;
  setattr (this self) "selector_outlet_block" (List_ l) ;;
  add_port_objects cfg self (create_inlet_list cfg) true ;;
  add_port_objects cfg self (create_outlet_list cfg) false.

Definition two_reactors_unwired : model :=
  final (build_up_to_wiring two_reactors 2 flowsheet).

Definition two_reactors_built : model := final (build two_reactors 2 flowsheet).

(** The two reactors' selector once its inlet port has been given a
    value. *)
Definition two_reactors_ready : model :=
  set_values (<[SelectorPort 6 := 300]> ∅) two_reactors_built.

(** The two reactors' selector with its branches, before relocation. *)
Definition two_reactors_assembled : model :=
  final ((b ← Block;
          setattr (this 2) "selector_block" b ;;
          create_unit_disjunct two_reactors 2) flowsheet).

Lemma flowsheet_consistent : consistent flowsheet.
Proof. apply consistent_check. by vm_compute. Qed.

Lemma flowsheet_selector : 2%positive ∈ dom (blocks flowsheet).
Proof. apply elem_of_dom. by eexists; vm_compute. Qed.

(** * The claims, continued *)

(** A computation that raises nothing returns the model it ends in. *)
Lemma returns_final (o : outcome unit) : raised o = None → o = Return tt (final o).
Proof. by destruct o as [[] m|]. Qed.

(** Two configurations that agree on every option but [mixed_state_block]. *)
Definition same_but_mixed_state_block (c1 c2 : config) : Prop :=
  dynamic c1 = dynamic c2 ∧ has_holdup c1 = has_holdup c2 ∧
  unit_disjunct c1 = unit_disjunct c2 ∧
  unit_source c1 = unit_source c2 ∧ unit_sink c1 = unit_sink c2 ∧
  unit_disjunct_inlet c1 = unit_disjunct_inlet c2 ∧
  unit_disjunct_outlet c1 = unit_disjunct_outlet c2 ∧
  construct_ports c1 = construct_ports c2.

(** [C9] [build] never consults [mixed_state_block]: two configurations
    that differ in that option alone are built into the same model, with
    the same outcome, from any model. *)
Theorem mixed_state_block_is_ignored (cfg1 cfg2 : config) (self : positive)
    (m : model) :
  same_but_mixed_state_block cfg1 cfg2 →
  build cfg1 self m = build cfg2 self m.
Proof.
  destruct cfg1, cfg2. unfold same_but_mixed_state_block. simpl.
  intros (-> & -> & -> & -> & -> & -> & -> & ->). reflexivity.
Qed.

Lemma mixed_state_block_is_ignored_witness :
  same_but_mixed_state_block two_reactors
    (Config False_ False_ [R1; R2] (Some properties) (Some properties)
       [(1, [inlet_of R1; inlet_of R2])] [(1, [outlet_of R1; outlet_of R2])]
       (Some 7%positive) true) ∧
  build two_reactors 2 flowsheet
  = build (Config False_ False_ [R1; R2] (Some properties) (Some properties)
             [(1, [inlet_of R1; inlet_of R2])] [(1, [outlet_of R1; outlet_of R2])]
             (Some 7%positive) true) 2 flowsheet.
Proof.
  assert (H : same_but_mixed_state_block two_reactors
    (Config False_ False_ [R1; R2] (Some properties) (Some properties)
       [(1, [inlet_of R1; inlet_of R2])] [(1, [outlet_of R1; outlet_of R2])]
       (Some 7%positive) true)).
  { unfold same_but_mixed_state_block. simpl. repeat split. }
  split; [exact H|]. apply (mixed_state_block_is_ignored _ _ 2 flowsheet H).
Defined.

(** ** Candidates that collide, and no candidate at all *)

(** A selector that was not built before keeps every parent pointer while
    [selector_block] is created. *)
Lemma selector_block_assigned_new self m :
  consistent m → self ∈ dom (blocks m) →
  members m self !! "selector_block" = None →
  ∃ sb m',
    (Block ≫= λ b, setattr (this self) "selector_block" b) m = Return tt m' ∧
    laying_out self sb [] m' ∧
    dom (blocks m) ⊆ dom (blocks m') ∧
    (∀ b, b ∈ dom (blocks m) → b ≠ self → members m' b = members m b) ∧
    parent m' = parent m ∧
    (∀ n, n ≠ "selector_block" → members m' self !! n = members m self !! n).
Proof.
  intros Hc Hself Hnew.
  destruct (selector_block_assigned self m Hc Hself)
    as (sb & m' & Hrun & Hsb & Hlay & Hfr & Hnames & Hdom & _).
  exists sb, m'. split_and!; try done.
  - intros b Hb Hne. apply Hfr; [done|]. by intros ->.
  - apply bind_Return in Hrun as (b & m1 & HB & Hset).
    apply bind_Return in HB as (b' & m0 & Hal & [= <- <-]).
    apply allocate_Return in Hal as [-> ->].
    rewrite (setattr_plain _ self) in Hset by done. injection Hset as <-.
    unfold assigned. rewrite members_set_members_ne, Hnew; [done|].
    intros Heq. rewrite <-Heq in Hself. by apply is_fresh in Hself.
Qed.

Lemma disjunct_members_reserved n m :
  is_Some (disjunct_members !! n) → disjunct_reserved n m = true.
Proof. by intros [c [[-> _] | [-> _]]%disjunct_members_lookup]. Qed.

(** While candidates are moved in, a completed round has not met a
    reserved word. *)
Lemma move_unit_loop_unreserved cfg self sb ds us (k : nat) m m' :
  drop k (unit_disjunct cfg) = us →
  relocating cfg self sb ds k m →
  for_each (enumerate_from (Z.of_nat k) us) (move_unit (Block_ sb)) m = Return tt m' →
  ∀ u, u ∈ us → disjunct_reserved (local_name u) m = false.
Proof.
  revert k m. induction us as [|u us IH]; intros k m Hus Hrel; simpl.
  - by intros _ u ?%elem_of_nil.
  - intros ([] & m1 & Hstep & Hloop)%bind_Return.
    assert (Hu : unit_disjunct cfg !! k = Some u).
    { pose proof (lookup_drop (unit_disjunct cfg) k 0) as H.
      by rewrite Hus, Nat.add_0_r in H. }
    assert (Hus' : drop (S k) (unit_disjunct cfg) = us).
    { replace (S k) with (k + 1)%nat by lia. by rewrite <-drop_drop, Hus. }
    destruct (lookup_lt_is_Some_2 ds k) as [d Hd].
    { rewrite (rel_count _ _ _ _ _ _ Hrel). by eapply lookup_lt_Some. }
    destruct (move_unit_Return _ _ _ _ _ _ _ _ _ Hrel Hu Hd Hstep) as (Hrel1 & _).
    destruct (keeps_Return untouched (move_unit (Block_ sb) (Z.of_nat k, u)) m tt m1
                (untouched_move_unit _ _) Hstep) as (_ & _ & _ & Hdir).
    replace (Z.of_nat k + 1) with (Z.of_nat (S k)) in Hloop by lia.
    intros u' [->|Hu']%elem_of_cons.
    + pose proof (rel_layout _ _ _ _ _ _ Hrel) as [_ Htab _ _].
      assert (Heq : move_unit (Block_ sb) (Z.of_nat k, u) m = Return tt m1) by done.
      rewrite (move_unit_eq sb k d) in Heq
        by (by rewrite Htab, selection_table_branch, Hd).
      clear Hstep. rename Heq into Hstep.
      destruct (parent m !! u) as [p|]; [|done].
      apply add_component_Return in Hstep as (_ & _ & Hres & _).
      rewrite <- Hres. symmetry. apply reserved_dir.
      apply disjunct_dir_without_member.
    + rewrite <- (disjunct_reserved_dir _ m m1 Hdir). by eapply IH.
Qed.






(** * The claims on the examples *)

Lemma two_reactors_build :
  build two_reactors 2 flowsheet = Return tt two_reactors_built.
Proof. apply returns_final. vm_compute. reflexivity. Qed.

(** A candidate whose name is an attribute of a disjunct stops [build]
    with the [ValueError] of a reserved word, taken out of its parent. *)
Lemma reserved_attribute_stops_build :
  raised (build reserved_name 2 flowsheet_t) = Some ValueError ∧
  parent (final (build reserved_name 2 flowsheet_t)) !! Rt = None.
Proof. split; vm_compute; reflexivity. Qed.



Lemma build_creates_branches_and_selection_witness :
  consistent flowsheet ∧ 2%positive ∈ dom (blocks flowsheet) ∧
  build two_reactors 2 flowsheet = Return tt two_reactors_built ∧
  ∃ sb ds,
    members two_reactors_built 2 !! "selector_block" = Some (Block_ sb) ∧
    length ds = 2%nat ∧ NoDup ds ∧
    members two_reactors_built sb = selection_table ds ∧
    size (members two_reactors_built sb) = 3%nat.
Proof.
  split; [exact flowsheet_consistent|].
  split; [exact flowsheet_selector|].
  split; [exact two_reactors_build|].
  destruct (build_creates_branches_and_selection two_reactors 2 flowsheet
              flowsheet_consistent flowsheet_selector) as [_ Hbuilt].
  destruct (Hbuilt two_reactors_built two_reactors_build)
    as (sb & ds & Hsel & Hlen & Hnd & Htab & _ & _ & _ & Hsize & _).
  exists sb, ds.
  split; [exact Hsel|]. split; [exact Hlen|]. split; [exact Hnd|].
  split; [exact Htab | exact Hsize].
Defined.





(** * A missing edge at initialization *)

Section MissingEdge.

Variable unit_initialize :
  unit_model → kwargs → gmap port_obj Z → gmap port_obj Z + exn.

Lemma initialize_unit_same_store sbc options item m m' :
  initialize_unit unit_initialize sbc options item m = Return tt m' →
  blocks m' = blocks m.
Proof.
  destruct item as [i u]. unfold initialize_unit.
  intros (d & m1 & [-> _]%getattr_Return & H)%bind_Return.
  apply bind_Return in H as (c & m1 & [-> _]%getattr_Return & H).
  apply bind_Return in H as (arc & m1 & [-> _]%getattr_Return & H).
  apply bind_Return in H as ([] & m1 & Hprop & H).
  apply bind_Return in H as ([] & m2 & Hcall & H).
  apply bind_Return in H as (o & m3 & [-> _]%getattr_Return & [= <-]).
  destruct (propagate_state_cases arc m)
    as [(s & t & -> & [[_ Hp] | [_ Hp]]) | [_ Hp]];
    rewrite Hp in Hprop; [|done..]. injection Hprop as <-.
  destruct (call_initialize_cases unit_initialize c options (propagated s t m))
    as [(u' & -> & [(v & _ & Hc) | (e & _ & Hc)]) | [_ Hc]];
    rewrite Hc in Hcall; [|done..].
  by injection Hcall as <-.
Qed.

Lemma initialize_rounds_same_store sbc options items m m' :
  for_each items (initialize_unit unit_initialize sbc options) m = Return tt m' →
  blocks m' = blocks m.
Proof.
  apply (for_each_Return_inv (λ x, blocks x = blocks m)); [|done].
  intros item m1 m2 _ H1 H2. apply initialize_unit_same_store in H2. congruence.
Qed.

End MissingEdge.

(** [C6], as the code has it. On a selector that [build] has completed,
    a branch whose inlet or outlet edge is missing makes [initialize]
    fail: it completes only when every branch has both edges. The failure
    is Python's [AttributeError] for the missing name, not [BurntToast].
    When [initialize] gets to the branch, a missing inlet edge raises
    [AttributeError] before the candidate is initialized and leaves the
    model as it is; a missing outlet edge raises it after the state has
    been propagated and the candidate has been initialized. *)
Theorem initialize_missing_edge
    (unit_initialize : unit_model → kwargs → gmap port_obj Z → gmap port_obj Z + exn)
    (cfg : config) (self : positive) (options : kwargs) (m0 m : model) :
  consistent m0 → self ∈ dom (blocks m0) →
  build cfg self m0 = Return tt m →
  (raised (initialize cfg self unit_initialize options m) = None →
   ∀ idx, 1 ≤ idx ≤ Z.of_nat (length (unit_disjunct cfg)) →
     ∃ d, branch_block self m idx = Some d ∧
          is_Some (members m d !! inlet_to_unit_arc_ idx) ∧
          is_Some (members m d !! unit_to_outlet_arc_ idx)) ∧
  ∃ sb, members m self !! "selector_block" = Some (Block_ sb) ∧
    ∀ (i : nat) u d mi,
      unit_disjunct cfg !! i = Some u →
      branch_block self m (Z.of_nat i + 1) = Some d →
      for_each (take i (enumerate (unit_disjunct cfg)))
        (initialize_unit unit_initialize (Block_ sb) options) m = Return tt mi →
      (is_Some (members m d !! local_name u) →
       members m d !! inlet_to_unit_arc_ (Z.of_nat i + 1) = None →
       initialize cfg self unit_initialize options m
       = Raise (AttributeError (inlet_to_unit_arc_ (Z.of_nat i + 1))) mi) ∧
      (∀ src dst v,
         members m d !! local_name u = Some (Unit_ u) →
         members m d !! inlet_to_unit_arc_ (Z.of_nat i + 1)
           = Some (Arc_ (Port_ src) (Port_ dst)) →
         is_Some (values mi !! src) →
         unit_initialize u options (values (propagated src dst mi)) = inl v →
         members m d !! unit_to_outlet_arc_ (Z.of_nat i + 1) = None →
         initialize cfg self unit_initialize options m
         = Raise (AttributeError (unit_to_outlet_arc_ (Z.of_nat i + 1)))
             (set_values v (entered u options (propagated src dst mi)))).
Proof.
  intros Hc Hself Hbuild.
  destruct (build_built _ _ _ _ Hc Hself Hbuild) as (sb & ds & Hb & _).
  pose proof (initialize_outcome unit_initialize cfg self sb ds options m Hb) as Hloop.
  destruct (loop_outcome_edges _ _ _ _ _ _ _ Hloop) as [Hall _].
  pose proof Hb as [_ [Hsel Htab _ _] Hn _].
  split.
  - intros Hret idx Hidx.
    destruct (lookup_lt_is_Some_2 ds (Z.to_nat (idx - 1))) as [d Hd]; [lia|].
    exists d. replace idx with (Z.of_nat (Z.to_nat (idx - 1)) + 1) by lia.
    split.
    + unfold branch_block. by rewrite (built_branch_lookup _ _ _ _ _ _ Hb), Hd.
    + apply (Hall Hret); [lia | done].
  - exists sb. split; [done|]. intros i u d mi Hu Hd Hreach.
    assert (Hdi : members m sb !! unit_disjunct_ (Z.of_nat i + 1) = Some (Disjunct_ d)).
    { unfold branch_block in Hd. rewrite (built_branch_lookup _ _ _ _ _ _ Hb) in Hd.
      rewrite Htab, selection_table_branch. destruct (ds !! i); [|done].
      simpl in Hd. by injection Hd as ->. }
    assert (Hmi : ∀ b, members mi b = members m b).
    { intros b. unfold members.
      by rewrite (initialize_rounds_same_store _ _ _ _ _ _ Hreach). }
    split.
    + intros [c Hunit] Hin.
      eapply initialize_stops; [done..|].
      rewrite (initialize_unit_eq _ sb i d) by by rewrite Hmi.
      by rewrite !Hmi, Hunit, Hin.
    + intros src dst v Hunit Hin Hval Hv Hout.
      eapply initialize_stops; [done..|].
      rewrite (initialize_unit_eq _ sb i d) by by rewrite Hmi.
      rewrite !Hmi, Hunit, Hin.
      rewrite (propagate_state_Return src dst mi Hval).
      destruct (call_initialize_cases unit_initialize (Unit_ u) options
                  (propagated src dst mi))
        as [(u' & [= <-] & [(v' & Hv' & ->) | (e & He & _)]) | [Hne _]];
        [|congruence|by destruct (Hne u)].
      assert (v' = v) as -> by congruence.
      change (members (set_values v (entered u options (propagated src dst mi))) d)
        with (members mi d).
      by rewrite Hmi, Hout.
Qed.

(** A branch without edges: [initialize] raises [AttributeError]. *)
Lemma missing_edge_raises_attribute_error :
  raised (build unwired 2 flowsheet) = None ∧
  (∃ d, branch_block 2 (final (build unwired 2 flowsheet)) 1 = Some d ∧
        members (final (build unwired 2 flowsheet)) d !! inlet_to_unit_arc_ 1 = None) ∧
  raised (initialize unwired 2 inert [] (final (build unwired 2 flowsheet)))
  = Some (AttributeError "inlet_to_unit_arc_1") ∧
  raised (initialize unwired 2 inert [] (final (build unwired 2 flowsheet)))
  ≠ Some BurntToast.
Proof.
  split; [vm_compute; reflexivity|].
  split; [exists 4%positive; split; vm_compute; reflexivity|].
  split; [vm_compute; reflexivity|].
  vm_compute. discriminate.
Qed.

Lemma initialize_missing_edge_witness :
  consistent flowsheet ∧ 2%positive ∈ dom (blocks flowsheet) ∧
  build unwired 2 flowsheet = Return tt (final (build unwired 2 flowsheet)) ∧
  ∃ sb d,
    members (final (build unwired 2 flowsheet)) 2 !! "selector_block" = Some (Block_ sb) ∧
    branch_block 2 (final (build unwired 2 flowsheet)) 1 = Some d ∧
    is_Some (members (final (build unwired 2 flowsheet)) d !! local_name R1) ∧
    members (final (build unwired 2 flowsheet)) d !! inlet_to_unit_arc_ 1 = None ∧
    initialize unwired 2 inert [] (final (build unwired 2 flowsheet))
    = Raise (AttributeError (inlet_to_unit_arc_ 1)) (final (build unwired 2 flowsheet)).
Proof.
  assert (Hbuild : build unwired 2 flowsheet
                   = Return tt (final (build unwired 2 flowsheet))).
  { apply returns_final. vm_compute. reflexivity. }
  split; [exact flowsheet_consistent|].
  split; [exact flowsheet_selector|].
  split; [exact Hbuild|].
  destruct (initialize_missing_edge inert unwired 2 [] flowsheet _
              flowsheet_consistent flowsheet_selector Hbuild)
    as (_ & sb & Hsel & Hexact).
  assert (Hd : branch_block 2 (final (build unwired 2 flowsheet)) (Z.of_nat 0 + 1)
               = Some 4%positive) by (vm_compute; reflexivity).
  assert (Hunit : is_Some (members (final (build unwired 2 flowsheet)) 4 !! local_name R1))
    by (eexists; vm_compute; reflexivity).
  assert (Hin : members (final (build unwired 2 flowsheet)) 4
                  !! inlet_to_unit_arc_ (Z.of_nat 0 + 1) = None)
    by (vm_compute; reflexivity).
  destruct (Hexact 0%nat R1 4%positive (final (build unwired 2 flowsheet))
              eq_refl Hd eq_refl) as [Hinlet _].
  exists sb, 4%positive.
  split; [exact Hsel|]. split; [exact Hd|]. split; [exact Hunit|].
  split; [exact Hin | exact (Hinlet Hunit Hin)].
Defined.

(** * Wiring that stops *)

Section WiringStops.

Variable self : positive.
Variable port_name arc_name : Z → string.
Variable mk_arc : component → conn_point → component.

Hypothesis mk_arc_arc : ∀ s p, ∃ a b, mk_arc s p = Arc_ a b.
Hypothesis arc_name_edge : ∀ i, edge_name (arc_name i) = true.
Hypothesis arc_name_inj : ∀ i j, arc_name i = arc_name j → i = j.
Hypothesis arc_name_selector : ∀ i, arc_name i ≠ "selector_block".
Hypothesis arc_name_branch : ∀ i j, arc_name i ≠ unit_disjunct_ j.
Hypothesis arc_name_port : ∀ i k, arc_name i ≠ port_name k.

Local Abbreviation place_edge' := (place_edge self port_name arc_name mk_arc).
Local Abbreviation fan' := (fan self port_name arc_name mk_arc).
Local Abbreviation wire' := (wire self port_name arc_name mk_arc).
Local Abbreviation edge_Return :=
  (place_edge_Return self port_name arc_name mk_arc mk_arc_arc arc_name_edge).
Local Abbreviation selector_after :=
  (selector_after_edge self arc_name arc_name_selector).
Local Abbreviation port_after :=
  (port_after_edge self port_name arc_name arc_name_port).
Local Abbreviation branch_after :=
  (branch_after_edge self arc_name arc_name_selector arc_name_branch).


(** Wiring only adds members. *)
Lemma place_edge_monotone k i p m m' b n c :
  place_edge' k i p m = Return tt m' →
  members m b !! n = Some c → members m' b !! n = Some c.
Proof.
  intros (udc & d & port & _ & _ & _ & Hfree & _ & ->)%edge_Return Hc.
  rewrite lookup_after_edge. case_decide as Heq; [|done].
  destruct Heq as [-> ->]. congruence.
Qed.

Lemma fan_monotone k ports i m m' b n c :
  fan' k ports i m = Return tt m' →
  members m b !! n = Some c → members m' b !! n = Some c.
Proof.
  revert i m. induction ports as [|p rest IH]; intros i m; simpl.
  - by intros [= <-].
  - intros ([] & m1 & Hstep & Hrest)%bind_Return Hc.
    eapply IH; [done|]. by eapply place_edge_monotone.
Qed.

Lemma wire_monotone item m m' b n c :
  wire' item m = Return tt m' →
  members m b !! n = Some c → members m' b !! n = Some c.
Proof.
  destruct item as [k [|p [|q rest]]].
  - rewrite wire_empty. by repeat case_match.
  - rewrite wire_single. apply place_edge_monotone.
  - apply (fan_monotone k (p :: q :: rest) 1).
Qed.

Lemma wiring_monotone items m m' b n c :
  for_each items wire' m = Return tt m' →
  members m b !! n = Some c → members m' b !! n = Some c.
Proof.
  intros Hloop Hc.
  apply (for_each_Return_inv (λ x, members x b !! n = Some c) _ _ _ _
           (λ item m1 m2 _ H1 H2, wire_monotone item m1 m2 b n c H2 H1) Hc Hloop).
Qed.


(** A list of more than one point leaves an edge in branch 1. *)
Lemma fan_marks_first k p rest c m m' :
  fan' k (p :: rest) c m = Return tt m' →
  ∃ udc d, branch self m c = Some udc ∧ block_of udc = Some d ∧
           is_Some (members m' d !! arc_name c).
Proof.
  simpl. intros ([] & m1 & Hstep & Hrest)%bind_Return.
  apply edge_Return in Hstep as (udc & d & port & Hb & Hd & _ & _ & _ & ->).
  exists udc, d. split_and!; [done..|]. eexists.
  eapply fan_monotone; [done|]. rewrite lookup_after_edge. by rewrite decide_True.
Qed.

(** A list of more than one point, when branch 1 has its edge already. *)
Lemma wire_long_blocked k ports m udc d :
  (1 < length ports)%nat →
  branch self m 1 = Some udc → block_of udc = Some d →
  is_Some (members m d !! arc_name 1) →
  wire' (k, ports) m =
  Raise (match members m self !! port_name k with
         | Some _ => RuntimeError (arc_name 1)
         | None => AttributeError (port_name k)
         end) m.
Proof.
  intros Hlen Hb Hd [c Hc]. unfold wire. rewrite bool_decide_eq_true_2 by done.
  destruct ports as [|p rest]; [simpl in Hlen; lia|]. simpl.
  unfold mbind at 1, M_bind, bind. rewrite place_edge_eq.
  assert (is_Some (members m self !! "selector_block")) as [? ->].
  { unfold branch in Hb. destruct (members m self !! "selector_block"); [eauto|done]. }
  rewrite Hb. destruct (members m self !! port_name k) as [port|]; [|done].
  unfold add_component.
  by rewrite Hd, (reserved_edge_name _ _ _ (arc_name_edge 1)), Hc.
Qed.

(** With a second list of more than one point the loop cannot get past
    that list: its first edge is already there. *)
Lemma second_long_list_blocked before k1 ports1 between k2 ports2 m m2 :
  (1 < length ports1)%nat → (1 < length ports2)%nat →
  for_each (before ++ (k1, ports1) :: between) wire' m = Return tt m2 →
  wire' (k2, ports2) m2 =
  Raise (match members m2 self !! port_name k2 with
         | Some _ => RuntimeError (arc_name 1)
         | None => AttributeError (port_name k2)
         end) m2.
Proof.
  intros Hl1 Hl2 Hloop. rewrite for_each_app in Hloop.
  destruct (for_each before wire' m) as [[] m1|] eqn:Hbefore; [|done].
  rewrite for_each_cons in Hloop.
  destruct (wire' (k1, ports1) m1) as [[] ma|] eqn:Hfirst; [|done].
  assert (∃ udc d, branch self m1 1 = Some udc ∧ block_of udc = Some d ∧
                   is_Some (members ma d !! arc_name 1)) as (udc & d & Hb & Hd & [c Hc]).
  { destruct ports1 as [|p rest]; [simpl in Hl1; lia|].
    unfold wire in Hfirst. rewrite bool_decide_eq_true_2 in Hfirst by done.
    by apply fan_marks_first in Hfirst. }
  assert (Hb2 : branch self m2 1 = Some udc).
  { unfold branch in Hb |- *.
    destruct (members m1 self !! "selector_block") as [sbc|] eqn:Hs; [|done].
    simpl in Hb. destruct (block_of sbc) as [sb|] eqn:Hsb; [|done]. simpl in Hb.
    rewrite (wiring_monotone between ma m2 self "selector_block" sbc Hloop
               (wire_monotone _ _ _ _ _ _ Hfirst Hs)). simpl. rewrite Hsb. simpl.
    apply (wiring_monotone between ma m2 _ _ _ Hloop).
    by apply (wire_monotone _ _ _ _ _ _ Hfirst). }
  apply (wire_long_blocked k2 ports2 m2 udc d Hl2 Hb2 Hd).
  exists c. by apply (wiring_monotone between ma m2 _ _ _ Hloop).
Qed.

(** A list no longer than the number of branches is placed, when the port
    is there and the names of its edges are free. *)
Lemma fan_succeeds k ports c m port :
  members m self !! port_name k = Some port →
  (∀ p, constructible (mk_arc port p) = true) →
  (∀ j : nat, (j < length ports)%nat →
     ∃ udc d, branch self m (c + Z.of_nat j) = Some udc ∧ block_of udc = Some d ∧
              members m d !! arc_name (c + Z.of_nat j) = None) →
  ∃ m', fan' k ports c m = Return tt m'.
Proof.
  intros Hport Hok. revert c m Hport.
  induction ports as [|p rest IH]; intros c m Hport Hfree; simpl; [by eexists|].
  destruct (Hfree 0%nat) as (udc & d & Hb & Hd & Hn); [simpl; lia|].
  rewrite Z.add_0_r in Hb, Hn.
  set (m1 := set_members d (<[arc_name c := mk_arc port p]> (members m d)) m).
  assert (Hstep : place_edge' k c p m = Return tt m1).
  { apply edge_Return. exists udc, d, port. by split_and!. }
  destruct (IH (c + 1) m1) as [m' Hm'].
  - unfold m1. by rewrite port_after.
  - intros j Hj. destruct (Hfree (S j)) as (udc' & d' & Hb' & Hd' & Hn'); [simpl; lia|].
    replace (c + Z.of_nat (S j)) with (c + 1 + Z.of_nat j) in Hb', Hn' by lia.
    exists udc', d'. unfold m1. rewrite branch_after.
    split_and!; [done..|]. rewrite lookup_after_edge. rewrite decide_False; [done|].
    intros [_ ?%arc_name_inj]. lia.
  - exists m'. apply bind_Return. eauto.
Qed.


End WiringStops.

Lemma for_each_ext {X} (xs : list X) (f g : X → M unit) m :
  (∀ x m, f x m = g x m) → for_each xs f m = for_each xs g m.
Proof.
  intros Hfg. revert m. induction xs as [|x xs IH]; intros m; simpl; [done|].
  unfold mbind, M_bind, bind. rewrite Hfg. by destruct (g x m).
Qed.

Lemma wiring_side_wire s self items m :
  for_each items (wire_side s self) m = for_each items (wire_of s self) m.
Proof. apply for_each_ext. intros item m1. apply wire_side_wire. Qed.

(** A [build] that returns has run both wiring loops to their ends. *)
Lemma build_Return_wired cfg self m m' (s : side) :
  build cfg self m = Return tt m' →
  ∃ m1 m2, for_each (wiring_of s cfg) (wire_side s self) m1 = Return tt m2.
Proof.
  unfold build. intros H.
  repeat (apply bind_Return in H as (? & ? & ? & H)).
  repeat match goal with u : unit |- _ => destruct u end.
  destruct s; simpl.
  - match goal with
    | H : arc_selector_inlet_to_unit _ _ ?a = Return _ ?b |- _ => by exists a, b
    end.
  - match goal with
    | H : arc_unit_outlet_to_selector _ _ ?a = Return _ ?b |- _ => by exists a, b
    end.
Qed.

(** [C10], as the code has it. Two indices of one wiring table whose lists
    both hold more than one connection point are never both wired: each of
    the two lists starts at branch 1, so the second finds the name of
    branch 1's edge in use. The loop over such a table never completes,
    and neither does [build]. When the loop gets as far as the second of
    the two lists it stops there and leaves the model as the rounds before
    left it: with Pyomo's [RuntimeError] for the name of branch 1's edge
    when the selector has the port of that index, with an [AttributeError]
    for the port's name when it has not. *)
Theorem second_long_list_stops_wiring (s : side) (cfg : config) (self : positive)
    (before between rest : list (Z * list conn_point))
    (k1 k2 : Z) (ports1 ports2 : list conn_point) :
  wiring_of s cfg = before ++ (k1, ports1) :: between ++ (k2, ports2) :: rest →
  (1 < length ports1)%nat → (1 < length ports2)%nat →
  (∀ m m2,
     for_each (before ++ (k1, ports1) :: between) (wire_side s self) m = Return tt m2 →
     for_each (wiring_of s cfg) (wire_side s self) m
     = Raise (match members m2 self !! port_name_of s k2 with
              | Some _ => RuntimeError (arc_name_of s 1)
              | None => AttributeError (port_name_of s k2)
              end) m2) ∧
  (∀ m, raised (for_each (wiring_of s cfg) (wire_side s self) m) ≠ None) ∧
  (∀ m, raised (build cfg self m) ≠ None).
Proof.
  intros Htable Hl1 Hl2.
  assert (Hstop : ∀ m m2,
    for_each (before ++ (k1, ports1) :: between) (wire_side s self) m = Return tt m2 →
    for_each (wiring_of s cfg) (wire_side s self) m
    = Raise (match members m2 self !! port_name_of s k2 with
             | Some _ => RuntimeError (arc_name_of s 1)
             | None => AttributeError (port_name_of s k2)
             end) m2).
  { intros m m2 Hreach. rewrite Htable.
    replace (before ++ (k1, ports1) :: between ++ (k2, ports2) :: rest)
      with ((before ++ (k1, ports1) :: between) ++ (k2, ports2) :: rest)
      by by rewrite <-app_assoc.
    rewrite for_each_app, Hreach, for_each_cons, wire_side_wire.
    rewrite wiring_side_wire in Hreach.
    by rewrite (second_long_list_blocked self (port_name_of s) (arc_name_of s)
                  (arc_between s) (arc_between_arc s) (arc_name_of_edge s)
                  before k1 ports1 between k2 ports2 m m2 Hl1 Hl2 Hreach). }
  assert (Hnever : ∀ m, raised (for_each (wiring_of s cfg) (wire_side s self) m) ≠ None).
  { intros m Hret.
    destruct (for_each (before ++ (k1, ports1) :: between) (wire_side s self) m)
      as [[] m2|e m2] eqn:Hreach.
    - by rewrite (Hstop m m2 Hreach) in Hret.
    - rewrite Htable in Hret.
      replace (before ++ (k1, ports1) :: between ++ (k2, ports2) :: rest)
        with ((before ++ (k1, ports1) :: between) ++ (k2, ports2) :: rest)
        in Hret by by rewrite <-app_assoc.
      by rewrite for_each_app, Hreach in Hret. }
  split_and!; [done..|].
  intros m Hret. apply returns_final in Hret.
  destruct (build_Return_wired cfg self m _ s Hret) as (m1 & m2 & Hwired).
  apply (Hnever m1). by rewrite Hwired.
Qed.

(** One candidate and two lists of two points each: [build] stops on a
    lookup of branch 2, in the first list, before any name is in use. *)
Lemma two_long_lists_stop_on_a_lookup :
  raised (build one_reactor_two_long_lists 2 flowsheet)
  = Some (AttributeError "unit_disjunct_2") ∧
  (∀ n, raised (build one_reactor_two_long_lists 2 flowsheet) ≠ Some (RuntimeError n)).
Proof.
  split; [vm_compute; reflexivity|].
  intros n. vm_compute. discriminate.
Qed.

Lemma second_long_list_stops_wiring_witness :
  (1 < length [inlet_of R1; inlet_of R2])%nat ∧
  for_each [(1, [inlet_of R1; inlet_of R2])] (wire_side Inlet 2)
    (final (build_up_to_wiring two_reactors_two_long_lists 2 flowsheet))
  = Return tt
      (final (for_each [(1, [inlet_of R1; inlet_of R2])] (wire_side Inlet 2)
                (final (build_up_to_wiring two_reactors_two_long_lists 2 flowsheet)))) ∧
  for_each (unit_disjunct_inlet two_reactors_two_long_lists) (wire_side Inlet 2)
    (final (build_up_to_wiring two_reactors_two_long_lists 2 flowsheet))
  = Raise (RuntimeError (inlet_to_unit_arc_ 1))
      (final (for_each [(1, [inlet_of R1; inlet_of R2])] (wire_side Inlet 2)
                (final (build_up_to_wiring two_reactors_two_long_lists 2 flowsheet)))) ∧
  raised (build two_reactors_two_long_lists 2 flowsheet) ≠ None.
Proof.
  assert (Hlen : (1 < length [inlet_of R1; inlet_of R2])%nat) by (simpl; lia).
  assert (Hreach :
    for_each ([] ++ (1, [inlet_of R1; inlet_of R2]) :: []) (wire_side Inlet 2)
      (final (build_up_to_wiring two_reactors_two_long_lists 2 flowsheet))
    = Return tt
        (final (for_each [(1, [inlet_of R1; inlet_of R2])] (wire_side Inlet 2)
                  (final (build_up_to_wiring two_reactors_two_long_lists 2 flowsheet))))).
  { apply returns_final. vm_compute. reflexivity. }
  assert (Hport :
    members
      (final (for_each [(1, [inlet_of R1; inlet_of R2])] (wire_side Inlet 2)
                (final (build_up_to_wiring two_reactors_two_long_lists 2 flowsheet))))
      2 !! port_name_of Inlet 2 = Some (Port_ (SelectorPort 7))).
  { vm_compute. reflexivity. }
  destruct (second_long_list_stops_wiring Inlet two_reactors_two_long_lists 2
              [] [] [] 1 2 [inlet_of R1; inlet_of R2] [inlet_of R1; inlet_of R2]
              eq_refl Hlen Hlen) as (Hstop & _ & Hbuild).
  split; [exact Hlen|]. split; [exact Hreach|].
  split; [|exact (Hbuild flowsheet)].
  exact (eq_trans (Hstop _ _ Hreach)
           (f_equal (λ o, Raise (match o with
                                 | Some _ => RuntimeError (arc_name_of Inlet 1)
                                 | None => AttributeError (port_name_of Inlet 2)
                                 end) _) Hport)).
Defined.

(** * The lengths of the wiring lists *)

(** The lemmas on the generic loop, for one side of the selector. *)
Section WiringOf.

Variable s : side.
Variable self : positive.

Lemma fan_of_succeeds k ports c m port :
  members m self !! port_name_of s k = Some port →
  (∀ p, constructible (arc_between s port p) = true) →
  (∀ j : nat, (j < length ports)%nat →
     ∃ udc d, branch self m (c + Z.of_nat j) = Some udc ∧ block_of udc = Some d ∧
              members m d !! arc_name_of s (c + Z.of_nat j) = None) →
  ∃ m', fan self (port_name_of s) (arc_name_of s) (arc_between s) k ports c m
        = Return tt m'.
Proof.
  apply fan_succeeds.
  - apply arc_between_arc.
  - apply arc_name_of_edge.
  - apply arc_name_of_inj.
  - apply arc_name_of_selector.
  - apply arc_name_of_branch.
  - apply arc_name_of_port.
Qed.



Lemma wire_side_long k ports m :
  (1 < length ports)%nat →
  wire_side s self (k, ports) m
  = fan self (port_name_of s) (arc_name_of s) (arc_between s) k ports 1 m.
Proof.
  intros Hlen. rewrite wire_side_wire. unfold wire.
  by rewrite bool_decide_eq_true_2.
Qed.


End WiringOf.







(** [c] is [untouched] but for one event, which it records last, and
    only when it returns. *)
Definition ends_with (ev : event) (c : M unit) : Prop :=
  ∀ m, values (final (c m)) = values m ∧
       dom (blocks m) ⊆ dom (blocks (final (c m))) ∧
       trace (final (c m))
       = trace m ++ match raised (c m) with None => [ev] | Some _ => [] end ∧
       disjunct_dir (final (c m)) = disjunct_dir m.

Lemma ends_with_bind {A} ev (c : M A) (k : A → M unit) :
  keeps untouched c → (∀ a, ends_with ev (k a)) → ends_with ev (c ≫= k).
Proof.
  intros Hc Hk m. destruct (Hc m) as (Hv & Ht & Hd & Hr).
  unfold mbind, M_bind, bind. destruct (c m) as [a m1|e m1]; simpl in *.
  - destruct (Hk a m1) as (Hv' & Hd' & Ht' & Hr').
    split_and!; [congruence | set_solver | by rewrite Ht', Ht | congruence].
  - split_and!; [done | done | by rewrite Ht, app_nil_r | done].
Qed.

Lemma ends_with_expand_arcs self :
  ends_with (EvTransformation "network.expand_arcs" self) (expand_arcs self).
Proof. intros m. by split_and!. Qed.

(** [X1] The one call [build] records is the [network.expand_arcs]
    transformation of the selector: as its last act when it completes,
    and not at all when it raises. It propagates no state and initializes
    no candidate, and it leaves every port value as it is. *)
Theorem build_transforms_last (cfg : config) (self : positive) (m : model) :
  values (final (build cfg self m)) = values m ∧
  trace (final (build cfg self m))
  = trace m ++ match raised (build cfg self m) with
               | None => [EvTransformation "network.expand_arcs" self]
               | Some _ => []
               end.
Proof.
  assert (H : ends_with (EvTransformation "network.expand_arcs" self)
                (build cfg self)); [|by destruct (H m) as (? & _ & ? & _)].
  unfold build, UnitModelBlockData_build.
  apply ends_with_bind; [apply (keeps_ret untouched) | intros _].
  apply ends_with_bind; [apply untouched_Block | intros b].
  apply ends_with_bind; [apply untouched_setattr | intros _].
  apply ends_with_bind; [apply untouched_create_unit_disjunct | intros _].
  apply ends_with_bind; [apply untouched_add_units_to_disjunct | intros _].
  apply ends_with_bind; [apply untouched_add_port_state_block | intros l1].
  apply ends_with_bind; [apply untouched_setattr | intros _].
  apply ends_with_bind; [apply untouched_add_port_state_block | intros l2].
  apply ends_with_bind; [apply untouched_setattr | intros _].
  apply ends_with_bind; [apply untouched_add_port_objects | intros _].
  apply ends_with_bind; [apply untouched_add_port_objects | intros _].
  apply ends_with_bind; [apply (untouched_wiring Inlet) | intros _].
  apply ends_with_bind; [apply (untouched_wiring Outlet) | intros _].
  apply ends_with_expand_arcs.
Qed.

(** ** Steps that change the selector's own members only *)

(** Between [m] and [m'] the only members that may differ are members of
    [self] under a name in [names]; objects may have been added to the
    store. *)
Definition self_step (self : positive) (names : string → Prop) (m m' : model)
    : Prop :=
  self ∈ dom (blocks m) →
  self ∈ dom (blocks m') ∧
  dom (blocks m) ⊆ dom (blocks m') ∧
  (∀ b, b ∈ dom (blocks m) → b ≠ self → members m' b = members m b) ∧
  (∀ n, ¬ names n → members m' self !! n = members m self !! n).

Global Instance self_step_preorder self names : PreOrder (self_step self names).
Proof.
  split.
  - by intros m Hself.
  - intros m1 m2 m3 H1 H2 Hself.
    destruct (H1 Hself) as (Hs1 & Hd1 & Hb1 & Hn1).
    destruct (H2 Hs1) as (Hs2 & Hd2 & Hb2 & Hn2).
    split_and!; [done | set_solver | |].
    + intros b Hb Hne. rewrite Hb2; [by apply Hb1 | by apply Hd1 | done].
    + intros n Hn. by rewrite Hn2, Hn1.
Qed.

Lemma self_step_mono self (names1 names2 : string → Prop) m m' :
  (∀ n, names1 n → names2 n) →
  self_step self names1 m m' → self_step self names2 m m'.
Proof.
  intros Hsub H Hself. destruct (H Hself) as (? & ? & ? & Hn).
  split_and!; [done..|]. intros n Hn2. apply Hn. intros ?. by apply Hn2, Hsub.
Qed.

Lemma keeps_self_step_mono {A} self (names1 names2 : string → Prop) (c : M A) :
  (∀ n, names1 n → names2 n) →
  keeps (self_step self names1) c → keeps (self_step self names2) c.
Proof. intros Hsub H m. eapply self_step_mono; [done | apply H]. Qed.

Lemma self_step_getattr self names c n : keeps (self_step self names) (getattr c n).
Proof.
  intros m. unfold getattr. destruct (block_of c) as [b|]; [|done].
  by destruct (members m b !! n).
Qed.

Lemma self_step_allocate self names ms : keeps (self_step self names) (allocate ms).
Proof.
  intros m Hself. unfold allocate.
  change (final (Return (fresh (dom (blocks m)))
            (set_members (fresh (dom (blocks m))) ms m)))
    with (set_members (fresh (dom (blocks m))) ms m).
  assert (Hfresh : fresh (dom (blocks m)) ∉ dom (blocks m)) by apply is_fresh.
  rewrite blocks_set_members. split_and!; [set_solver | set_solver | |].
  - intros b Hb _. apply members_set_members_ne. by intros <-.
  - intros n _. rewrite members_set_members_ne; [done|]. by intros <-.
Qed.

Lemma self_step_add_component self (names : string → Prop) n v :
  names n → keeps (self_step self names) (add_component (Block_ self) n v).
Proof.
  intros Hn m Hself. unfold add_component. simpl.
  destruct (members m self !! n); [done|]. destruct (owned v m); [done|].
  destruct (constructible v); [|done]. simpl.
  fold (with_member self n v m). rewrite blocks_with_member.
  split_and!; [set_solver | set_solver | |].
  - intros b _ Hne. rewrite members_with_member. by rewrite decide_False.
  - intros n' Hn'. rewrite members_with_member, decide_True by done.
    apply lookup_insert_ne. by intros <-.
Qed.

Lemma self_step_del_component self (names : string → Prop) n :
  names n → keeps (self_step self names) (del_component (Block_ self) n).
Proof.
  intros Hn m Hself.
  assert (Heq : del_component (Block_ self) n m
                = Return tt (without_member self n m)) by done.
  rewrite Heq. cbn [final]. rewrite blocks_without_member.
  split_and!; [set_solver | set_solver | |].
  - intros b _ Hne. rewrite members_without_member. by rewrite decide_False.
  - intros n' Hn'. rewrite members_without_member, decide_True by done.
    apply lookup_delete_ne. by intros <-.
Qed.

Lemma self_step_setattr self (names : string → Prop) n v :
  names n → keeps (self_step self names) (setattr (Block_ self) n v).
Proof.
  intros Hn m. unfold setattr. simpl. destruct (members m self !! n).
  - apply (keeps_bind (self_step self names));
      [by apply self_step_del_component | intros _; by apply self_step_add_component].
  - by apply self_step_add_component.
Qed.

Lemma self_step_state_block_loop self (names : string → Prop) t doc args ps acc :
  (∀ p, p ∈ ps → names (state_ p)) →
  keeps (self_step self names) (state_block_loop self t doc args ps acc).
Proof.
  revert acc. induction ps as [|p ps IH]; intros acc Hps; simpl;
    [apply (keeps_ret (self_step self names))|].
  apply (keeps_bind (self_step self names)).
  { apply (keeps_bind (self_step self names)); [apply self_step_allocate|].
    intros b. apply (keeps_ret (self_step self names)). }
  intros c. apply (keeps_bind (self_step self names)).
  { apply self_step_setattr, Hps. by left. }
  intros _. apply (keeps_bind (self_step self names)); [apply self_step_getattr|].
  intros x. apply IH. intros q Hq. apply Hps. by right.
Qed.

Lemma self_step_add_port_state_block self (names : string → Prop) unit_type ps
    is_inlet :
  (∀ p, p ∈ ps → names (state_ p)) →
  keeps (self_step self names) (add_port_state_block self unit_type ps is_inlet).
Proof.
  intros Hps. unfold add_port_state_block. destruct unit_type.
  - by apply self_step_state_block_loop.
  - apply (keeps_raise (self_step self names)).
Qed.

Lemma self_step_add_port_objects cfg self (names : string → Prop) ps is_inlet :
  (construct_ports cfg = true → ∀ p, p ∈ ps → names p) →
  keeps (self_step self names) (add_port_objects cfg self ps is_inlet).
Proof.
  intros Hps. unfold add_port_objects.
  destruct (construct_ports cfg); [|apply (keeps_ret (self_step self names))].
  induction ps as [|p ps IH]; simpl; [apply (keeps_ret (self_step self names))|].
  apply (keeps_bind (self_step self names)).
  - apply (keeps_bind (self_step self names)); [apply self_step_getattr|].
    intros c. unfold add_port.
    destruct c; try apply (keeps_raise (self_step self names)).
    apply self_step_add_component, Hps; [done | by left].
  - intros _. apply IH. intros _ q Hq. apply Hps; [done | by right].
Qed.

(** The names under which [build] stores state containers, their lists
    and the ports. *)
Definition port_stage_names (cfg : config) (n : string) : Prop :=
  n = "selector_inlet_block" ∨ n = "selector_outlet_block" ∨
  ∃ s k, 1 ≤ k ≤ Z.of_nat (length (wiring_of s cfg)) ∧
         (n = state_ (port_name_of s k)
          ∨ (construct_ports cfg = true ∧ n = port_name_of s k)).

(** The stage that makes the state containers, their lists and the ports
    touches the selector only. *)
Lemma port_stage_self_step cfg self m3 l_in m4 l_out m6 m8 m9 :
  add_port_state_block self (unit_source cfg) (create_inlet_list cfg) true m3
    = Return l_in m4 →
  add_port_state_block self (unit_sink cfg) (create_outlet_list cfg) false
    (assigned self "selector_inlet_block" (List_ l_in) m4) = Return l_out m6 →
  add_port_objects cfg self (create_inlet_list cfg) true
    (assigned self "selector_outlet_block" (List_ l_out) m6) = Return tt m8 →
  add_port_objects cfg self (create_outlet_list cfg) false m8 = Return tt m9 →
  self_step self (port_stage_names cfg) m3 m9.
Proof.
  intros Hsb1 Hsb2 Hp1 Hp2.
  assert (Hin : ∀ s p, p ∈ port_names s cfg →
            port_stage_names cfg (state_ p) ∧
            (construct_ports cfg = true → port_stage_names cfg p)).
  { intros s p (k & -> & Hk)%elem_of_port_names.
    split; [|intros Hports]; do 2 right; exists s, k; auto. }
  pose proof (keeps_Return _ _ _ _ _
                (self_step_add_port_state_block self (port_stage_names cfg)
                   (unit_source cfg) (create_inlet_list cfg) true
                   (λ p Hp, proj1 (Hin Inlet p Hp))) Hsb1) as S1.
  pose proof (keeps_Return _ _ _ _ _
                (self_step_setattr self (port_stage_names cfg)
                   "selector_inlet_block" (List_ l_in) ltac:(by left))
                (setattr_plain (Block_ self) self _ (List_ l_in) m4 eq_refl eq_refl eq_refl))
    as S2.
  pose proof (keeps_Return _ _ _ _ _
                (self_step_add_port_state_block self (port_stage_names cfg)
                   (unit_sink cfg) (create_outlet_list cfg) false
                   (λ p Hp, proj1 (Hin Outlet p Hp))) Hsb2) as S3.
  pose proof (keeps_Return _ _ _ _ _
                (self_step_setattr self (port_stage_names cfg)
                   "selector_outlet_block" (List_ l_out) ltac:(right; by left))
                (setattr_plain (Block_ self) self _ (List_ l_out) m6 eq_refl eq_refl eq_refl))
    as S4.
  pose proof (keeps_Return _ _ _ _ _
                (self_step_add_port_objects cfg self (port_stage_names cfg)
                   (create_inlet_list cfg) true
                   (λ Hports p Hp, proj2 (Hin Inlet p Hp) Hports)) Hp1) as S5.
  pose proof (keeps_Return _ _ _ _ _
                (self_step_add_port_objects cfg self (port_stage_names cfg)
                   (create_outlet_list cfg) false
                   (λ Hports p Hp, proj2 (Hin Outlet p Hp) Hports)) Hp2) as S6.
  etrans; [exact S1|]. etrans; [exact S2|]. etrans; [exact S3|].
  etrans; [exact S4|]. etrans; [exact S5|]. exact S6.
Qed.

(** The models a [build] that completes goes through: [m1] with
    [selector_block], [m2] with the branches, [m3] with the candidates in
    them, [m4] to [m9] with state containers, their lists and the ports,
    [m10] with the inlet edges, [m11] with the outlet edges. *)
Lemma build_Return_stages cfg self m m' :
  consistent m → self ∈ dom (blocks m) →
  build cfg self m = Return tt m' →
  ∃ sb ds m1 m2 m3 l_in m4 l_out m6 m8 m9 m10 m11,
    (Block ≫= λ b, setattr (this self) "selector_block" b) m = Return tt m1 ∧
    laying_out self sb [] m1 ∧
    create_unit_disjunct cfg self m1 = Return tt m2 ∧
    assembled cfg self sb ds m2 ∧
    add_units_to_disjunct cfg self m2 = Return tt m3 ∧
    built cfg self sb ds m3 ∧
    add_port_state_block self (unit_source cfg) (create_inlet_list cfg) true m3
      = Return l_in m4 ∧
    add_port_state_block self (unit_sink cfg) (create_outlet_list cfg) false
      (assigned self "selector_inlet_block" (List_ l_in) m4) = Return l_out m6 ∧
    add_port_objects cfg self (create_inlet_list cfg) true
      (assigned self "selector_outlet_block" (List_ l_out) m6) = Return tt m8 ∧
    add_port_objects cfg self (create_outlet_list cfg) false m8 = Return tt m9 ∧
    self_step self (port_stage_names cfg) m3 m9 ∧
    built cfg self sb ds m9 ∧
    for_each (wiring_of Inlet cfg) (wire_side Inlet self) m9 = Return tt m10 ∧
    built cfg self sb ds m10 ∧
    for_each (wiring_of Outlet cfg) (wire_side Outlet self) m10 = Return tt m11 ∧
    built cfg self sb ds m11 ∧
    m' = record (EvTransformation "network.expand_arcs" self) m11.
Proof.
  intros Hc Hself. unfold build, UnitModelBlockData_build.
  intros ([] & ? & [= <-] & H)%bind_Return.
  apply bind_Return in H as (b & m0 & HBlock & H).
  apply bind_Return in H as ([] & m1 & Hset & H).
  destruct (selector_block_assigned self m Hc Hself)
    as (sb & m1' & Hpre & _ & Hlay & _).
  assert (m1' = m1) as ->.
  { assert ((Block ≫= λ b, setattr (this self) "selector_block" b) m = Return tt m1)
      as Heq by (apply bind_Return; eauto). congruence. }
  apply bind_Return in H as ([] & m2 & Hcreate & H).
  destruct (create_unit_disjunct_Return cfg self sb m1 Hlay)
    as (ds & m2' & Hcreate' & Hasm & _).
  assert (m2' = m2) as -> by congruence.
  apply bind_Return in H as ([] & m3 & Hmove & H).
  destruct (add_units_to_disjunct_Return _ _ _ _ _ _ Hasm Hmove) as (Hb3 & _).
  apply bind_Return in H as (l_in & m4 & Hsb1 & H).
  pose proof (add_port_state_block_built cfg self sb ds Inlet _ _ _ _ _ Hb3 Hsb1)
    as Hb4.
  apply bind_Return in H as ([] & m5 & Hs1 & H).
  rewrite (setattr_plain _ self) in Hs1 by done. injection Hs1 as <-.
  apply bind_Return in H as (l_out & m6 & Hsb2 & H).
  pose proof (add_port_state_block_built cfg self sb ds Outlet _ _ _ _ _
                (built_assigned_self _ _ _ _ _ "selector_inlet_block" (List_ l_in)
                   Hb4 ltac:(done) eq_refl) Hsb2) as Hb6.
  apply bind_Return in H as ([] & m7 & Hs2 & H).
  rewrite (setattr_plain _ self) in Hs2 by done. injection Hs2 as <-.
  apply bind_Return in H as ([] & m8 & Hp1 & H).
  pose proof (add_port_objects_built cfg self sb ds Inlet _ _ _
                (built_assigned_self _ _ _ _ _ "selector_outlet_block" (List_ l_out)
                   Hb6 ltac:(done) eq_refl) Hp1) as Hb8.
  apply bind_Return in H as ([] & m9 & Hp2 & H).
  pose proof (add_port_objects_built cfg self sb ds Outlet _ _ _ Hb8 Hp2) as Hb9.
  apply bind_Return in H as ([] & m10 & Hw1 & H).
  pose proof (wiring_built cfg self sb ds Inlet _ _ Hb9 Hw1) as Hb10.
  apply bind_Return in H as ([] & m11 & Hw2 & H).
  pose proof (wiring_built cfg self sb ds Outlet _ _ Hb10 Hw2) as Hb11.
  injection H as <-.
  exists sb, ds, m1, m2, m3, l_in, m4, l_out, m6, m8, m9, m10, m11.
  split_and!; try done.
  exact (port_stage_self_step cfg self m3 l_in m4 l_out m6 m8 m9
           Hsb1 Hsb2 Hp1 Hp2).
Qed.

(** * What the wiring loops add *)

(** The branches an entry of a wiring table puts an edge in: the branch
    with the entry's own index for a list of at most one point, the
    branches 1, 2, ... for a longer list. *)
Definition targets (item : Z * list conn_point) : list Z :=
  let '(k, ports) := item in
  if bool_decide (1 < length ports)%nat then seqZ 1 (Z.of_nat (length ports))
  else [k].

Lemma fst_enumerate_from {X} (start : Z) (xs : list X) :
  (enumerate_from start xs).*1 = seqZ start (Z.of_nat (length xs)).
Proof.
  revert start. induction xs as [|x xs IH]; intros start; [done|].
  cbn [enumerate_from length fmap list_fmap]. rewrite IH.
  rewrite (seqZ_cons start) by lia. do 2 f_equal; lia.
Qed.

Section WiringEffects.

Variable self : positive.
Variable port_name arc_name : Z → string.
Variable mk_arc : component → conn_point → component.

Hypothesis mk_arc_arc : ∀ s p, ∃ a b, mk_arc s p = Arc_ a b.
Hypothesis arc_name_edge : ∀ i, edge_name (arc_name i) = true.
Hypothesis arc_name_inj : ∀ i j, arc_name i = arc_name j → i = j.
Hypothesis arc_name_selector : ∀ i, arc_name i ≠ "selector_block".
Hypothesis arc_name_branch : ∀ i j, arc_name i ≠ unit_disjunct_ j.
Hypothesis arc_name_port : ∀ i k, arc_name i ≠ port_name k.

Local Abbreviation place_edge' := (place_edge self port_name arc_name mk_arc).
Local Abbreviation fan' := (fan self port_name arc_name mk_arc).
Local Abbreviation wire' := (wire self port_name arc_name mk_arc).

(** Between [m] and [m'] members were only added, each of them an arc
    under the name of an edge, inside the branch of that edge's number;
    parents, values and the record of calls are as they were. *)
Definition edge_step (m m' : model) : Prop :=
  (∀ b n c, members m b !! n = Some c → members m' b !! n = Some c) ∧
  (∀ b n c, members m b !! n = None → members m' b !! n = Some c →
     (∃ i, n = arc_name i ∧ branch_block self m i = Some b) ∧
     ∃ x y, c = Arc_ x y) ∧
  parent m' = parent m ∧ values m' = values m ∧ trace m' = trace m.

Lemma edge_step_branch_block m m' i :
  edge_step m m' → branch_block self m' i = branch_block self m i.
Proof.
  intros (Hkeep & Hnew & _).
  assert (Hsel : members m' self !! "selector_block"
                 = members m self !! "selector_block").
  { destruct (members m self !! "selector_block") as [c|] eqn:Hm;
      [by apply Hkeep|].
    destruct (members m' self !! "selector_block") as [c|] eqn:Hm'; [|done].
    destruct (Hnew _ _ _ Hm Hm') as [(j & Hj & _) _].
    symmetry in Hj. by apply arc_name_selector in Hj. }
  unfold branch_block, branch. rewrite Hsel.
  destruct (members m self !! "selector_block") as [sbc|]; [|done]. simpl.
  destruct (block_of sbc) as [sb|]; [|done]. simpl.
  destruct (members m sb !! unit_disjunct_ i) as [c|] eqn:Hm;
    [by rewrite (Hkeep _ _ _ Hm)|].
  destruct (members m' sb !! unit_disjunct_ i) as [c|] eqn:Hm'; [|done].
  destruct (Hnew _ _ _ Hm Hm') as [(j & Hj & _) _].
  symmetry in Hj. by apply arc_name_branch in Hj.
Qed.

Local Instance edge_step_preorder : PreOrder edge_step.
Proof.
  split.
  - intros m. split_and!; try done. intros b n c H1 H2. congruence.
  - intros m1 m2 m3 H12 H23.
    pose proof H12 as (Hk1 & Hn1 & Hp1 & Hv1 & Ht1).
    pose proof H23 as (Hk2 & Hn2 & Hp2 & Hv2 & Ht2).
    split_and!; [| |congruence..].
    + intros b n c H. by apply Hk2, Hk1.
    + intros b n c Hm1 Hm3.
      destruct (members m2 b !! n) as [c2|] eqn:Hm2.
      * rewrite (Hk2 _ _ _ Hm2) in Hm3. injection Hm3 as <-. by eapply Hn1.
      * destruct (Hn2 _ _ _ Hm2 Hm3) as [(i & -> & Hb) Harc].
        split; [|done]. exists i. split; [done|].
        by rewrite <-(edge_step_branch_block m1 m2).
Qed.

Lemma edge_step_place_edge k i p : keeps edge_step (place_edge' k i p).
Proof.
  intros m. destruct (place_edge' k i p m) as [[] m'|e m'] eqn:H.
  - apply (place_edge_Return self port_name arc_name mk_arc mk_arc_arc arc_name_edge) in H
      as (udc & d & port & Hb & Hd & Hp & Hfree & _ & ->). simpl.
    split_and!; [| |done..].
    + intros b n c Hc. rewrite lookup_after_edge. case_decide as Heq; [|done].
      destruct Heq as [-> ->]. congruence.
    + intros b n c Hnone. rewrite lookup_after_edge.
      case_decide as Heq; [|congruence]. destruct Heq as [-> ->].
      intros [= <-]. split; [|apply mk_arc_arc].
      exists i. split; [done|]. unfold branch_block. by rewrite Hb.
  - apply (place_edge_Raise self port_name arc_name mk_arc mk_arc_arc) in H
      as [-> _]. simpl. reflexivity.
Qed.

Lemma edge_step_fan k ports c : keeps edge_step (fan' k ports c).
Proof.
  revert c. induction ports as [|p rest IH]; intros c; simpl;
    [apply (keeps_ret edge_step)|].
  apply (keeps_bind edge_step); [apply edge_step_place_edge | intros _; apply IH].
Qed.

Lemma edge_step_wire item : keeps edge_step (wire' item).
Proof.
  destruct item as [k [|p [|q rest]]]; intros m.
  - rewrite wire_empty. repeat case_match; simpl; reflexivity.
  - rewrite wire_single. apply edge_step_place_edge.
  - apply (edge_step_fan k (p :: q :: rest) 1).
Qed.

Lemma edge_step_wiring items : keeps edge_step (for_each items wire').
Proof. apply (keeps_for_each edge_step), edge_step_wire. Qed.

(** A member that is new after a list of edges is one of the edges. *)
Lemma edges_placed_new arc_of edges m m' b n :
  edges_placed self arc_name arc_of edges m m' →
  members m b !! n = None → is_Some (members m' b !! n) →
  ∃ i, i ∈ edges.*1 ∧ n = arc_name i ∧ branch_block self m i = Some b.
Proof.
  intros (_ & Hframe & _) Hnone Hsome.
  destruct (decide (Exists (λ e : Z * conn_point,
              branch_block self m e.1 = Some b ∧ n = arc_name e.1) edges))
    as [Hex|Hno].
  - apply Exists_exists in Hex as ([i p] & Hin & Hb & Hn). simpl in *.
    exists i. split_and!; [|done..]. apply list_elem_of_fmap. by exists (i, p).
  - rewrite Hframe, Hnone in Hsome; [by destruct Hsome|].
    intros i p Hin Hb Hn. apply Hno, Exists_exists. by exists (i, p).
Qed.

(** The edges of one round are the edges of its targets. *)
Lemma wire_Return_targets k ports m m' :
  wire' (k, ports) m = Return tt m' →
  ports ≠ [] ∧
  ∃ arc_of edges, edges.*1 = targets (k, ports) ∧
    edges_placed self arc_name arc_of edges m m'.
Proof.
  intros H.
  apply (wire_Return self port_name arc_name mk_arc mk_arc_arc arc_name_edge arc_name_inj
           arc_name_selector arc_name_branch arc_name_port) in H
    as (port & _ & [(p & -> & H) | [Hlen H]]).
  - split; [done|]. by exists (mk_arc port), [(k, p)].
  - split; [intros ->; simpl in Hlen; lia|].
    exists (mk_arc port), (enumerate_from 1 ports).
    split; [|done]. unfold targets. rewrite bool_decide_eq_true_2 by done.
    apply fst_enumerate_from.
Qed.

Lemma targets_NoDup item : NoDup (targets item).
Proof.
  destruct item as [k ports]. unfold targets. case_bool_decide.
  - apply NoDup_seqZ.
  - apply NoDup_singleton.
Qed.

Lemma wiring_Return_targets items m m' :
  for_each items wire' m = Return tt m' →
  NoDup (items ≫= targets) ∧
  (∀ i, i ∈ items ≫= targets →
     ∃ d, branch_block self m i = Some d ∧
          members m d !! arc_name i = None ∧
          is_Some (members m' d !! arc_name i)) ∧
  (∀ b n, members m b !! n = None → is_Some (members m' b !! n) →
     ∃ i, i ∈ items ≫= targets ∧ n = arc_name i ∧ branch_block self m i = Some b) ∧
  (∀ k ports, (k, ports) ∈ items → ports ≠ []).
Proof.
  revert m. induction items as [|[k ports] items IH]; intros m.
  - intros [= <-]. split_and!.
    + apply NoDup_nil_2.
    + by intros i ?%elem_of_nil.
    + intros b n Hnone [c Hc]. congruence.
    + by intros k ports ?%elem_of_nil.
  - rewrite for_each_cons.
    destruct (wire' (k, ports) m) as [[] m1|] eqn:Hround; [|done]. intros Hrest.
    destruct (IH _ Hrest) as (Hnd & Hmarks & Hnews & Hne). clear IH.
    destruct (wire_Return_targets _ _ _ _ Hround)
      as (Hports & arc_of & edges & Hfst & Hedges).
    pose proof (edge_step_wire (k, ports) m) as Hstep1. rewrite Hround in Hstep1.
    pose proof (edge_step_wiring items m1) as Hstep2. rewrite Hrest in Hstep2.
    simpl in Hstep1, Hstep2.
    pose proof Hstep1 as (Hk1 & _). pose proof Hstep2 as (Hk2 & _).
    assert (Hfirst : ∀ i, i ∈ targets (k, ports) →
      ∃ d, branch_block self m i = Some d ∧ members m d !! arc_name i = None ∧
           is_Some (members m1 d !! arc_name i)).
    { intros i Hi. rewrite <-Hfst in Hi.
      apply list_elem_of_fmap in Hi as ([i' p] & -> & Hin).
      destruct Hedges as (Hplaced & _).
      destruct (Hplaced _ _ Hin) as (d & ? & ? & ?). exists d. eauto. }
    cbn [mbind list_bind]. split_and!.
    + apply NoDup_app. split_and!; [apply targets_NoDup | | done].
      intros i Hi Hi'.
      destruct (Hfirst i Hi) as (d & Hb & _ & [c Hc]).
      destruct (Hmarks i Hi') as (d' & Hb' & Hfree & _).
      rewrite (edge_step_branch_block m m1) in Hb' by done. congruence.
    + intros i [Hi|Hi]%elem_of_app.
      * destruct (Hfirst i Hi) as (d & Hb & Hfree & [c Hc]).
        exists d. split_and!; [done..|]. exists c. by apply Hk2.
      * destruct (Hmarks i Hi) as (d & Hb & Hfree & Hsome).
        rewrite (edge_step_branch_block m m1) in Hb by done.
        exists d. split_and!; [done| |done].
        destruct (members m d !! arc_name i) as [c|] eqn:Hc; [|done].
        apply Hk1 in Hc. congruence.
    + intros b n Hnone Hsome.
      destruct (members m1 b !! n) as [c1|] eqn:Hm1.
      * destruct (edges_placed_new _ _ _ _ b n Hedges Hnone) as (i & Hi & ? & ?);
          [by rewrite Hm1|].
        exists i. rewrite Hfst in Hi. split_and!; [|done..].
        apply elem_of_app. by left.
      * destruct (Hnews b n Hm1 Hsome) as (i & Hi & ? & Hb).
        rewrite (edge_step_branch_block m m1) in Hb by done.
        exists i. split_and!; [|done..]. apply elem_of_app. by right.
    + intros k' ports' [[= -> ->] | Hin]%elem_of_cons; [done | by eapply Hne].
Qed.

End WiringEffects.

(** The generic facts, for one side of the selector. *)
Lemma edge_step_wiring_of s self items m :
  edge_step self (arc_name_of s) m (final (for_each items (wire_side s self) m)).
Proof.
  rewrite wiring_side_wire.
  apply (edge_step_wiring self (port_name_of s) (arc_name_of s) (arc_between s)).
  - apply arc_between_arc.
  - apply arc_name_of_edge.
  - apply arc_name_of_selector.
  - apply arc_name_of_branch.
Qed.

Lemma wiring_of_Return_targets s self items m m' :
  for_each items (wire_side s self) m = Return tt m' →
  NoDup (items ≫= targets) ∧
  (∀ i, i ∈ items ≫= targets →
     ∃ d, branch_block self m i = Some d ∧
          members m d !! arc_name_of s i = None ∧
          is_Some (members m' d !! arc_name_of s i)) ∧
  (∀ b n, members m b !! n = None → is_Some (members m' b !! n) →
     ∃ i, i ∈ items ≫= targets ∧ n = arc_name_of s i ∧
          branch_block self m i = Some b) ∧
  (∀ k ports, (k, ports) ∈ items → ports ≠ []).
Proof.
  rewrite wiring_side_wire.
  apply (wiring_Return_targets self (port_name_of s) (arc_name_of s) (arc_between s)).
  - apply arc_between_arc.
  - apply arc_name_of_edge.
  - apply arc_name_of_inj.
  - apply arc_name_of_selector.
  - apply arc_name_of_branch.
  - apply arc_name_of_port.
Qed.

(** [X2] Whether they complete or raise, the two wiring methods only add
    members: every member that was there is still there, unchanged; a
    member that is new is an arc, stored under the name of an edge inside
    the branch with that edge's number; and parents, port values and the
    record of calls are as they were. Edges placed before a failure stay. *)
Theorem wiring_only_adds_edges (cfg : config) (self : positive) (m : model) :
  edge_step self inlet_to_unit_arc_ m
    (final (arc_selector_inlet_to_unit cfg self m)) ∧
  edge_step self unit_to_outlet_arc_ m
    (final (arc_unit_outlet_to_selector cfg self m)).
Proof.
  split.
  - apply (edge_step_wiring_of Inlet).
  - apply (edge_step_wiring_of Outlet).
Qed.

(** [X3] When a wiring loop completes, the entries of its table have put
    their edges into pairwise different branches: the branch numbers the
    entries claim, their own index for a list of one point and 1, 2, ...
    for a longer list, are all different, and no list is empty. Each
    claimed branch was there with the edge's name free and now holds the
    edge, and no member is new but these edges. *)
Theorem wiring_claims_each_branch_once (s : side) (cfg : config)
    (self : positive) (m m' : model) :
  for_each (wiring_of s cfg) (wire_side s self) m = Return tt m' →
  NoDup (wiring_of s cfg ≫= targets) ∧
  (∀ i, i ∈ wiring_of s cfg ≫= targets →
     ∃ d, branch_block self m i = Some d ∧
          members m d !! arc_name_of s i = None ∧
          is_Some (members m' d !! arc_name_of s i)) ∧
  (∀ b n, members m b !! n = None → is_Some (members m' b !! n) →
     ∃ i, i ∈ wiring_of s cfg ≫= targets ∧ n = arc_name_of s i ∧
          branch_block self m i = Some b) ∧
  (∀ k ports, (k, ports) ∈ wiring_of s cfg → ports ≠ []).
Proof. apply wiring_of_Return_targets. Qed.

Lemma wiring_claims_each_branch_once_witness :
  for_each (wiring_of Inlet two_reactors) (wire_side Inlet 2) two_reactors_unwired
  = Return tt (final (for_each (wiring_of Inlet two_reactors) (wire_side Inlet 2)
                        two_reactors_unwired)) ∧
  NoDup (wiring_of Inlet two_reactors ≫= targets) ∧
  wiring_of Inlet two_reactors ≫= targets = [1; 2].
Proof.
  assert (H : for_each (wiring_of Inlet two_reactors) (wire_side Inlet 2)
                two_reactors_unwired
              = Return tt (final (for_each (wiring_of Inlet two_reactors)
                                    (wire_side Inlet 2) two_reactors_unwired))).
  { apply returns_final. vm_compute. reflexivity. }
  split; [exact H|].
  split; [|reflexivity].
  exact (proj1 (wiring_claims_each_branch_once Inlet two_reactors 2 _ _ H)).
Defined.

(** [X4] A [build] that completes has accepted its wiring tables: on
    either side, the branch numbers the entries claim are pairwise
    different and all among 1..N, no list is empty, and every claimed
    branch holds its edge. *)
Theorem build_accepts_wiring_tables (s : side) (cfg : config) (self : positive)
    (m m' : model) :
  consistent m → self ∈ dom (blocks m) →
  build cfg self m = Return tt m' →
  NoDup (wiring_of s cfg ≫= targets) ∧
  (∀ k ports, (k, ports) ∈ wiring_of s cfg → ports ≠ []) ∧
  ∀ i, i ∈ wiring_of s cfg ≫= targets →
    1 ≤ i ≤ Z.of_nat (length (unit_disjunct cfg)) ∧
    ∃ d, branch_block self m' i = Some d ∧
         is_Some (members m' d !! arc_name_of s i).
Proof.
  intros Hc Hself Hbuild.
  destruct (build_Return_stages cfg self m m' Hc Hself Hbuild)
    as (sb & ds & m1 & m2 & m3 & l_in & m4 & l_out & m6 & m8 & m9 & m10 & m11
        & _ & _ & _ & _ & _ & _ & _ & _ & _ & _ & _
        & Hb9 & Hw1 & Hb10 & Hw2 & Hb11 & ->).
  pose proof (edge_step_wiring_of Outlet self (wiring_of Outlet cfg) m10) as Hout.
  rewrite Hw2 in Hout. simpl in Hout.
  assert (Hfinal : ∀ i, branch_block self
            (record (EvTransformation "network.expand_arcs" self) m11) i
            = branch_block self m11 i) by done.
  assert (Hrange : ∀ mx i d, built cfg self sb ds mx →
            branch_block self mx i = Some d →
            1 ≤ i ≤ Z.of_nat (length (unit_disjunct cfg))).
  { intros mx i d Hb Hd. unfold branch_block in Hd.
    destruct (branch self mx i) as [udc|] eqn:Hudc; [|done].
    destruct (built_branch _ _ _ _ _ _ _ Hb Hudc) as (j & d' & Hj & -> & _).
    apply lookup_lt_Some in Hj. destruct Hb as [_ _ Hn _]. lia. }
  destruct s.
  - destruct (wiring_of_Return_targets Inlet self _ _ _ Hw1)
      as (Hnd & Hmarks & _ & Hne).
    split; [exact Hnd|]. split; [exact Hne|]. intros i Hi.
    destruct (Hmarks i Hi) as (d & Hd & _ & [c Hc']).
    split; [exact (Hrange m9 i d Hb9 Hd)|]. exists d.
    rewrite Hfinal.
    rewrite (edge_step_branch_block self _ (arc_name_of_selector Outlet)
               (arc_name_of_branch Outlet) m10 m11) by done.
    rewrite (edge_step_branch_block self _ (arc_name_of_selector Inlet)
               (arc_name_of_branch Inlet) m9 m10).
    + split; [done|]. exists c. destruct Hout as (Hkeep & _). by apply Hkeep.
    + pose proof (edge_step_wiring_of Inlet self (wiring_of Inlet cfg) m9) as Hin.
      by rewrite Hw1 in Hin.
  - destruct (wiring_of_Return_targets Outlet self _ _ _ Hw2)
      as (Hnd & Hmarks & _ & Hne).
    split; [exact Hnd|]. split; [exact Hne|]. intros i Hi.
    destruct (Hmarks i Hi) as (d & Hd & _ & Hsome).
    split; [exact (Hrange m10 i d Hb10 Hd)|]. exists d.
    rewrite Hfinal.
    rewrite (edge_step_branch_block self _ (arc_name_of_selector Outlet)
               (arc_name_of_branch Outlet) m10 m11) by done.
    done.
Qed.

Lemma build_accepts_wiring_tables_witness :
  consistent flowsheet ∧ 2%positive ∈ dom (blocks flowsheet) ∧
  build two_reactors 2 flowsheet = Return tt two_reactors_built ∧
  NoDup (wiring_of Outlet two_reactors ≫= targets) ∧
  ∃ d, branch_block 2 two_reactors_built 2 = Some d ∧
       is_Some (members two_reactors_built d !! unit_to_outlet_arc_ 2).
Proof.
  split; [exact flowsheet_consistent|].
  split; [exact flowsheet_selector|].
  split; [exact two_reactors_build|].
  destruct (build_accepts_wiring_tables Outlet two_reactors 2 flowsheet
              two_reactors_built flowsheet_consistent flowsheet_selector
              two_reactors_build) as (Hnd & _ & Hmarks).
  split; [exact Hnd|].
  exact (proj2 (Hmarks 2 ltac:(vm_compute; set_solver))).
Defined.

(** * The names [build] stores components under *)

Lemma string_length_app (s1 s2 : string) :
  String.length (s1 +:+ s2) = (String.length s1 + String.length s2)%nat.
Proof. induction s1 as [|a s1 IH]; simpl; [done | by rewrite IH]. Qed.

Lemma string_app_inv_r (s1 s2 t : string) : s1 +:+ t = s2 +:+ t → s1 = s2.
Proof.
  revert s2. induction s1 as [|a s1 IH]; intros [|b s2] H; simpl in *.
  - done.
  - apply (f_equal String.length) in H. simpl in H.
    rewrite !string_length_app in H. simpl in H. lia.
  - apply (f_equal String.length) in H. simpl in H.
    rewrite !string_length_app in H. simpl in H. lia.
  - injection H as -> H. f_equal. by apply IH.
Qed.

Lemma state_inj p q : state_ p = state_ q → p = q.
Proof. apply string_app_inv_r. Qed.

Lemma port_name_of_inj s s' k k' :
  port_name_of s k = port_name_of s' k' → s = s' ∧ k = k'.
Proof.
  destruct s, s'; simpl.
  - by intros ->%inlet_inj.
  - names_differ.
  - names_differ.
  - by intros ->%outlet_inj.
Qed.

(** What [build] stores on the selector itself, inside [selector_block],
    and, next to the two indicator variables a disjunct comes with,
    inside a branch. *)
Inductive self_slot :=
| SlotSelectorBlock
| SlotStateList (s : side)
| SlotState (s : side) (k : Z)
| SlotPort (s : side) (k : Z).

Inductive table_slot :=
| SlotBranch (i : Z)
| SlotDisjunction.

Inductive branch_slot :=
| SlotEdge (s : side) (i : Z)
| SlotIndicator
| SlotBinaryIndicator.

Definition self_slot_name (x : self_slot) : string :=
  match x with
  | SlotSelectorBlock => "selector_block"
  | SlotStateList Inlet => "selector_inlet_block"
  | SlotStateList Outlet => "selector_outlet_block"
  | SlotState s k => state_ (port_name_of s k)
  | SlotPort s k => port_name_of s k
  end.

Definition table_slot_name (x : table_slot) : string :=
  match x with
  | SlotBranch i => unit_disjunct_ i
  | SlotDisjunction => "unit_disjunction"
  end.

Definition branch_slot_name (x : branch_slot) : string :=
  match x with
  | SlotEdge s i => arc_name_of s i
  | SlotIndicator => "indicator_var"
  | SlotBinaryIndicator => "binary_indicator_var"
  end.

Ltac other_name H :=
  exfalso; revert H;
  solve [ apply port_state_not_selector_block
        | apply port_name_not_selector_block
        | apply selector_inlet_block_not_state
        | apply selector_outlet_block_not_state
        | apply port_name_not_state
        | names_differ
        | match goal with s : side |- _ => destruct s; simpl; names_differ end ].

(** [X5] The names [build] makes up never collide: on the selector, in
    [selector_block] and in a branch, two components it stores have the
    same name only if they are the same kind of component for the same
    index, whatever the indices are. *)
Theorem generated_names_identify :
  (∀ x y, self_slot_name x = self_slot_name y → x = y) ∧
  (∀ x y, table_slot_name x = table_slot_name y → x = y) ∧
  (∀ x y, branch_slot_name x = branch_slot_name y → x = y).
Proof.
  split_and!.
  - intros [|[]|s k|s k] [|[]|s' k'|s' k']; simpl; intros H;
      try done; try (by other_name H); try (symmetry in H; by other_name H).
    + by apply state_inj, port_name_of_inj in H as [-> ->].
    + by apply port_name_of_inj in H as [-> ->].
  - intros [i|] [j|]; simpl; intros H; try done.
    by apply unit_disjunct_inj in H as ->.
  - intros [s i| |] [s' j| |]; simpl; intros H;
      try done; try (by other_name H); try (symmetry in H; by other_name H).
    destruct s, s'; simpl in H.
    + by apply inlet_to_unit_arc_inj in H as ->.
    + by apply inlet_arc_not_outlet_arc in H.
    + symmetry in H. by apply inlet_arc_not_outlet_arc in H.
    + by apply unit_to_outlet_arc_inj in H as ->.
Qed.

Lemma port_names_lookup s cfg (i : nat) :
  (i < length (wiring_of s cfg))%nat →
  port_names s cfg !! i = Some (port_name_of s (Z.of_nat i + 1)).
Proof.
  intros Hi.
  destruct s; simpl in *; unfold create_inlet_list, create_outlet_list, range;
    rewrite list_lookup_fmap, lookup_seqZ_lt by lia; by rewrite Z.add_comm.
Qed.

Lemma port_names_length s cfg :
  length (port_names s cfg) = length (wiring_of s cfg).
Proof.
  destruct s; simpl; unfold create_inlet_list, create_outlet_list, range;
    rewrite length_fmap, length_seqZ; lia.
Qed.

Lemma port_names_NoDup s cfg : NoDup (port_names s cfg).
Proof.
  destruct s; simpl; unfold create_inlet_list, create_outlet_list, range.
  - apply NoDup_fmap_2; [intros i j; apply inlet_inj | apply NoDup_seqZ].
  - apply NoDup_fmap_2; [intros i j; apply outlet_inj | apply NoDup_seqZ].
Qed.

(** [X6] The port names are made by position, not from the indices of
    the wiring tables: for a table of n entries, whatever their indices,
    [create_inlet_list] is [inlet_1], ..., [inlet_n] and
    [create_outlet_list] is [outlet_1], ..., [outlet_n], each without a
    repetition. *)
Theorem port_lists_by_position (cfg : config) :
  length (create_inlet_list cfg) = length (unit_disjunct_inlet cfg) ∧
  length (create_outlet_list cfg) = length (unit_disjunct_outlet cfg) ∧
  (∀ i : nat, (i < length (unit_disjunct_inlet cfg))%nat →
     create_inlet_list cfg !! i = Some (inlet_ (Z.of_nat i + 1))) ∧
  (∀ i : nat, (i < length (unit_disjunct_outlet cfg))%nat →
     create_outlet_list cfg !! i = Some (outlet_ (Z.of_nat i + 1))) ∧
  NoDup (create_inlet_list cfg) ∧ NoDup (create_outlet_list cfg).
Proof.
  split_and!.
  - apply (port_names_length Inlet).
  - apply (port_names_length Outlet).
  - apply (port_names_lookup Inlet).
  - apply (port_names_lookup Outlet).
  - apply (port_names_NoDup Inlet).
  - apply (port_names_NoDup Outlet).
Qed.

(** * State containers *)

Lemma state_block_loop_Return self t doc args names acc m :
  self ∈ dom (blocks m) → NoDup names →
  ∃ l m',
    state_block_loop self t doc args names acc m = Return (acc ++ l) m' ∧
    length l = length names ∧
    dom (blocks m) ⊆ dom (blocks m') ∧
    (∀ (i : nat) p, names !! i = Some p →
       ∃ b, l !! i = Some (StateBlock_ b doc args) ∧
            members m' self !! state_ p = Some (StateBlock_ b doc args) ∧
            (b ∉ dom (blocks m)) ∧ b ∈ dom (blocks m')) ∧
    (∀ (i j : nat) b d1 a1 d2 a2,
       l !! i = Some (StateBlock_ b d1 a1) → l !! j = Some (StateBlock_ b d2 a2) →
       i = j).
Proof.
  revert acc m. induction names as [|p names IH]; intros acc m Hself Hnd.
  - exists [], m. simpl. rewrite app_nil_r. split_and!; try done.
  - apply NoDup_cons in Hnd as [Hp Hnd].
    set (b := fresh (dom (blocks m))).
    set (c := StateBlock_ b doc args).
    set (m1 := set_members b ∅ m).
    set (m2 := assigned self (state_ p) c m1).
    assert (Hfresh : b ∉ dom (blocks m)) by apply is_fresh.
    assert (Hb2 : b ∈ dom (blocks m2)).
    { unfold m2, m1. rewrite blocks_assigned, blocks_set_members. set_solver. }
    assert (Hself2 : self ∈ dom (blocks m2)).
    { unfold m2. rewrite blocks_assigned. set_solver. }
    assert (Hdom2 : dom (blocks m) ⊆ dom (blocks m2)).
    { unfold m2, m1. rewrite blocks_assigned, blocks_set_members. set_solver. }
    assert (Hc2 : members m2 self !! state_ p = Some c).
    { unfold m2. rewrite members_assigned by done.
      rewrite decide_True by done. apply lookup_insert_eq. }
    destruct (IH (acc ++ [c]) m2 Hself2 Hnd)
      as (l & m' & Hloop & Hlen & Hdom & Hitems & Hdistinct).
    exists (c :: l), m'. split_and!.
    + cbn [state_block_loop]. unfold build_state_block.
      apply bind_Return. exists c, m1. split; [done|].
      apply bind_Return. exists tt, m2. split; [by apply setattr_plain|].
      apply bind_Return. exists c, m2.
      split; [by apply (getattr_found _ self)|].
      by rewrite <-app_assoc in Hloop.
    + simpl. by rewrite Hlen.
    + set_solver.
    + intros [|i] q Hq; simpl in Hq.
      * injection Hq as <-. exists b. split_and!; [done| |done|by apply Hdom].
        pose proof (self_step_state_block_loop self
                      (λ n, ∃ q, q ∈ names ∧ n = state_ q) t doc args names
                      (acc ++ [c]) (λ q Hq, ex_intro _ q (conj Hq eq_refl)) m2) as Hstep.
        rewrite Hloop in Hstep. destruct (Hstep Hself2) as (_ & _ & _ & Hframe).
        simpl in Hframe. rewrite Hframe; [done|].
        by intros (q & Hq & ->%state_inj).
      * destruct (Hitems i q Hq) as (b' & ? & ? & Hnew & ?).
        exists b'. split_and!; [done..| |done]. intros ?. by apply Hnew, Hdom2.
    + intros [|i] [|j] b' d1 a1 d2 a2 Hi Hj; simpl in Hi, Hj; [done| | |].
      * injection Hi as <- <- <-.
        apply list_elem_of_lookup_2, list_elem_of_lookup_1 in Hj as [j' Hj'].
        assert (Hj'' := Hj'). apply lookup_lt_Some in Hj''. rewrite Hlen in Hj''.
        destruct (lookup_lt_is_Some_2 names j' Hj'') as [q Hq].
        destruct (Hitems j' q Hq) as (b' & Hb' & _ & Hnew & _).
        rewrite Hj' in Hb'. injection Hb' as <- _ _. done.
      * injection Hj as <- <- <-.
        apply list_elem_of_lookup_2, list_elem_of_lookup_1 in Hi as [i' Hi'].
        assert (Hi'' := Hi'). apply lookup_lt_Some in Hi''. rewrite Hlen in Hi''.
        destruct (lookup_lt_is_Some_2 names i' Hi'') as [q Hq].
        destruct (Hitems i' q Hq) as (b' & Hb' & _ & Hnew & _).
        rewrite Hi' in Hb'. injection Hb' as <- _ _. done.
      * f_equal. by eapply Hdistinct.
Qed.

(** [X7] For a template that is given and port names without a
    repetition, [add_port_state_block] completes. It returns one state
    container per name, in the order of the names, each a new object of
    its own, documented with the direction, and built with the template's
    arguments except that [has_phase_equilibrium] is forced to [False] and
    [defined_state] to [True]. The selector holds the container of name
    [p] under [p_state]; nothing else changes but these members of the
    selector. *)
Theorem add_port_state_block_makes_state_blocks (self : positive) (t : template)
    (names : list string) (is_inlet : bool) (m : model) :
  self ∈ dom (blocks m) → NoDup names →
  ∃ l m',
    add_port_state_block self (Some t) names is_inlet m = Return l m' ∧
    length l = length names ∧
    (∀ (i : nat) p, names !! i = Some p →
       ∃ b args,
         l !! i = Some (StateBlock_ b ("Selector Unit " +:+ direction is_inlet) args) ∧
         members m' self !! state_ p = l !! i ∧
         (b ∉ dom (blocks m)) ∧
         args !! "has_phase_equilibrium" = Some false ∧
         args !! "defined_state" = Some true ∧
         ∀ key, key ≠ "has_phase_equilibrium" → key ≠ "defined_state" →
                args !! key = property_package_args t !! key) ∧
    (∀ (i j : nat) b d1 a1 d2 a2,
       l !! i = Some (StateBlock_ b d1 a1) → l !! j = Some (StateBlock_ b d2 a2) →
       i = j) ∧
    (∀ b, b ∈ dom (blocks m) → b ≠ self → members m' b = members m b) ∧
    (∀ n, (∀ p, p ∈ names → n ≠ state_ p) →
          members m' self !! n = members m self !! n).
Proof.
  intros Hself Hnd. unfold add_port_state_block.
  destruct (state_block_loop_Return self t ("Selector Unit " +:+ direction is_inlet)
              (<["defined_state" := true]>
                 (<["has_phase_equilibrium" := false]> (property_package_args t)))
              names [] m Hself Hnd)
    as (l & m' & Hloop & Hlen & _ & Hitems & Hdistinct).
  exists l, m'. split_and!; [done | done | | done | |].
  - intros i p Hp. destruct (Hitems i p Hp) as (b & Hl & Hm & Hnew & _).
    exists b, (<["defined_state" := true]>
                 (<["has_phase_equilibrium" := false]> (property_package_args t))).
    split_and!; [done | congruence | done | | |].
    + by rewrite lookup_insert_ne, lookup_insert_eq.
    + by rewrite lookup_insert_eq.
    + intros key H1 H2. by rewrite !lookup_insert_ne.
  - pose proof (self_step_state_block_loop self
                  (λ n, ∃ q, q ∈ names ∧ n = state_ q) t
                  ("Selector Unit " +:+ direction is_inlet)
                  (<["defined_state" := true]>
                     (<["has_phase_equilibrium" := false]> (property_package_args t)))
                  names [] (λ q Hq, ex_intro _ q (conj Hq eq_refl)) m) as Hstep.
    rewrite Hloop in Hstep. by destruct (Hstep Hself) as (_ & _ & ? & _).
  - pose proof (self_step_state_block_loop self
                  (λ n, ∃ q, q ∈ names ∧ n = state_ q) t
                  ("Selector Unit " +:+ direction is_inlet)
                  (<["defined_state" := true]>
                     (<["has_phase_equilibrium" := false]> (property_package_args t)))
                  names [] (λ q Hq, ex_intro _ q (conj Hq eq_refl)) m) as Hstep.
    rewrite Hloop in Hstep. destruct (Hstep Hself) as (_ & _ & _ & Hframe).
    intros n Hn. apply Hframe. intros (q & Hq & ->). by apply (Hn q).
Qed.

Lemma add_port_state_block_makes_state_blocks_witness :
  2%positive ∈ dom (blocks flowsheet) ∧ NoDup ["inlet_1"; "inlet_2"] ∧
  ∃ l m',
    add_port_state_block 2 (Some properties) ["inlet_1"; "inlet_2"] true flowsheet
    = Return l m' ∧
    length l = 2%nat.
Proof.
  assert (Hnd : NoDup ["inlet_1"; "inlet_2"]).
  { apply NoDup_cons. split; [|apply NoDup_singleton].
    intros H%list_elem_of_singleton. discriminate H. }
  split; [exact flowsheet_selector|]. split; [exact Hnd|].
  destruct (add_port_state_block_makes_state_blocks 2 properties
              ["inlet_1"; "inlet_2"] true flowsheet flowsheet_selector Hnd)
    as (l & m' & Hrun & Hlen & _).
  exists l, m'. split; [exact Hrun | exact Hlen].
Defined.

Lemma add_port_state_block_returns self t s cfg is_inlet m :
  self ∈ dom (blocks m) →
  ∃ l m', add_port_state_block self (Some t) (port_names s cfg) is_inlet m
          = Return l m'.
Proof.
  intros Hself. unfold add_port_state_block.
  destruct (state_block_loop_Return self t ("Selector Unit " +:+ direction is_inlet)
              (<["defined_state" := true]>
                 (<["has_phase_equilibrium" := false]> (property_package_args t)))
              (port_names s cfg) [] m Hself (port_names_NoDup s cfg))
    as (l & m' & Hloop & _).
  by exists l, m'.
Qed.

Lemma bind_step {A B} (c : M A) (k : A → M B) m a m1 :
  c m = Return a m1 → (c ≫= k) m = k a m1.
Proof. intros H. unfold mbind, M_bind, bind. by rewrite H. Qed.

(** [X8] [build] needs both templates, [unit_source] and [unit_sink],
    also when there is no port to make a state container for: without
    one of them it never completes, and once the candidates are in
    their branches it raises the [AttributeError] of reading [config]
    from [None]. *)
Theorem build_needs_both_templates (cfg : config) (self : positive) (m : model) :
  unit_source cfg = None ∨ unit_sink cfg = None →
  raised (build cfg self m) ≠ None ∧
  (self ∈ dom (blocks m) →
   ∀ m3,
     (UnitModelBlockData_build cfg self ;;
      b ← Block;
      setattr (this self) "selector_block" b ;;
      create_unit_disjunct cfg self ;;
      add_units_to_disjunct cfg self) m = Return tt m3 →
     raised (build cfg self m) = Some (AttributeError "config")).
Proof.
  intros Hnone. split.
  - intros Hret. apply returns_final in Hret. unfold build in Hret.
    apply bind_Return in Hret as (? & ? & _ & H).
    do 4 (apply bind_Return in H as (? & ? & _ & H)).
    apply bind_Return in H as (l1 & m4 & Hsrc & H).
    apply bind_Return in H as (? & ? & _ & H).
    apply bind_Return in H as (l2 & m6 & Hsnk & H).
    destruct Hnone as [Hn|Hn]; [by rewrite Hn in Hsrc | by rewrite Hn in Hsnk].
  - intros Hself m3 Hprefix.
    apply bind_Return in Hprefix as ([] & m0' & H0 & H).
    apply bind_Return in H as (b & m0 & HBlock & H).
    apply bind_Return in H as ([] & m1 & Hset & H).
    apply bind_Return in H as ([] & m2 & Hcreate & Hmove).
    unfold build.
    rewrite (bind_step _ _ _ _ _ H0), (bind_step _ _ _ _ _ HBlock),
      (bind_step _ _ _ _ _ Hset), (bind_step _ _ _ _ _ Hcreate),
      (bind_step _ _ _ _ _ Hmove).
    destruct (unit_source cfg) as [t|] eqn:Hsrc; [|done].
    destruct Hnone as [|Hsnk]; [done|].
    assert (Hself3 : self ∈ dom (blocks m3)).
    { injection H0 as <-.
      pose proof (untouched_Block m) as (_ & _ & D0). rewrite HBlock in D0.
      pose proof (untouched_setattr (this self) "selector_block" b m0) as (_ & _ & D1).
      rewrite Hset in D1.
      pose proof (untouched_create_unit_disjunct cfg self m1) as (_ & _ & D2).
      rewrite Hcreate in D2.
      pose proof (untouched_add_units_to_disjunct cfg self m2) as (_ & _ & D3).
      rewrite Hmove in D3. simpl in *. set_solver. }
    destruct (add_port_state_block_returns self t Inlet cfg true m3 Hself3)
      as (l & m4 & Hrun). simpl in Hrun.
    rewrite (bind_step _ _ _ _ _ Hrun).
    rewrite (bind_step _ _ _ _ _
               (setattr_plain (this self) self "selector_inlet_block" (List_ l) m4
                  eq_refl eq_refl eq_refl)).
    by rewrite Hsnk.
Qed.

(** A configuration without [unit_source]. *)
Definition no_source : config :=
  Config False_ False_ [R1] None (Some properties) [] [] None true.

Lemma build_needs_both_templates_witness :
  (unit_source no_source = None ∨ unit_sink no_source = None) ∧
  2%positive ∈ dom (blocks flowsheet) ∧
  raised (build no_source 2 flowsheet) ≠ None ∧
  raised (build no_source 2 flowsheet) = Some (AttributeError "config").
Proof.
  assert (Hnone : unit_source no_source = None ∨ unit_sink no_source = None)
    by (left; reflexivity).
  assert (Hprefix :
    (UnitModelBlockData_build no_source 2 ;;
     b ← Block;
     setattr (this 2) "selector_block" b ;;
     create_unit_disjunct no_source 2 ;;
     add_units_to_disjunct no_source 2) flowsheet
    = Return tt (final ((UnitModelBlockData_build no_source 2 ;;
                         b ← Block;
                         setattr (this 2) "selector_block" b ;;
                         create_unit_disjunct no_source 2 ;;
                         add_units_to_disjunct no_source 2) flowsheet))).
  { apply returns_final. vm_compute. reflexivity. }
  destruct (build_needs_both_templates no_source 2 flowsheet Hnone)
    as [Hnever Hexact].
  split; [exact Hnone|]. split; [exact flowsheet_selector|].
  split; [exact Hnever | exact (Hexact flowsheet_selector _ Hprefix)].
Defined.

(** * The candidates in their branches *)

Lemma move_unit_loop_parents cfg self sb ds us (k : nat) m m' :
  drop k (unit_disjunct cfg) = us →
  relocating cfg self sb ds k m →
  for_each (enumerate_from (Z.of_nat k) us) (move_unit (Block_ sb)) m = Return tt m' →
  ∀ u, u ∈ us → is_Some (parent m !! u).
Proof.
  revert k m. induction us as [|u us IH]; intros k m Hus Hrel; simpl.
  - by intros _ u ?%elem_of_nil.
  - intros ([] & m1 & Hstep & Hloop)%bind_Return.
    assert (Hu : unit_disjunct cfg !! k = Some u).
    { pose proof (lookup_drop (unit_disjunct cfg) k 0) as H.
      by rewrite Hus, Nat.add_0_r in H. }
    assert (Hus' : drop (S k) (unit_disjunct cfg) = us).
    { replace (S k) with (k + 1)%nat by lia. by rewrite <-drop_drop, Hus. }
    destruct (lookup_lt_is_Some_2 ds k) as [d Hd].
    { rewrite (rel_count _ _ _ _ _ _ Hrel). by eapply lookup_lt_Some. }
    destruct (move_unit_Return _ _ _ _ _ _ _ _ _ Hrel Hu Hd Hstep)
      as (Hrel1 & _ & _ & Hpo & _).
    replace (Z.of_nat k + 1) with (Z.of_nat (S k)) in Hloop by lia.
    assert (Hfirst : is_Some (parent m !! u)).
    { assert (Htab : members m sb !! unit_disjunct_ (Z.of_nat k + 1)
                     = Some (Disjunct_ d)).
      { rewrite (lo_table _ _ _ _ _ (rel_layout _ _ _ _ _ _ Hrel)).
        by rewrite selection_table_branch, Hd. }
      pose proof (move_unit_eq sb k d u m Htab) as Heq.
      assert (Hstep' : move_unit (Block_ sb) (Z.of_nat k, u) m = Return tt m1)
        by exact Hstep.
      rewrite Heq in Hstep'.
      destruct (parent m !! u); [by eexists | done]. }
    intros u' [->|Hu']%elem_of_cons; [done|].
    destruct (decide (u' = u)) as [->|Hne]; [done|].
    rewrite <-(Hpo u' Hne). by apply (IH _ _ Hus' Hrel1 Hloop).
Qed.

(** [X9] [build] takes every candidate out of the block that holds it:
    a [build] that completes was given candidates that each had a parent
    block. A candidate that is attached nowhere stops [build]. *)
Theorem build_needs_attached_candidates (cfg : config) (self : positive)
    (m m' : model) :
  consistent m → self ∈ dom (blocks m) →
  build cfg self m = Return tt m' →
  ∀ u, u ∈ unit_disjunct cfg → is_Some (parent m !! u).
Proof.
  intros Hc Hself Hbuild u Hu.
  destruct (build_Return_stages cfg self m m' Hc Hself Hbuild)
    as (sb & ds & m1 & m2 & m3 & l_in & m4 & l_out & m6 & m8 & m9 & m10 & m11
        & Hassign & Hlay & Hcreate & Hasm & Hmove & _).
  destruct (selector_block_assigned self m Hc Hself)
    as (sb' & m1' & Hassign' & _ & _ & _ & _ & _ & Hpar1 & _).
  assert (m1' = m1) as -> by congruence.
  destruct (create_unit_disjunct_Return cfg self sb m1 Hlay)
    as (ds' & m2' & Hcreate' & _ & _ & _ & _ & Hpar2 & _).
  assert (m2' = m2) as -> by congruence.
  unfold add_units_to_disjunct, enumerate in Hmove.
  apply bind_Return in Hmove as (sbc & m2' & Hget & Hloop).
  apply getattr_Return in Hget as (-> & b & [= <-] & Hsb).
  rewrite (lo_selector _ _ _ _ _ (asm_layout _ _ _ _ _ Hasm)) in Hsb.
  injection Hsb as <-.
  destruct (move_unit_loop_parents cfg self sb ds _ 0 m2 m3 eq_refl
              (assembled_relocating _ _ _ _ _ Hasm) Hloop u Hu) as [p Hp].
  exists p. apply Hpar1. by rewrite <-Hpar2.
Qed.

Lemma build_needs_attached_candidates_witness :
  consistent flowsheet ∧ 2%positive ∈ dom (blocks flowsheet) ∧
  build two_reactors 2 flowsheet = Return tt two_reactors_built ∧
  is_Some (parent flowsheet !! R2).
Proof.
  split; [exact flowsheet_consistent|].
  split; [exact flowsheet_selector|].
  split; [exact two_reactors_build|].
  apply (build_needs_attached_candidates two_reactors 2 flowsheet
           two_reactors_built flowsheet_consistent flowsheet_selector
           two_reactors_build R2).
  apply list_elem_of_lookup_2 with 1%nat. reflexivity.
Defined.

(** [X10] When [build] completes for candidates that are pairwise
    different, every branch holds its own candidate: the candidate at
    position i of the list is a member of branch i, under its local name.
    No branch holds any other unit, under any name. *)
Theorem build_moves_candidates_into_branches (cfg : config) (self : positive)
    (m m' : model) :
  consistent m → self ∈ dom (blocks m) →
  NoDup (unit_disjunct cfg) →
  build cfg self m = Return tt m' →
  (∀ (i : nat) u, unit_disjunct cfg !! i = Some u →
     ∃ d, branch_block self m' (Z.of_nat i + 1) = Some d ∧
          members m' d !! local_name u = Some (Unit_ u)) ∧
  (∀ (i : nat) d n u,
     branch_block self m' (Z.of_nat i + 1) = Some d →
     members m' d !! n = Some (Unit_ u) →
     unit_disjunct cfg !! i = Some u ∧ n = local_name u).
Proof.
  intros Hc Hself Hnd Hbuild.
  destruct (build_Return_stages cfg self m m' Hc Hself Hbuild)
    as (sb & ds & m1 & m2 & m3 & l_in & m4 & l_out & m6 & m8 & m9 & m10 & m11
        & _ & _ & _ & Hasm & Hmove & Hb3 & _ & _ & _ & _ & Hports
        & Hb9 & Hw1 & Hb10 & Hw2 & Hb11 & ->).
  assert (Hb' : built cfg self sb ds
                  (record (EvTransformation "network.expand_arcs" self) m11))
    by by apply (built_same_store _ _ _ _ m11).
  assert (Hbranch : ∀ (i : nat),
    branch_block self (record (EvTransformation "network.expand_arcs" self) m11)
      (Z.of_nat i + 1) = ds !! i).
  { intros i. unfold branch_block.
    rewrite (built_branch_lookup _ _ _ _ _ _ Hb'). by destruct (ds !! i). }
  split.
  - intros i u Hu.
    destruct (add_units_to_disjunct_Return _ _ _ _ _ _ Hasm Hmove)
      as (_ & _ & Hpar & _).
    destruct (Hpar u (list_elem_of_lookup_2 _ _ _ Hu)) as (d & Hd & Hp).
    apply list_elem_of_lookup_1 in Hd as [j Hj].
    pose proof (built_consistent _ _ _ _ _ Hb3 u d Hp) as Hmem.
    destruct (built_branches _ _ _ _ _ Hb3 j d _ _ Hj Hmem) as [Hj' _].
    assert (j = i) as -> by by eapply NoDup_lookup.
    exists d. rewrite Hbranch. split; [done|].
    change (members m11 d !! local_name u = Some (Unit_ u)).
    pose proof (edge_step_wiring_of Outlet self (wiring_of Outlet cfg) m10) as Hout.
    rewrite Hw2 in Hout. destruct Hout as (Hkeep2 & _). apply Hkeep2.
    pose proof (edge_step_wiring_of Inlet self (wiring_of Inlet cfg) m9) as Hin.
    rewrite Hw1 in Hin. destruct Hin as (Hkeep1 & _). apply Hkeep1.
    pose proof (built_layout _ _ _ _ _ Hb3) as [_ _ Hdist Halloc].
    destruct (Hports (Halloc self ltac:(by left))) as (_ & _ & Hothers & _).
    rewrite Hothers; [done | | ].
    + apply Halloc. do 2 right. by eapply list_elem_of_lookup_2.
    + intros ->. apply NoDup_cons in Hdist as [Hself' _]. apply Hself'.
      right. by eapply list_elem_of_lookup_2.
  - intros i d n u Hd Hmem. rewrite Hbranch in Hd.
    apply (built_branches _ _ _ _ _ Hb' i d n (Unit_ u) Hd Hmem).
Qed.

Lemma build_moves_candidates_into_branches_witness :
  consistent flowsheet ∧ 2%positive ∈ dom (blocks flowsheet) ∧
  NoDup (unit_disjunct two_reactors) ∧
  build two_reactors 2 flowsheet = Return tt two_reactors_built ∧
  ∃ d, branch_block 2 two_reactors_built 2 = Some d ∧
       members two_reactors_built d !! "R2" = Some (Unit_ R2).
Proof.
  assert (Hnd : NoDup (unit_disjunct two_reactors)).
  { apply NoDup_cons. split; [|apply NoDup_singleton].
    intros H%list_elem_of_singleton. discriminate H. }
  split; [exact flowsheet_consistent|].
  split; [exact flowsheet_selector|].
  split; [exact Hnd|].
  split; [exact two_reactors_build|].
  destruct (build_moves_candidates_into_branches two_reactors 2 flowsheet
              two_reactors_built flowsheet_consistent flowsheet_selector Hnd
              two_reactors_build) as [Hin _].
  exact (Hin 1%nat R2 eq_refl).
Defined.

(** * An initialization that completes *)

(** [X11] [initialize] completes on a selector in which every branch
    holds its candidate, an inlet edge between two ports, the first of
    which has a value, and an outlet edge, when every candidate's own
    [initialize] succeeds and leaves those values in place. What it
    records is then, branch after branch in the order of the candidates,
    the propagation along the branch's inlet edge followed by the call of
    the candidate's [initialize] with the caller's options: the state is
    always propagated before the candidate is initialized. The store of
    components is left as it is. *)
Theorem initialize_completes
    (unit_initialize : unit_model → kwargs → gmap port_obj Z → gmap port_obj Z + exn)
    (cfg : config) (self sb : positive) (options : kwargs)
    (ds : list positive) (ends : list (port_obj * port_obj)) (m : model) :
  members m self !! "selector_block" = Some (Block_ sb) →
  length ds = length (unit_disjunct cfg) →
  length ends = length (unit_disjunct cfg) →
  (∀ (i : nat) u d e,
     unit_disjunct cfg !! i = Some u → ds !! i = Some d → ends !! i = Some e →
     members m sb !! unit_disjunct_ (Z.of_nat i + 1) = Some (Disjunct_ d) ∧
     members m d !! local_name u = Some (Unit_ u) ∧
     members m d !! inlet_to_unit_arc_ (Z.of_nat i + 1)
       = Some (Arc_ (Port_ e.1) (Port_ e.2)) ∧
     is_Some (members m d !! unit_to_outlet_arc_ (Z.of_nat i + 1))) →
  (∀ e, e ∈ ends → is_Some (values m !! e.1)) →
  (∀ u v v' e, e ∈ ends → unit_initialize u options v = inl v' →
               is_Some (v !! e.1) → is_Some (v' !! e.1)) →
  (∀ u v, u ∈ unit_disjunct cfg → ∃ v', unit_initialize u options v = inl v') →
  ∃ m',
    initialize cfg self unit_initialize options m = Return tt m' ∧
    blocks m' = blocks m ∧ parent m' = parent m ∧
    trace m' = trace m ++ rounds options (unit_disjunct cfg) ends.
Proof.
  intros Hsel Hds Hends Hbranch Hval Hkeep Hok.
  destruct (initialize_loop_reaches unit_initialize
              (λ p, ∃ e, e ∈ ends ∧ p = e.1) sb options 0
              (unit_disjunct cfg) ds ends m (length (unit_disjunct cfg))
              Hds Hends Hbranch)
    as (m' & Hloop & Hbl & Hpa & Htrace & _).
  - intros e He. by exists e.
  - intros p (e & He & ->). by apply Hval.
  - intros u v v' p (e & He & ->). by apply Hkeep.
  - intros j u v _ Hu. apply Hok. by eapply list_elem_of_lookup_2.
  - exists m'. split_and!; [|done..|].
    + by apply (initialize_returns unit_initialize cfg self sb).
    + rewrite Htrace. by rewrite take_ge, (take_ge ends) by lia.
Qed.

Lemma initialize_completes_witness :
  members two_reactors_ready 2 !! "selector_block" = Some (Block_ 3) ∧
  ∃ m',
    initialize two_reactors 2 inert [] two_reactors_ready = Return tt m' ∧
    trace m' = trace two_reactors_ready
               ++ [EvPropagate (SelectorPort 6) (CandidatePort (inlet_of R1));
                   EvInitialize R1 [];
                   EvPropagate (SelectorPort 6) (CandidatePort (inlet_of R2));
                   EvInitialize R2 []].
Proof.
  set (ends := [(SelectorPort 6, CandidatePort (inlet_of R1));
                (SelectorPort 6, CandidatePort (inlet_of R2))]).
  assert (Hsel : members two_reactors_ready 2 !! "selector_block" = Some (Block_ 3))
    by (vm_compute; reflexivity).
  assert (Hbranch : ∀ (i : nat) u d e,
    unit_disjunct two_reactors !! i = Some u →
    [4; 5]%positive !! i = Some d → ends !! i = Some e →
    members two_reactors_ready 3 !! unit_disjunct_ (Z.of_nat i + 1)
      = Some (Disjunct_ d) ∧
    members two_reactors_ready d !! local_name u = Some (Unit_ u) ∧
    members two_reactors_ready d !! inlet_to_unit_arc_ (Z.of_nat i + 1)
      = Some (Arc_ (Port_ e.1) (Port_ e.2)) ∧
    is_Some (members two_reactors_ready d !! unit_to_outlet_arc_ (Z.of_nat i + 1))).
  { intros [|[|i]] u d e Hu Hd He.
    - injection Hu as <-. injection Hd as <-. injection He as <-.
      split; [vm_compute; reflexivity|]. split; [vm_compute; reflexivity|].
      split; [vm_compute; reflexivity | eexists; vm_compute; reflexivity].
    - injection Hu as <-. injection Hd as <-. injection He as <-.
      split; [vm_compute; reflexivity|]. split; [vm_compute; reflexivity|].
      split; [vm_compute; reflexivity | eexists; vm_compute; reflexivity].
    - discriminate Hu. }
  assert (Hval : ∀ e, e ∈ ends → is_Some (values two_reactors_ready !! e.1)).
  { intros e [->|[->|[]%elem_of_nil]%elem_of_cons]%elem_of_cons;
      eexists; vm_compute; reflexivity. }
  assert (Hkeep : ∀ u v v' e, e ∈ ends → inert u [] v = inl v' →
            is_Some (v !! e.1) → is_Some (v' !! e.1)).
  { intros u v v' e _ [= <-]. tauto. }
  assert (Hok : ∀ u v, u ∈ unit_disjunct two_reactors →
                  ∃ v', inert u [] v = inl v').
  { intros u v _. exists v. reflexivity. }
  split; [exact Hsel|].
  destruct (initialize_completes inert two_reactors 2 3 [] [4; 5]%positive ends
              two_reactors_ready Hsel eq_refl eq_refl Hbranch Hval Hkeep Hok)
    as (m' & Hrun & _ & _ & Htrace).
  exists m'. split; [exact Hrun | exact Htrace].
Defined.

(** * Ports that are not there *)

Lemma arc_name_not_port s s' i k : arc_name_of s i ≠ port_name_of s' k.
Proof. destruct s, s'; simpl; names_differ. Qed.

Lemma port_name_not_state_list s k :
  port_name_of s k ≠ "selector_inlet_block" ∧
  port_name_of s k ≠ "selector_outlet_block".
Proof. destruct s; simpl; split; names_differ. Qed.

(** Relocation adds no member to the selector itself. *)
Lemma move_unit_loop_absent cfg self sb ds us (k : nat) m m' n :
  drop k (unit_disjunct cfg) = us →
  relocating cfg self sb ds k m →
  for_each (enumerate_from (Z.of_nat k) us) (move_unit (Block_ sb)) m = Return tt m' →
  members m self !! n = None → members m' self !! n = None.
Proof.
  revert k m. induction us as [|u us IH]; intros k m Hus Hrel; simpl.
  - by intros [= <-].
  - intros ([] & m1 & Hstep & Hloop)%bind_Return Hnone.
    assert (Hu : unit_disjunct cfg !! k = Some u).
    { pose proof (lookup_drop (unit_disjunct cfg) k 0) as H.
      by rewrite Hus, Nat.add_0_r in H. }
    assert (Hus' : drop (S k) (unit_disjunct cfg) = us).
    { replace (S k) with (k + 1)%nat by lia. by rewrite <-drop_drop, Hus. }
    destruct (lookup_lt_is_Some_2 ds k) as [d Hd].
    { rewrite (rel_count _ _ _ _ _ _ Hrel). by eapply lookup_lt_Some. }
    destruct (move_unit_Return _ _ _ _ _ _ _ _ _ Hrel Hu Hd Hstep) as (Hrel1 & _).
    replace (Z.of_nat k + 1) with (Z.of_nat (S k)) in Hloop by lia.
    apply (IH _ _ Hus' Hrel1 Hloop).
    assert (Htab : members m sb !! unit_disjunct_ (Z.of_nat k + 1)
                   = Some (Disjunct_ d)).
    { rewrite (lo_table _ _ _ _ _ (rel_layout _ _ _ _ _ _ Hrel)).
      by rewrite selection_table_branch, Hd. }
    pose proof (move_unit_eq sb k d u m Htab) as Heq.
    assert (Hstep' : move_unit (Block_ sb) (Z.of_nat k, u) m = Return tt m1)
      by exact Hstep.
    rewrite Heq in Hstep'. destruct (parent m !! u) as [p|]; [|done].
    apply add_component_Return in Hstep' as (b & [= <-] & _ & _ & _ & _ & ->).
    assert (Hne : d ≠ self).
    { intros ->.
      destruct (laid_out_distinct _ _ _ _ _ (rel_layout _ _ _ _ _ _ Hrel))
        as (_ & Hself & _).
      apply Hself. by eapply list_elem_of_lookup_2. }
    rewrite members_with_member, decide_False by done.
    rewrite members_without_member. case_decide as Hp; [|done].
    rewrite Hp. apply lookup_delete_None. by right.
Qed.

Lemma edge_step_wire_side s self item m :
  edge_step self (arc_name_of s) m (final (wire_side s self item m)).
Proof.
  rewrite wire_side_wire.
  apply (edge_step_wire self (port_name_of s) (arc_name_of s) (arc_between s)).
  - apply arc_between_arc.
  - apply arc_name_of_edge.
  - apply arc_name_of_selector.
  - apply arc_name_of_branch.
Qed.

(** The edges leave the selector's own ports, present or absent, as they
    are. *)
Lemma edge_step_port s s' self m m' k :
  edge_step self (arc_name_of s) m m' →
  members m' self !! port_name_of s' k = members m self !! port_name_of s' k.
Proof.
  intros (Hkeep & Hnew & _).
  destruct (members m self !! port_name_of s' k) as [c|] eqn:Hm; [by apply Hkeep|].
  destruct (members m' self !! port_name_of s' k) as [c|] eqn:Hm'; [|done].
  destruct (Hnew _ _ _ Hm Hm') as [(i & Hi & _) _].
  symmetry in Hi. by apply arc_name_not_port in Hi.
Qed.

(** A wiring loop that completes has found the port of every index. *)
Lemma wiring_of_Return_ports s self items m m' :
  for_each items (wire_side s self) m = Return tt m' →
  ∀ k ports, (k, ports) ∈ items → is_Some (members m self !! port_name_of s k).
Proof.
  revert m. induction items as [|[k0 ports0] items IH]; intros m.
  - by intros _ k ports ?%elem_of_nil.
  - rewrite for_each_cons.
    destruct (wire_side s self (k0, ports0) m) as [[] m1|] eqn:Hround; [|done].
    intros Hrest k ports [[= -> ->] | Hin]%elem_of_cons.
    + apply wire_side_Return in Hround as (port & Hport & _). by exists port.
    + pose proof (edge_step_wire_side s self (k0, ports0) m) as Hstep.
      rewrite Hround in Hstep.
      rewrite <-(edge_step_port s s self m m1 k Hstep). by eapply IH.
Qed.

(** [X12] The selector gets its ports by position, and only when
    [construct_ports] is set. On a selector that has no member of the
    port's name, an entry of a wiring table stops [build] when its index
    is not one of the positions 1..n of its table, and every entry does
    when [construct_ports] is [False]. *)
Theorem build_needs_the_ports_it_wires (s : side) (cfg : config)
    (self : positive) (m : model) (k : Z) (ports : list conn_point) :
  consistent m → self ∈ dom (blocks m) →
  (k, ports) ∈ wiring_of s cfg →
  members m self !! port_name_of s k = None →
  construct_ports cfg = false
  ∨ ¬ (1 ≤ k ≤ Z.of_nat (length (wiring_of s cfg))) →
  raised (build cfg self m) ≠ None.
Proof.
  intros Hc Hself Hin Hnone Hbad Hret. apply returns_final in Hret.
  destruct (build_Return_stages cfg self m _ Hc Hself Hret)
    as (sb & ds & m1 & m2 & m3 & l_in & m4 & l_out & m6 & m8 & m9 & m10 & m11
        & Hassign & Hlay & Hcreate & Hasm & Hmove & Hb3 & _ & _ & _ & _ & Hports
        & Hb9 & Hw1 & Hb10 & Hw2 & _).
  destruct (selector_block_assigned self m Hc Hself)
    as (sb' & m1' & Hassign' & _ & _ & _ & Hnames1 & _).
  assert (m1' = m1) as -> by congruence.
  destruct (create_unit_disjunct_Return cfg self sb m1 Hlay)
    as (ds' & m2' & Hcreate' & _ & Hothers2 & _).
  assert (m2' = m2) as -> by congruence.
  pose proof (lay_layout _ _ _ _ Hlay) as [_ _ Hdist1 Halloc1].
  assert (H2 : members m2 self !! port_name_of s k = None).
  { rewrite Hothers2.
    - rewrite Hnames1; [done | apply port_name_not_selector_block].
    - apply Halloc1. by left.
    - intros ->. apply NoDup_cons in Hdist1 as [Hne _]. apply Hne. by left. }
  assert (H3 : members m3 self !! port_name_of s k = None).
  { unfold add_units_to_disjunct, enumerate in Hmove.
    apply bind_Return in Hmove as (sbc & m2' & Hget & Hloop).
    apply getattr_Return in Hget as (-> & b & [= <-] & Hsb).
    rewrite (lo_selector _ _ _ _ _ (asm_layout _ _ _ _ _ Hasm)) in Hsb.
    injection Hsb as <-.
    by apply (move_unit_loop_absent cfg self sb ds _ 0 m2 m3 _ eq_refl
                (assembled_relocating _ _ _ _ _ Hasm) Hloop). }
  assert (H9 : members m9 self !! port_name_of s k = None).
  { pose proof (built_layout _ _ _ _ _ Hb3) as [_ _ _ Halloc3].
    destruct (Hports (Halloc3 self ltac:(by left))) as (_ & _ & _ & Hframe).
    rewrite Hframe; [done|].
    intros [Heq | [Heq | (s' & k' & Hk' & [Heq | [Hcp Heq]])]].
    - by apply port_name_not_state_list in Heq.
    - by apply port_name_not_state_list in Heq.
    - by apply port_name_not_state in Heq.
    - apply port_name_of_inj in Heq as [-> ->].
      destruct Hbad as [Hbad|Hbad]; [congruence | done]. }
  destruct s.
  - destruct (wiring_of_Return_ports Inlet self _ _ _ Hw1 k ports Hin) as [c Hc'].
    congruence.
  - pose proof (edge_step_wiring_of Inlet self (wiring_of Inlet cfg) m9) as Hstep.
    rewrite Hw1 in Hstep.
    destruct (wiring_of_Return_ports Outlet self _ _ _ Hw2 k ports Hin) as [c Hc'].
    rewrite (edge_step_port Inlet Outlet self m9 m10 k Hstep) in Hc'. congruence.
Qed.

(** Two candidates on an inlet table whose one entry has index 2. *)
Definition indexed_from_two : config :=
  Config False_ False_ [R1; R2] (Some properties) (Some properties)
    [(2, [inlet_of R1; inlet_of R2])] [] None true.

Lemma build_needs_the_ports_it_wires_witness :
  consistent flowsheet ∧ 2%positive ∈ dom (blocks flowsheet) ∧
  (2, [inlet_of R1; inlet_of R2]) ∈ wiring_of Inlet indexed_from_two ∧
  members flowsheet 2 !! port_name_of Inlet 2 = None ∧
  ¬ (1 ≤ 2 ≤ Z.of_nat (length (wiring_of Inlet indexed_from_two))) ∧
  raised (build indexed_from_two 2 flowsheet) ≠ None.
Proof.
  assert (Hin : (2, [inlet_of R1; inlet_of R2]) ∈ wiring_of Inlet indexed_from_two)
    by (apply list_elem_of_lookup_2 with 0%nat; reflexivity).
  assert (Hnone : members flowsheet 2 !! port_name_of Inlet 2 = None)
    by (vm_compute; reflexivity).
  assert (Hk : ¬ (1 ≤ 2 ≤ Z.of_nat (length (wiring_of Inlet indexed_from_two))))
    by (simpl; lia).
  split; [exact flowsheet_consistent|].
  split; [exact flowsheet_selector|].
  split; [exact Hin|]. split; [exact Hnone|]. split; [exact Hk|].
  exact (build_needs_the_ports_it_wires Inlet indexed_from_two 2 flowsheet 2
           [inlet_of R1; inlet_of R2] flowsheet_consistent flowsheet_selector
           Hin Hnone (or_intror Hk)).
Defined.

(** * When a wiring loop completes *)

(** A table that can be wired on [m]: its entries claim pairwise
    different branches, none of its lists is empty, the selector has a
    port for every index, and every claimed branch is there with the
    name of its edge free. *)
Definition wirable (s : side) (self : positive)
    (items : list (Z * list conn_point)) (m : model) : Prop :=
  NoDup (items ≫= targets) ∧
  (∀ k ports, (k, ports) ∈ items →
     ports ≠ [] ∧ ∃ prt, members m self !! port_name_of s k = Some (Port_ prt)) ∧
  (∀ i, i ∈ items ≫= targets →
     ∃ d, branch_block self m i = Some d ∧ members m d !! arc_name_of s i = None).

Lemma constructible_arc_between s port p :
  constructible (arc_between s port p) = true ↔ ∃ prt, port = Port_ prt.
Proof.
  split.
  - destruct s, port; simpl; try done; eauto.
  - intros [prt ->]. by destruct s.
Qed.

Lemma wire_side_Return_port s self k ports m m' :
  wire_side s self (k, ports) m = Return tt m' →
  ∃ prt, members m self !! port_name_of s k = Some (Port_ prt).
Proof.
  rewrite wire_side_wire. destruct ports as [|p [|q rest]].
  - rewrite wire_empty. by repeat case_match.
  - rewrite wire_single.
    intros (_ & _ & port & _ & _ & Hp & _ & Hc & _)%(place_edge_Return _ _ _ _
      (arc_between_arc s) (arc_name_of_edge s)).
    apply constructible_arc_between in Hc as [prt ->]. by exists prt.
  - unfold wire. rewrite bool_decide_eq_true_2 by (simpl; lia).
    cbn [fan]. intros ([] & m1 & H & _)%bind_Return.
    apply (place_edge_Return _ _ _ _ (arc_between_arc s) (arc_name_of_edge s)) in H
      as (_ & _ & port & _ & _ & Hp & _ & Hc & _).
    apply constructible_arc_between in Hc as [prt ->]. by exists prt.
Qed.

Lemma branch_block_Some self m i d :
  branch_block self m i = Some d ↔
  ∃ udc, branch self m i = Some udc ∧ block_of udc = Some d.
Proof.
  unfold branch_block. destruct (branch self m i) as [udc|]; simpl.
  - split; [by exists udc | by intros (? & [= <-] & ?)].
  - split; [done | by intros (? & ? & _)].
Qed.

Lemma wirable_round s self k ports items m :
  wirable s self ((k, ports) :: items) m →
  ∃ m1, wire_side s self (k, ports) m = Return tt m1 ∧ wirable s self items m1.
Proof.
  intros (Hnd & Hports & Hfree). cbn [mbind list_bind] in Hnd, Hfree.
  apply NoDup_app in Hnd as (_ & Hdisjoint & Hnd).
  destruct (Hports k ports ltac:(by left)) as (Hne & prt & Hprt).
  assert (Hok : ∀ p, constructible (arc_between s (Port_ prt) p) = true).
  { intros p. apply constructible_arc_between. by exists prt. }
  assert (Hround : ∃ m1, wire_side s self (k, ports) m = Return tt m1).
  { destruct ports as [|p [|q rest]]; [done| |].
    - destruct (Hfree k) as (d & (udc & Hudc & Hd)%branch_block_Some & Hnone).
      { apply elem_of_app. left. by left. }
      eexists. rewrite wire_side_wire, wire_single.
      apply (place_edge_Return _ _ _ _ (arc_between_arc s) (arc_name_of_edge s)).
      exists udc, d, (Port_ prt). by split_and!.
    - rewrite wire_side_long by (simpl; lia).
      apply (fan_of_succeeds s self k _ 1 m (Port_ prt) Hprt Hok).
      intros j Hj. destruct (Hfree (1 + Z.of_nat j))
        as (d & (udc & Hudc & Hd)%branch_block_Some & Hnone).
      { apply elem_of_app. left. unfold targets.
        rewrite bool_decide_eq_true_2 by (simpl; lia).
        apply elem_of_seqZ. lia. }
      by exists udc, d. }
  destruct Hround as [m1 Hround]. exists m1. split; [done|].
  pose proof (edge_step_wire_side s self (k, ports) m) as Hstep.
  rewrite Hround in Hstep. simpl in Hstep.
  assert (Hone : for_each [(k, ports)] (wire_side s self) m = Return tt m1).
  { rewrite for_each_cons, Hround. done. }
  destruct (wiring_of_Return_targets s self _ _ _ Hone) as (_ & _ & Hnew & _).
  split_and!.
  - done.
  - intros k' ports' Hin. destruct (Hports k' ports' ltac:(by right))
      as (Hne' & prt' & Hprt').
    split; [done|]. exists prt'.
    by rewrite (edge_step_port s s self m m1 k' Hstep).
  - intros i Hi. destruct (Hfree i) as (d & Hd & Hnone).
    { apply elem_of_app. by right. }
    exists d. split.
    + by rewrite (edge_step_branch_block self _ (arc_name_of_selector s)
                    (arc_name_of_branch s) m m1).
    + destruct (members m1 d !! arc_name_of s i) as [c|] eqn:Hc; [|done].
      destruct (Hnew d (arc_name_of s i) Hnone) as (i' & Hi' & Heq & _);
        [by rewrite Hc|].
      apply arc_name_of_inj in Heq as <-. cbn [mbind list_bind] in Hi'.
      rewrite app_nil_r in Hi'. by destruct (Hdisjoint i Hi').
Qed.

Lemma wirable_returns s self items m :
  wirable s self items m →
  ∃ m', for_each items (wire_side s self) m = Return tt m'.
Proof.
  revert m. induction items as [|[k ports] items IH]; intros m Hw.
  - by exists m.
  - destruct (wirable_round s self k ports items m Hw) as (m1 & Hround & Hw1).
    destruct (IH m1 Hw1) as [m' Hrest]. exists m'.
    by rewrite for_each_cons, Hround.
Qed.

Lemma wiring_of_Return_port_objects s self items m m' :
  for_each items (wire_side s self) m = Return tt m' →
  ∀ k ports, (k, ports) ∈ items →
    ∃ prt, members m self !! port_name_of s k = Some (Port_ prt).
Proof.
  revert m. induction items as [|[k0 ports0] items IH]; intros m.
  - by intros _ k ports ?%elem_of_nil.
  - rewrite for_each_cons.
    destruct (wire_side s self (k0, ports0) m) as [[] m1|] eqn:Hround; [|done].
    intros Hrest k ports [[= -> ->] | Hin]%elem_of_cons.
    + by eapply wire_side_Return_port.
    + pose proof (edge_step_wire_side s self (k0, ports0) m) as Hstep.
      rewrite Hround in Hstep.
      rewrite <-(edge_step_port s s self m m1 k Hstep). by eapply IH.
Qed.

(** [X13] A wiring loop completes exactly on the tables that can be
    wired: the entries claim pairwise different branches (an entry with a
    list of one point its own index, an entry with a longer list the
    branches 1, 2, ...), no list is empty, the selector has a port for
    every index, and every claimed branch is there with the name of its
    edge free. On any other table the loop raises. *)
Theorem wiring_completes_iff (s : side) (cfg : config) (self : positive)
    (m : model) :
  raised (for_each (wiring_of s cfg) (wire_side s self) m) = None ↔
  wirable s self (wiring_of s cfg) m.
Proof.
  split.
  - intros Hret%returns_final.
    destruct (wiring_of_Return_targets s self _ _ _ Hret) as (Hnd & Hmarks & _ & Hne).
    split_and!; [done | |].
    + intros k ports Hin. split; [by eapply Hne|].
      by eapply wiring_of_Return_port_objects.
    + intros i Hi. destruct (Hmarks i Hi) as (d & ? & ? & _). by exists d.
  - intros Hw. destruct (wirable_returns s self _ m Hw) as [m' Hm'].
    by rewrite Hm'.
Qed.

(** * The state containers a completed [build] leaves *)

Definition template_of (s : side) (cfg : config) : option template :=
  match s with Inlet => unit_source cfg | Outlet => unit_sink cfg end.

Definition is_inlet_of (s : side) : bool :=
  match s with Inlet => true | Outlet => false end.

(** The arguments the state containers are built with. *)
Definition state_block_args (t : template) : gmap string bool :=
  <["defined_state" := true]>
    (<["has_phase_equilibrium" := false]> (property_package_args t)).

(** A text that starts with a letter is no numeral followed by a text
    that starts with another character. *)
Lemma letter_first_ne (a : ascii) (t u : string) (z : Z) :
  numeral a = false → (∀ t', u ≠ String a t') →
  String a t ≠ pretty z +:+ u.
Proof.
  intros Ha Hu. pose proof (pretty_Z_numeric z) as Hz.
  destruct (pretty z) as [|b r]; simpl.
  - apply not_eq_sym, Hu.
  - intros [= <- _]. simpl in Hz. by rewrite Ha in Hz.
Qed.

Lemma arc_name_not_state s s' i k : arc_name_of s i ≠ state_ (port_name_of s' k).
Proof.
  destruct s, s'; simpl.
  - unfold inlet_to_unit_arc_, state_, inlet_. simpl. intros [= H]. revert H.
    by apply letter_first_ne.
  - names_differ.
  - names_differ.
  - names_differ.
Qed.

Lemma arc_name_not_state_list s s' i :
  arc_name_of s i ≠ self_slot_name (SlotStateList s').
Proof. destruct s, s'; simpl; names_differ. Qed.

(** Members under a name that is no edge's name are as they were. *)
Lemma edge_step_other s self m m' b n :
  edge_step self (arc_name_of s) m m' → (∀ i, n ≠ arc_name_of s i) →
  members m' b !! n = members m b !! n.
Proof.
  intros (Hkeep & Hnew & _) Hn.
  destruct (members m b !! n) as [c|] eqn:Hm; [by apply Hkeep|].
  destruct (members m' b !! n) as [c|] eqn:Hm'; [|done].
  destruct (Hnew _ _ _ Hm Hm') as [(i & Hi & _) _]. by destruct (Hn i).
Qed.

(** The state containers of one side, right after they are made. *)
Lemma add_port_state_block_Return self t s cfg m l m' :
  self ∈ dom (blocks m) →
  add_port_state_block self (Some t) (port_names s cfg) (is_inlet_of s) m
    = Return l m' →
  self ∈ dom (blocks m') ∧ dom (blocks m) ⊆ dom (blocks m') ∧
  length l = length (wiring_of s cfg) ∧
  ∀ i : nat, (i < length (wiring_of s cfg))%nat →
    ∃ b, l !! i = Some (StateBlock_ b
                          ("Selector Unit " +:+ direction (is_inlet_of s))
                          (state_block_args t)) ∧
         members m' self !! state_ (port_name_of s (Z.of_nat i + 1)) = l !! i ∧
         (b ∉ dom (blocks m)).
Proof.
  intros Hself Hrun. unfold add_port_state_block in Hrun.
  destruct (state_block_loop_Return self t
              ("Selector Unit " +:+ direction (is_inlet_of s)) (state_block_args t)
              (port_names s cfg) [] m Hself (port_names_NoDup s cfg))
    as (l' & m'' & Hloop & Hlen & Hdom & Hitems & _).
  unfold state_block_args in Hloop at 1. rewrite Hloop in Hrun.
  injection Hrun as <- <-. rewrite port_names_length in Hlen.
  split_and!; [by apply Hdom | done | done |].
  intros i Hi.
  destruct (Hitems i _ (port_names_lookup s cfg i Hi)) as (b & Hl & Hm & Hnew & _).
  exists b. split_and!; [done | congruence | done].
Qed.

(** [X14] When [build] completes, the selector holds on either side one
    state container per entry of the wiring table, by position: the
    container of position i is stored under the port's name followed by
    [_state], it is a new object, documented with the direction and
    built from the side's template with [has_phase_equilibrium] forced to
    [False] and [defined_state] to [True]; and [selector_inlet_block] and
    [selector_outlet_block] list exactly these containers, in the order of
    the positions. *)
Theorem build_keeps_state_blocks (s : side) (cfg : config) (self : positive)
    (m m' : model) :
  consistent m → self ∈ dom (blocks m) →
  build cfg self m = Return tt m' →
  ∃ t l,
    template_of s cfg = Some t ∧
    members m' self !! self_slot_name (SlotStateList s) = Some (List_ l) ∧
    length l = length (wiring_of s cfg) ∧
    ∀ i : nat, (i < length (wiring_of s cfg))%nat →
      ∃ b, l !! i = Some (StateBlock_ b
                            ("Selector Unit " +:+ direction (is_inlet_of s))
                            (state_block_args t)) ∧
           members m' self !! state_ (port_name_of s (Z.of_nat i + 1)) = l !! i ∧
           (b ∉ dom (blocks m)).
Proof.
  intros Hc Hself Hbuild.
  destruct (build_Return_stages cfg self m m' Hc Hself Hbuild)
    as (sb & ds & m1 & m2 & m3 & l_in & m4 & l_out & m6 & m8 & m9 & m10 & m11
        & Hassign & _ & Hcreate & _ & Hmove & Hb3 & Hsb1 & Hsb2 & Hp1 & Hp2 & _
        & _ & Hw1 & _ & Hw2 & _ & ->).
  set (m5 := assigned self "selector_inlet_block" (List_ l_in) m4) in *.
  set (m7 := assigned self "selector_outlet_block" (List_ l_out) m6) in *.
  destruct (unit_source cfg) as [t1|] eqn:Hsrc; [|done].
  destruct (unit_sink cfg) as [t2|] eqn:Hsnk; [|done].
  assert (Hdom3 : dom (blocks m) ⊆ dom (blocks m3)).
  { pose proof (keeps_bind untouched Block
                  (λ b, setattr (this self) "selector_block" b) untouched_Block
                  (λ b, untouched_setattr _ _ _) m) as (_ & _ & D1).
    rewrite Hassign in D1.
    pose proof (untouched_create_unit_disjunct cfg self m1) as (_ & _ & D2).
    rewrite Hcreate in D2.
    pose proof (untouched_add_units_to_disjunct cfg self m2) as (_ & _ & D3).
    rewrite Hmove in D3. simpl in *. set_solver. }
  assert (Hself3 : self ∈ dom (blocks m3)) by by apply Hdom3.
  destruct (add_port_state_block_Return self t1 Inlet cfg m3 l_in m4 Hself3 Hsb1)
    as (Hself4 & Hdom4 & Hlen1 & Hitems1).
  assert (Hself5 : self ∈ dom (blocks m5)).
  { unfold m5. rewrite blocks_assigned. set_solver. }
  assert (Hdom5 : dom (blocks m4) ⊆ dom (blocks m5)).
  { unfold m5. rewrite blocks_assigned. set_solver. }
  destruct (add_port_state_block_Return self t2 Outlet cfg m5 l_out m6 Hself5 Hsb2)
    as (Hself6 & Hdom6 & Hlen2 & Hitems2).
  assert (Hself7 : self ∈ dom (blocks m7)).
  { unfold m7. rewrite blocks_assigned. set_solver. }
  (* the outlet state containers leave the other members of the selector *)
  assert (H56 : ∀ n, (∀ k, n ≠ state_ (port_name_of Outlet k)) →
            members m6 self !! n = members m5 self !! n).
  { assert (Hnames : ∀ p, p ∈ port_names Outlet cfg →
              ∃ k, state_ p = state_ (port_name_of Outlet k))
      by (by intros p (k & -> & _)%elem_of_port_names; exists k).
    pose proof (keeps_Return _ _ _ _ _
                  (self_step_add_port_state_block self
                     (λ n, ∃ k, n = state_ (port_name_of Outlet k)) (Some t2)
                     (port_names Outlet cfg) false Hnames) Hsb2) as Hstep.
    destruct (Hstep Hself5) as (_ & _ & _ & Hframe).
    intros n Hn. apply Hframe. intros [k ->]. by destruct (Hn k). }
  (* the ports leave the other members of the selector *)
  assert (H79 : ∀ n, (∀ s' k, n ≠ port_name_of s' k) →
            members m9 self !! n = members m7 self !! n).
  { assert (Hnames : ∀ s', construct_ports cfg = true →
              ∀ p, p ∈ port_names s' cfg → ∃ s'' k, p = port_name_of s'' k)
      by (by intros s' _ p (k & -> & _)%elem_of_port_names; exists s', k).
    pose proof (keeps_Return _ _ _ _ _
                  (self_step_add_port_objects cfg self
                     (λ n, ∃ s' k, n = port_name_of s' k) (port_names Inlet cfg)
                     true (Hnames Inlet)) Hp1) as S1.
    pose proof (keeps_Return _ _ _ _ _
                  (self_step_add_port_objects cfg self
                     (λ n, ∃ s' k, n = port_name_of s' k) (port_names Outlet cfg)
                     false (Hnames Outlet)) Hp2) as S2.
    destruct (S1 Hself7) as (Hself8 & _ & _ & F1).
    destruct (S2 Hself8) as (_ & _ & _ & F2).
    intros n Hn. rewrite F2, F1; [done | |]; intros (s' & k & ->); by destruct (Hn s' k). }
  (* the edges leave the members of the selector *)
  assert (H9 : ∀ n, (∀ s' i, n ≠ arc_name_of s' i) →
            members (record (EvTransformation "network.expand_arcs" self) m11) self !! n
            = members m9 self !! n).
  { intros n Hn.
    pose proof (edge_step_wiring_of Inlet self (wiring_of Inlet cfg) m9) as E1.
    rewrite Hw1 in E1.
    pose proof (edge_step_wiring_of Outlet self (wiring_of Outlet cfg) m10) as E2.
    rewrite Hw2 in E2. cbn [final] in E1, E2.
    change (members m11 self !! n = members m9 self !! n).
    rewrite (edge_step_other Outlet self m10 m11 self n E2) by (intros i; apply Hn).
    by rewrite (edge_step_other Inlet self m9 m10 self n E1) by (intros i; apply Hn). }
  destruct s.
  - exists t1, l_in. split_and!; [exact Hsrc | | done |].
    + cbn [self_slot_name]. rewrite H9 by (intros s' i; apply not_eq_sym, (arc_name_not_state_list s' Inlet)).
      rewrite H79 by (intros s' k; apply not_eq_sym, port_name_not_state_list).
      unfold m7. rewrite members_assigned, decide_True by done.
      rewrite lookup_insert_ne by done.
      rewrite H56 by (intros k; apply (selector_inlet_block_not_state Outlet)).
      unfold m5. rewrite members_assigned, decide_True by done.
      apply lookup_insert_eq.
    + intros i Hi. destruct (Hitems1 i Hi) as (b & Hl & Hm & Hnew).
      exists b. split_and!; [done | | by intros ?; apply Hnew, Hdom3].
      rewrite <-Hm.
      rewrite H9 by (intros s' i'; apply not_eq_sym, arc_name_not_state).
      rewrite H79 by (intros s' k; apply not_eq_sym, port_name_not_state).
      unfold m7. rewrite members_assigned, decide_True by done.
      rewrite lookup_insert_ne
        by apply (selector_outlet_block_not_state Inlet).
      rewrite H56.
      * unfold m5. rewrite members_assigned, decide_True by done.
        apply lookup_insert_ne, (selector_inlet_block_not_state Inlet).
      * intros k Heq. by apply state_inj, port_name_of_inj in Heq as [? _].
  - exists t2, l_out. split_and!; [exact Hsnk | | done |].
    + cbn [self_slot_name]. rewrite H9 by (intros s' i; apply not_eq_sym, (arc_name_not_state_list s' Outlet)).
      rewrite H79 by (intros s' k; apply not_eq_sym, port_name_not_state_list).
      unfold m7. rewrite members_assigned, decide_True by done.
      apply lookup_insert_eq.
    + intros i Hi. destruct (Hitems2 i Hi) as (b & Hl & Hm & Hnew).
      exists b. split_and!; [done | |].
      * rewrite <-Hm.
        rewrite H9 by (intros s' i'; apply not_eq_sym, arc_name_not_state).
        rewrite H79 by (intros s' k; apply not_eq_sym, port_name_not_state).
        unfold m7. rewrite members_assigned, decide_True by done.
        apply lookup_insert_ne, (selector_outlet_block_not_state Outlet).
      * intros Hb. apply Hnew, Hdom5, Hdom4, Hdom3, Hb.
Qed.

Lemma build_keeps_state_blocks_witness :
  consistent flowsheet ∧ 2%positive ∈ dom (blocks flowsheet) ∧
  build two_reactors 2 flowsheet = Return tt two_reactors_built ∧
  ∃ l, members two_reactors_built 2 !! "selector_inlet_block" = Some (List_ l) ∧
       length l = 1%nat.
Proof.
  split; [exact flowsheet_consistent|].
  split; [exact flowsheet_selector|].
  split; [exact two_reactors_build|].
  destruct (build_keeps_state_blocks Inlet two_reactors 2 flowsheet
              two_reactors_built flowsheet_consistent flowsheet_selector
              two_reactors_build) as (t & l & _ & Hlist & Hlen & _).
  exists l. split; [exact Hlist | exact Hlen].
Defined.

(** * Relocation on its own *)

Lemma disjunct_members_free n :
  disjunct_members !! n = None ↔
  n ≠ "indicator_var" ∧ n ≠ "binary_indicator_var".
Proof.
  unfold disjunct_members.
  rewrite !lookup_insert_None, lookup_empty. naive_solver.
Qed.

(** With the selector assembled, [add_units_to_disjunct] is its loop over
    the branches of [sb]. *)
Lemma add_units_to_disjunct_loop cfg self sb ds m :
  assembled cfg self sb ds m →
  add_units_to_disjunct cfg self m
  = for_each (enumerate_from (Z.of_nat 0) (unit_disjunct cfg))
      (move_unit (Block_ sb)) m.
Proof.
  intros Hasm. unfold add_units_to_disjunct, enumerate, mbind, M_bind, bind.
  by rewrite (getattr_found _ self _ (Block_ sb))
    by (done || apply (lo_selector _ _ _ _ _ (asm_layout _ _ _ _ _ Hasm))).
Qed.

Lemma disjunct_reserved_free n m :
  disjunct_reserved n m = false → disjunct_members !! n = None.
Proof.
  intros Hr. destruct (disjunct_members !! n) as [c|] eqn:Hn; [|done].
  by rewrite (disjunct_members_reserved n m) in Hr by eauto.
Qed.

(** The rounds of relocation all complete when every candidate has a
    parent and a name that is not a reserved word of a disjunct. *)
Lemma move_unit_loop_returns cfg self sb ds us (k : nat) m :
  drop k (unit_disjunct cfg) = us →
  relocating cfg self sb ds k m →
  (∀ u, u ∈ us →
     is_Some (parent m !! u) ∧ disjunct_reserved (local_name u) m = false) →
  ∃ m', for_each (enumerate_from (Z.of_nat k) us) (move_unit (Block_ sb)) m
        = Return tt m'.
Proof.
  revert k m. induction us as [|u us IH]; intros k m Hus Hrel Hok.
  - by eexists.
  - assert (Hu : unit_disjunct cfg !! k = Some u).
    { pose proof (lookup_drop (unit_disjunct cfg) k 0) as H.
      by rewrite Hus, Nat.add_0_r in H. }
    assert (Hus' : drop (S k) (unit_disjunct cfg) = us).
    { replace (S k) with (k + 1)%nat by lia. by rewrite <-drop_drop, Hus. }
    destruct (lookup_lt_is_Some_2 ds k) as [d Hd].
    { rewrite (rel_count _ _ _ _ _ _ Hrel). by eapply lookup_lt_Some. }
    assert (Htab : members m sb !! unit_disjunct_ (Z.of_nat k + 1)
                   = Some (Disjunct_ d)).
    { rewrite (lo_table _ _ _ _ _ (rel_layout _ _ _ _ _ _ Hrel)).
      by rewrite selection_table_branch, Hd. }
    destruct (Hok u) as [[p Hp] Hres]; [by left|].
    pose proof (disjunct_reserved_free _ _ Hres) as Hfree.
    pose proof (rel_consistent _ _ _ _ _ _ Hrel _ _ Hp) as Hmem.
    assert (Hdnew : members m d = disjunct_members)
      by by apply (rel_new _ _ _ _ _ _ Hrel k).
    assert (Hpd : p ≠ d).
    { intros ->. rewrite Hdnew in Hmem. congruence. }
    assert (Hstep : move_unit (Block_ sb) (Z.of_nat k, u) m
                    = Return tt (with_member d (local_name u) (Unit_ u)
                                   (without_member p (local_name u) m))).
    { rewrite (move_unit_eq sb k d u m Htab), Hp.
      apply add_component_Return. exists d. split_and!; try done.
      - rewrite <- Hres. apply reserved_dir, disjunct_dir_without_member.
      - rewrite members_without_member, decide_False by done. by rewrite Hdnew.
      - unfold owned. apply bool_decide_eq_false.
        rewrite (parent_without_member_unit p u m Hmem). by intros [? ?]. }
    destruct (move_unit_Return _ _ _ _ _ _ _ _ _ Hrel Hu Hd Hstep)
      as (Hrel1 & _ & Hpu & Hpo & _).
    destruct (keeps_Return untouched (move_unit (Block_ sb) (Z.of_nat k, u)) m tt _
                (untouched_move_unit _ _) Hstep) as (_ & _ & _ & Hdir).
    destruct (IH (S k) _ Hus' Hrel1) as [m' Hloop].
    { intros u' Hu'. destruct (Hok u') as [Hsome Hfree']; [by right|].
      split; [|by rewrite (disjunct_reserved_dir _ m _ Hdir)].
      destruct (decide (u' = u)) as [->|Hne]; [by rewrite Hpu|].
      by rewrite Hpo. }
    exists m'. simpl. apply bind_Return. exists tt. eexists. split; [exact Hstep|].
    by replace (Z.of_nat k + 1) with (Z.of_nat (S k)) by lia.
Qed.

(** Relocation adds members to the branches it still has to fill, and to
    no other block: elsewhere a member that is there afterwards was there
    before. *)
Lemma move_unit_loop_only_removes cfg self sb ds us (k : nat) m m' b n c :
  drop k (unit_disjunct cfg) = us →
  relocating cfg self sb ds k m →
  for_each (enumerate_from (Z.of_nat k) us) (move_unit (Block_ sb)) m = Return tt m' →
  (∀ (j : nat) d, (k ≤ j)%nat → ds !! j = Some d → b ≠ d) →
  members m' b !! n = Some c → members m b !! n = Some c.
Proof.
  revert k m. induction us as [|u us IH]; intros k m Hus Hrel; simpl.
  - by intros [= <-].
  - intros ([] & m1 & Hstep & Hloop)%bind_Return Hb Hafter.
    assert (Hu : unit_disjunct cfg !! k = Some u).
    { pose proof (lookup_drop (unit_disjunct cfg) k 0) as H.
      by rewrite Hus, Nat.add_0_r in H. }
    assert (Hus' : drop (S k) (unit_disjunct cfg) = us).
    { replace (S k) with (k + 1)%nat by lia. by rewrite <-drop_drop, Hus. }
    destruct (lookup_lt_is_Some_2 ds k) as [d Hd].
    { rewrite (rel_count _ _ _ _ _ _ Hrel). by eapply lookup_lt_Some. }
    destruct (move_unit_Return _ _ _ _ _ _ _ _ _ Hrel Hu Hd Hstep) as (Hrel1 & _).
    replace (Z.of_nat k + 1) with (Z.of_nat (S k)) in Hloop by lia.
    assert (Hmid : members m1 b !! n = Some c).
    { apply (IH _ _ Hus' Hrel1 Hloop); [|done].
      intros j d' Hj. apply Hb. lia. }
    assert (Htab : members m sb !! unit_disjunct_ (Z.of_nat k + 1)
                   = Some (Disjunct_ d)).
    { rewrite (lo_table _ _ _ _ _ (rel_layout _ _ _ _ _ _ Hrel)).
      by rewrite selection_table_branch, Hd. }
    pose proof (move_unit_eq sb k d u m Htab) as Heq.
    assert (Hstep' : move_unit (Block_ sb) (Z.of_nat k, u) m = Return tt m1)
      by exact Hstep.
    rewrite Heq in Hstep'. destruct (parent m !! u) as [p|]; [|done].
    apply add_component_Return in Hstep' as (b' & [= <-] & _ & _ & _ & _ & ->).
    assert (Hne : d ≠ b) by (intros ->; by apply (Hb k b)).
    rewrite members_with_member, decide_False in Hmid by done.
    rewrite members_without_member in Hmid. case_decide as Hp; [|done].
    rewrite Hp in Hmid. by apply lookup_delete_Some in Hmid as [_ ?].
Qed.

(** A candidate is taken out of the block that held it: after the round
    that moves it for the first time, that block has no member under the
    candidate's name, and the later rounds put none there. *)
Lemma move_unit_loop_taken cfg self sb ds us (k : nat) m m' :
  drop k (unit_disjunct cfg) = us →
  relocating cfg self sb ds k m →
  for_each (enumerate_from (Z.of_nat k) us) (move_unit (Block_ sb)) m = Return tt m' →
  ∀ u p, u ∈ us → parent m !! u = Some p →
         members m' p !! local_name u = None.
Proof.
  revert k m. induction us as [|u0 us IH]; intros k m Hus Hrel; simpl.
  - by intros _ u p ?%elem_of_nil.
  - intros ([] & m1 & Hstep & Hloop)%bind_Return u p Hin Hp.
    assert (Hu : unit_disjunct cfg !! k = Some u0).
    { pose proof (lookup_drop (unit_disjunct cfg) k 0) as H.
      by rewrite Hus, Nat.add_0_r in H. }
    assert (Hus' : drop (S k) (unit_disjunct cfg) = us).
    { replace (S k) with (k + 1)%nat by lia. by rewrite <-drop_drop, Hus. }
    destruct (lookup_lt_is_Some_2 ds k) as [d Hd].
    { rewrite (rel_count _ _ _ _ _ _ Hrel). by eapply lookup_lt_Some. }
    destruct (move_unit_Return _ _ _ _ _ _ _ _ _ Hrel Hu Hd Hstep)
      as (Hrel1 & _ & _ & Hpo & _).
    replace (Z.of_nat k + 1) with (Z.of_nat (S k)) in Hloop by lia.
    destruct (decide (u = u0)) as [->|Hne].
    + pose proof (rel_consistent _ _ _ _ _ _ Hrel _ _ Hp) as Hmem.
      assert (Hnew : ∀ (j : nat) d', (k ≤ j)%nat → ds !! j = Some d' → p ≠ d').
      { intros j d' Hj Hd' ->.
        rewrite (rel_new _ _ _ _ _ _ Hrel j d' Hj Hd') in Hmem.
        by apply disjunct_members_lookup in Hmem as [[_ ?] | [_ ?]]. }
      assert (Hmid : members m1 p !! local_name u0 = None).
      { assert (Htab : members m sb !! unit_disjunct_ (Z.of_nat k + 1)
                       = Some (Disjunct_ d)).
        { rewrite (lo_table _ _ _ _ _ (rel_layout _ _ _ _ _ _ Hrel)).
          by rewrite selection_table_branch, Hd. }
        pose proof (move_unit_eq sb k d u0 m Htab) as Heq.
        assert (Hstep' : move_unit (Block_ sb) (Z.of_nat k, u0) m = Return tt m1)
          by exact Hstep.
        rewrite Heq, Hp in Hstep'.
        apply add_component_Return in Hstep' as (b' & [= <-] & _ & _ & _ & _ & ->).
        assert (Hdp : d ≠ p) by (intros ->; by apply (Hnew k p)).
        rewrite members_with_member, decide_False by done.
        rewrite members_without_member, decide_True by done.
        by apply lookup_delete_None; left. }
      destruct (members m' p !! local_name u0) as [c|] eqn:Hafter; [|done].
      rewrite <-Hmid. symmetry.
      apply (move_unit_loop_only_removes _ _ _ _ _ _ _ _ _ _ _ Hus' Hrel1 Hloop);
        [|done].
      intros j d' Hj. apply Hnew. lia.
    + apply elem_of_cons in Hin as [?|Hin]; [done|].
      apply (IH _ _ Hus' Hrel1 Hloop); [done|]. by rewrite Hpo.
Qed.

(** [X15] On a selector whose branches have just been created,
    [add_units_to_disjunct] completes exactly when every candidate has a
    parent block to be taken from and a local name that is not a reserved
    word of a disjunct: neither the name of one of its two indicator
    variables, [indicator_var] and [binary_indicator_var], nor the name of
    another attribute of a disjunct. A candidate may be listed twice: it is
    then moved twice. *)
Theorem add_units_to_disjunct_completes_iff (cfg : config) (self sb : positive)
    (ds : list positive) (m : model) :
  assembled cfg self sb ds m →
  (raised (add_units_to_disjunct cfg self m) = None ↔
   ∀ u, u ∈ unit_disjunct cfg →
     is_Some (parent m !! u) ∧ disjunct_reserved (local_name u) m = false).
Proof.
  intros Hasm. rewrite (add_units_to_disjunct_loop _ _ _ _ _ Hasm).
  pose proof (assembled_relocating _ _ _ _ _ Hasm) as Hrel. split.
  - intros Hret%returns_final u Hu. split.
    + by apply (move_unit_loop_parents cfg self sb ds _ 0 m _ eq_refl Hrel Hret).
    + by apply (move_unit_loop_unreserved cfg self sb ds _ 0 m _ eq_refl Hrel Hret).
  - intros Hok.
    destruct (move_unit_loop_returns cfg self sb ds (unit_disjunct cfg) 0 m eq_refl Hrel)
      as [m' Hloop]; [|by rewrite Hloop].
    intros u Hu. by apply Hok.
Qed.

Lemma two_reactors_assembled_ok :
  ∃ sb ds, assembled two_reactors 2 sb ds two_reactors_assembled.
Proof.
  destruct (selector_block_assigned 2 flowsheet flowsheet_consistent
              flowsheet_selector) as (sb & m1 & Hpre & _ & Hlay & _).
  destruct (create_unit_disjunct_Return two_reactors 2 sb m1 Hlay)
    as (ds & m2 & Hcreate & Hasm & _).
  exists sb, ds.
  apply bind_Return in Hpre as (b & m0 & HBlock & Hset).
  assert (Heq : (b ← Block;
                 setattr (this 2) "selector_block" b ;;
                 create_unit_disjunct two_reactors 2) flowsheet = Return tt m2).
  { apply bind_Return. exists b, m0. split; [done|].
    apply bind_Return. by exists tt, m1. }
  unfold two_reactors_assembled. by rewrite Heq.
Qed.

Lemma add_units_to_disjunct_completes_iff_witness :
  ∃ sb ds,
    assembled two_reactors 2 sb ds two_reactors_assembled ∧
    (raised (add_units_to_disjunct two_reactors 2 two_reactors_assembled) = None ↔
     ∀ u, u ∈ unit_disjunct two_reactors →
       is_Some (parent two_reactors_assembled !! u) ∧
       disjunct_reserved (local_name u) two_reactors_assembled = false).
Proof.
  destruct two_reactors_assembled_ok as (sb & ds & Hasm).
  exists sb, ds. split; [exact Hasm|].
  exact (add_units_to_disjunct_completes_iff two_reactors 2 sb ds
           two_reactors_assembled Hasm).
Defined.

(** [X16] When [add_units_to_disjunct] completes for candidates that are
    pairwise different, each candidate has been moved, not copied: the
    candidate at position i now has branch i as its parent and is that
    branch's member under its local name, and the block that held it
    before, which is another block, has no member of that name any more.
    No other unit changes its parent, no block but a branch gains a
    member, and port values and the record of calls are as they were. *)
Theorem add_units_to_disjunct_moves (cfg : config) (self sb : positive)
    (ds : list positive) (m m' : model) :
  assembled cfg self sb ds m →
  NoDup (unit_disjunct cfg) →
  add_units_to_disjunct cfg self m = Return tt m' →
  (∀ (i : nat) u, unit_disjunct cfg !! i = Some u →
     ∃ d p, ds !! i = Some d ∧ parent m !! u = Some p ∧ p ≠ d ∧
            parent m' !! u = Some d ∧
            members m' d !! local_name u = Some (Unit_ u) ∧
            members m' p !! local_name u = None) ∧
  (∀ u, u ∉ unit_disjunct cfg → parent m' !! u = parent m !! u) ∧
  (∀ b n c, b ∉ ds → members m' b !! n = Some c → members m b !! n = Some c) ∧
  values m' = values m ∧ trace m' = trace m.
Proof.
  intros Hasm Hnd Hret. rewrite (add_units_to_disjunct_loop _ _ _ _ _ Hasm) in Hret.
  pose proof (assembled_relocating _ _ _ _ _ Hasm) as Hrel.
  destruct (move_unit_loop_Return cfg self sb ds _ 0 m m' eq_refl Hrel Hret)
    as (Hrel' & _ & Hin & Hout & _ & Hv & Ht).
  split_and!; [|done| |done..].
  - intros i u Hu.
    assert (Hel : u ∈ unit_disjunct cfg) by by eapply list_elem_of_lookup_2.
    destruct (Hin u Hel) as (d & Hd & Hp').
    pose proof (rel_consistent _ _ _ _ _ _ Hrel' u d Hp') as Hmem.
    pose proof Hd as [j Hj]%list_elem_of_lookup_1.
    destruct (rel_branches _ _ _ _ _ _ Hrel' j d _ _ Hj Hmem) as [Hj' _].
    assert (j = i) as -> by by eapply NoDup_lookup.
    destruct (move_unit_loop_parents cfg self sb ds _ 0 m m' eq_refl Hrel Hret u Hel)
      as [p Hp].
    exists d, p. split_and!; try done.
    + intros ->. pose proof (asm_consistent _ _ _ _ _ Hasm u d Hp) as Hold.
      rewrite (asm_new _ _ _ _ _ Hasm d Hd) in Hold.
      by apply disjunct_members_lookup in Hold as [[_ ?] | [_ ?]].
    + by apply (move_unit_loop_taken cfg self sb ds _ 0 m m' eq_refl Hrel Hret).
  - intros b n c Hb.
    apply (move_unit_loop_only_removes cfg self sb ds _ 0 m m' b n c eq_refl Hrel Hret).
    intros j d _ Hd ->. apply Hb. by eapply list_elem_of_lookup_2.
Qed.

Lemma add_units_to_disjunct_moves_witness :
  ∃ sb ds d,
    assembled two_reactors 2 sb ds two_reactors_assembled ∧
    NoDup (unit_disjunct two_reactors) ∧
    raised (add_units_to_disjunct two_reactors 2 two_reactors_assembled) = None ∧
    ds !! 1%nat = Some d ∧
    parent two_reactors_assembled !! R2 = Some 1%positive ∧
    parent (final (add_units_to_disjunct two_reactors 2 two_reactors_assembled))
      !! R2 = Some d ∧
    members (final (add_units_to_disjunct two_reactors 2 two_reactors_assembled))
      1 !! "R2" = None.
Proof.
  destruct two_reactors_assembled_ok as (sb & ds & Hasm).
  assert (Hnd : NoDup (unit_disjunct two_reactors)).
  { apply NoDup_cons. split; [|apply NoDup_singleton].
    intros H%list_elem_of_singleton. discriminate H. }
  assert (Hret : raised (add_units_to_disjunct two_reactors 2
                           two_reactors_assembled) = None).
  { vm_compute. reflexivity. }
  assert (Hold : parent two_reactors_assembled !! R2 = Some 1%positive).
  { vm_compute. reflexivity. }
  destruct (add_units_to_disjunct_moves two_reactors 2 sb ds
              two_reactors_assembled _ Hasm Hnd (returns_final _ Hret))
    as (Hmoved & _).
  destruct (Hmoved 1%nat R2 eq_refl) as (d & p & Hd & Hp & _ & Hp' & _ & Hgone).
  assert (p = 1%positive) as -> by congruence.
  exists sb, ds, d.
  split; [exact Hasm|]. split; [exact Hnd|]. split; [exact Hret|].
  split; [exact Hd|]. split; [exact Hold|]. split; [exact Hp' | exact Hgone].
Defined.

(** A branch is one of the blocks of the layout. *)
Lemma built_branch_block_elem cfg self sb ds m i b :
  built cfg self sb ds m → branch_block self m i = Some b → b ∈ ds.
Proof.
  intros Hb (udc & Hbr & Hblk)%branch_block_Some.
  destruct (built_branch _ _ _ _ _ _ _ Hb Hbr) as (j & d & Hd & _ & ->).
  injection Hblk as <-. by eapply list_elem_of_lookup_2.
Qed.

(** Wiring puts nothing into a block that is not a branch. *)
Lemma wiring_of_leaves cfg s self sb ds items m m' b n :
  built cfg self sb ds m →
  for_each items (wire_side s self) m = Return tt m' →
  b ∉ ds → members m b !! n = None → members m' b !! n = None.
Proof.
  intros Hb Hw Hnot Hnone.
  pose proof (edge_step_wiring_of s self items m) as Hstep.
  rewrite Hw in Hstep. destruct Hstep as (_ & Hnew & _).
  destruct (members m' b !! n) as [c|] eqn:Hafter; [|done].
  destruct (Hnew b n c Hnone Hafter) as [(i & _ & Hbr) _].
  destruct Hnot. by eapply built_branch_block_elem.
Qed.

(** [X17] [build] takes every candidate out of the block that held it:
    when [build] completes, the block that was a candidate's parent, if
    it is not the selector itself, has no member under the candidate's
    local name any more. *)
Theorem build_takes_candidates_from_parents (cfg : config) (self : positive)
    (m m' : model) :
  consistent m → self ∈ dom (blocks m) →
  build cfg self m = Return tt m' →
  ∀ u p, u ∈ unit_disjunct cfg → parent m !! u = Some p → p ≠ self →
    members m' p !! local_name u = None.
Proof.
  intros Hc Hself Hbuild u p Hu Hp Hpself.
  destruct (build_Return_stages cfg self m m' Hc Hself Hbuild)
    as (sb & ds & m1 & m2 & m3 & l_in & m4 & l_out & m6 & m8 & m9 & m10 & m11
        & Hpre & Hlay & Hcreate & Hasm & Hmove & Hb3 & _ & _ & _ & _ & Hports
        & Hb9 & Hw1 & Hb10 & Hw2 & Hb11 & ->).
  rewrite members_record.
  destruct (selector_block_assigned self m Hc Hself)
    as (sb' & m1' & Hpre' & _ & _ & _ & _ & _ & Hpar1 & _).
  assert (m1' = m1) as -> by congruence.
  destruct (create_unit_disjunct_Return cfg self sb m1 Hlay)
    as (ds' & m2' & Hcreate' & _ & _ & _ & _ & Hpar2 & _).
  assert (m2' = m2) as -> by congruence.
  pose proof (assembled_relocating _ _ _ _ _ Hasm) as Hrel.
  pose proof Hmove as Hloop.
  rewrite (add_units_to_disjunct_loop _ _ _ _ _ Hasm) in Hloop.
  assert (Hp2 : parent m2 !! u = Some p).
  { destruct (move_unit_loop_parents cfg self sb ds _ 0 m2 m3 eq_refl Hrel Hloop u Hu)
      as [p' Hp']. rewrite Hp'. f_equal.
    rewrite Hpar2 in Hp'. apply Hpar1 in Hp'. congruence. }
  pose proof (asm_consistent _ _ _ _ _ Hasm u p Hp2) as Hmem.
  assert (Hpds : p ∉ ds).
  { intros Hin. rewrite (asm_new _ _ _ _ _ Hasm p Hin) in Hmem.
    by apply disjunct_members_lookup in Hmem as [[_ ?] | [_ ?]]. }
  assert (H3 : members m3 p !! local_name u = None)
    by by apply (move_unit_loop_taken cfg self sb ds _ 0 m2 m3 eq_refl Hrel Hloop).
  assert (Hdom : p ∈ dom (blocks m3)).
  { destruct (add_units_to_disjunct_Return _ _ _ _ _ _ Hasm Hmove)
      as (_ & _ & _ & _ & Hsub & _).
    apply Hsub, elem_of_dom. unfold members in Hmem.
    destruct (blocks m2 !! p); [by eexists | done]. }
  pose proof (built_layout _ _ _ _ _ Hb3) as [_ _ _ Halloc].
  destruct (Hports (Halloc self ltac:(by left))) as (_ & _ & Hothers & _).
  apply (wiring_of_leaves cfg Outlet self sb ds _ m10 m11 p _ Hb10 Hw2 Hpds).
  apply (wiring_of_leaves cfg Inlet self sb ds _ m9 m10 p _ Hb9 Hw1 Hpds).
  by rewrite (Hothers p Hdom Hpself).
Qed.

Lemma build_takes_candidates_from_parents_witness :
  consistent flowsheet ∧ 2%positive ∈ dom (blocks flowsheet) ∧
  build two_reactors 2 flowsheet = Return tt two_reactors_built ∧
  parent flowsheet !! R2 = Some 1%positive ∧
  members two_reactors_built 1 !! "R2" = None.
Proof.
  assert (Hp : parent flowsheet !! R2 = Some 1%positive).
  { vm_compute. reflexivity. }
  split; [exact flowsheet_consistent|].
  split; [exact flowsheet_selector|].
  split; [exact two_reactors_build|].
  split; [exact Hp|].
  apply (build_takes_candidates_from_parents two_reactors 2 flowsheet
           two_reactors_built flowsheet_consistent flowsheet_selector
           two_reactors_build R2 1%positive).
  - apply list_elem_of_lookup_2 with 1%nat. reflexivity.
  - exact Hp.
  - intros H. discriminate H.
Defined.

(** * When [build] completes *)









(** The branches of an assembled selector, by number. *)
Lemma built_branch_block cfg self sb ds m i d :
  built cfg self sb ds m →
  branch_block self m i = Some d ↔
  ∃ j : nat, i = Z.of_nat j + 1 ∧ ds !! j = Some d.
Proof.
  intros Hb. split.
  - intros (udc & Hbr & Hblk)%branch_block_Some.
    destruct (built_branch _ _ _ _ _ _ _ Hb Hbr) as (j & d' & Hd & -> & ->).
    injection Hblk as <-. by exists j.
  - intros (j & -> & Hd). unfold branch_block.
    by rewrite (built_branch_lookup _ _ _ _ _ _ Hb), Hd.
Qed.

(** A wiring table that [build] can wire on its own: the branch numbers
    its entries claim are pairwise different and among 1..N, no list is
    empty, the ports are made and every index is one of the positions
    1..n of the table, and no claimed branch has a candidate named like
    the branch's edge. *)
Definition table_fits (s : side) (cfg : config) : Prop :=
  NoDup (wiring_of s cfg ≫= targets) ∧
  (∀ k ports, (k, ports) ∈ wiring_of s cfg →
     ports ≠ [] ∧ construct_ports cfg = true ∧
     1 ≤ k ≤ Z.of_nat (length (wiring_of s cfg))) ∧
  (∀ i, i ∈ wiring_of s cfg ≫= targets →
     1 ≤ i ≤ Z.of_nat (length (unit_disjunct cfg)) ∧
     ∀ u, unit_disjunct cfg !! Z.to_nat (i - 1) = Some u →
          local_name u ≠ arc_name_of s i).






(** [X19] The conditions under which [build] completes are needed, on a
    selector that has no member yet and for candidates that are pairwise
    different: a [build] that completes was given candidates that each
    had a parent block and a local name other than [indicator_var] and
    [binary_indicator_var], both templates, and two wiring tables that
    fit. *)
Theorem build_completes_only_if (cfg : config) (self : positive) (m m' : model) :
  consistent m → self ∈ dom (blocks m) →
  members m self = ∅ →
  NoDup (unit_disjunct cfg) →
  build cfg self m = Return tt m' →
  (∀ u, u ∈ unit_disjunct cfg →
     is_Some (parent m !! u) ∧
     local_name u ≠ "indicator_var" ∧ local_name u ≠ "binary_indicator_var") ∧
  is_Some (unit_source cfg) ∧ is_Some (unit_sink cfg) ∧
  table_fits Inlet cfg ∧ table_fits Outlet cfg.
Proof.
  intros Hc Hself Hempty Hnd Hbuild.
  destruct (build_Return_stages cfg self m m' Hc Hself Hbuild)
    as (sb & ds & m1 & m2 & m3 & l_in & m4 & l_out & m6 & m8 & m9 & m10 & m11
        & Hpre & Hlay & Hcreate & Hasm & Hmove & Hb3 & Hsb1 & Hsb2 & Hp1 & Hp2
        & Hports & Hb9 & Hw1 & Hb10 & Hw2 & _).
  assert (Hfresh : members m self !! "selector_block" = None)
    by by rewrite Hempty.
  destruct (selector_block_assigned_new self m Hc Hself Hfresh)
    as (sb1 & m1' & Hpre' & _ & _ & _ & Hpar1 & _).
  assert (m1' = m1) as -> by congruence.
  destruct (selector_block_assigned self m Hc Hself)
    as (sb2 & m1' & Hpre'' & _ & _ & _ & Hnames1 & _).
  assert (m1' = m1) as -> by congruence.
  destruct (create_unit_disjunct_Return cfg self sb m1 Hlay)
    as (ds' & m2' & Hcreate' & _ & Hothers2 & _ & _ & Hpar2 & _).
  assert (m2' = m2) as -> by congruence.
  pose proof (assembled_relocating _ _ _ _ _ Hasm) as Hrel.
  pose proof Hmove as Hloop.
  rewrite (add_units_to_disjunct_loop _ _ _ _ _ Hasm) in Hloop.
  destruct (add_units_to_disjunct_Return _ _ _ _ _ _ Hasm Hmove)
    as (_ & Hnames & Hmoved & _).
  pose proof (lay_layout _ _ _ _ Hlay) as [_ _ Hdist1 Halloc1].
  pose proof (built_layout _ _ _ _ _ Hb3) as [_ _ Hdist3 Halloc3].
  destruct (Hports (Halloc3 self ltac:(by left))) as (_ & _ & Hothers9 & Hframe9).
  pose proof (edge_step_wiring_of Inlet self (wiring_of Inlet cfg) m9) as Hstep.
  rewrite Hw1 in Hstep.
  (* the selector has no port before the ports are made *)
  assert (H3 : ∀ s k, members m3 self !! port_name_of s k = None).
  { intros s k.
    apply (move_unit_loop_absent cfg self sb ds _ 0 m2 m3 _ eq_refl Hrel Hloop).
    rewrite Hothers2.
    - rewrite Hnames1, Hempty; [done | apply port_name_not_selector_block].
    - apply Halloc1. by left.
    - intros ->. apply NoDup_cons in Hdist1 as [Hne _]. apply Hne. by left. }
  assert (Hmade : ∀ s k, is_Some (members m9 self !! port_name_of s k) →
            construct_ports cfg = true ∧
            1 ≤ k ≤ Z.of_nat (length (wiring_of s cfg))).
  { intros s k Hsome.
    destruct (decide (construct_ports cfg = true
                      ∧ 1 ≤ k ≤ Z.of_nat (length (wiring_of s cfg))))
      as [?|Hbad]; [done|].
    rewrite Hframe9, H3 in Hsome; [by destruct Hsome|].
    intros [Heq | [Heq | (s' & k' & Hk' & [Heq | [Hcp Heq]])]].
    - by apply port_name_not_state_list in Heq.
    - by apply port_name_not_state_list in Heq.
    - by apply port_name_not_state in Heq.
    - apply port_name_of_inj in Heq as [-> ->]. by destruct Hbad. }
  (* the candidates are in their branches when the edges are placed *)
  assert (Hheld : ∀ (j : nat) u d, unit_disjunct cfg !! j = Some u →
            ds !! j = Some d →
            members m9 d !! local_name u = Some (Unit_ u)).
  { intros j u d Hu Hd.
    destruct (Hmoved u) as (d' & Hd' & Hp'); [by eapply list_elem_of_lookup_2|].
    pose proof (built_consistent _ _ _ _ _ Hb3 u d' Hp') as Hmem.
    pose proof Hd' as [j' Hj']%list_elem_of_lookup_1.
    destruct (built_branches _ _ _ _ _ Hb3 j' d' _ _ Hj' Hmem) as [Hu' _].
    assert (j' = j) as -> by exact (NoDup_lookup _ _ _ _ Hnd Hu' Hu).
    assert (d' = d) as -> by congruence.
    rewrite Hothers9; [done | |].
    - apply Halloc3. by do 2 right.
    - intros ->. by apply NoDup_cons in Hdist3 as [[]%not_elem_of_cons _]. }
  assert (Htable : ∀ s ma mb,
            built cfg self sb ds ma →
            for_each (wiring_of s cfg) (wire_side s self) ma = Return tt mb →
            (∀ k, members ma self !! port_name_of s k
                  = members m9 self !! port_name_of s k) →
            (∀ d n c, members m9 d !! n = Some c → members ma d !! n = Some c) →
            table_fits s cfg).
  { intros s ma mb Hb Hw Hsame Hkept.
    destruct (wiring_of_Return_targets s self _ _ _ Hw) as (Hnd' & Htar & _ & Hne).
    split_and!; [done| |].
    - intros k ports Hin. split; [by eapply Hne|].
      apply Hmade. rewrite <-Hsame.
      by eapply wiring_of_Return_ports.
    - intros i Hi. destruct (Htar i Hi) as (d & Hbr & Hnone & _).
      apply (built_branch_block _ _ _ _ _ _ _ Hb) in Hbr as (j & -> & Hd).
      split.
      + apply lookup_lt_Some in Hd. rewrite (built_count _ _ _ _ _ Hb) in Hd. lia.
      + replace (Z.to_nat (Z.of_nat j + 1 - 1)) with j by lia.
        intros u Hu Heq.
        pose proof (Hkept _ _ _ (Hheld j u d Hu Hd)) as Hmem.
        rewrite Heq in Hmem. congruence. }
  split_and!.
  - intros u Hu. split.
    + rewrite <-Hpar1, <-Hpar2.
      by apply (move_unit_loop_parents cfg self sb ds _ 0 m2 m3 eq_refl Hrel Hloop).
    + apply disjunct_members_free. by apply Hnames.
  - destruct (unit_source cfg); [by eexists | done].
  - destruct (unit_sink cfg); [by eexists | done].
  - by apply (Htable Inlet m9 m10).
  - apply (Htable Outlet m10 m11); [done..| |].
    + intros k. apply (edge_step_port Inlet Outlet self m9 m10 k Hstep).
    + intros d n c. apply Hstep.
Qed.

Lemma build_completes_only_if_witness :
  consistent flowsheet ∧ 2%positive ∈ dom (blocks flowsheet) ∧
  members flowsheet 2 = ∅ ∧
  NoDup (unit_disjunct two_reactors) ∧
  build two_reactors 2 flowsheet = Return tt two_reactors_built ∧
  is_Some (unit_source two_reactors) ∧
  table_fits Inlet two_reactors ∧ table_fits Outlet two_reactors.
Proof.
  assert (Hempty : members flowsheet 2 = ∅) by reflexivity.
  assert (Hnd : NoDup (unit_disjunct two_reactors)).
  { apply NoDup_cons. split; [|apply NoDup_singleton].
    intros H%list_elem_of_singleton. discriminate H. }
  destruct (build_completes_only_if two_reactors 2 flowsheet two_reactors_built
              flowsheet_consistent flowsheet_selector Hempty Hnd two_reactors_build)
    as (_ & Hsrc & _ & Hin & Hout).
  split; [exact flowsheet_consistent|].
  split; [exact flowsheet_selector|].
  split; [exact Hempty|]. split; [exact Hnd|].
  split; [exact two_reactors_build|].
  split; [exact Hsrc|]. split; [exact Hin | exact Hout].
Defined.

(** * A second [build] *)

(** The selector holds no unit model as a member of its own. *)
Definition holds_no_unit (self : positive) (m : model) : Prop :=
  ∀ n u, members m self !! n ≠ Some (Unit_ u).

(** As long as the selector holds no unit of its own, no unit changes its
    parent. *)
Definition parents_stay (self : positive) (m m' : model) : Prop :=
  holds_no_unit self m → parent m' = parent m ∧ holds_no_unit self m'.

Global Instance parents_stay_preorder self : PreOrder (parents_stay self).
Proof.
  split.
  - by intros m H.
  - intros m1 m2 m3 H1 H2 H. destruct (H1 H) as [P1 N1].
    destruct (H2 N1) as [P2 N2]. split; [congruence | done].
Qed.

Lemma plain_not_unit v u : plain v = true → v ≠ Unit_ u.
Proof. by intros H ->. Qed.

























(** * The edges of a wiring method *)

(** The two wiring methods, by side. *)
Definition wiring_method (s : side) (cfg : config) (self : positive) : M unit :=
  match s with
  | Inlet => arc_selector_inlet_to_unit cfg self
  | Outlet => arc_unit_outlet_to_selector cfg self
  end.

Lemma wiring_method_loop s cfg self :
  wiring_method s cfg self = for_each (wiring_of s cfg) (wire_side s self).
Proof. by destruct s. Qed.

(** What the entry of index [k] has got between [m] and [m']: its edges
    join the selector's port of [k], as it was in [m], and the points of
    its list. *)
Definition entry_wired (s : side) (self : positive) (m m' : model)
    (k : Z) (ports : list conn_point) : Prop :=
  ∃ prt, members m self !! port_name_of s k = Some (Port_ prt) ∧
    (∀ p, ports = [p] →
       ∃ d, branch_block self m k = Some d ∧
            members m d !! arc_name_of s k = None ∧
            members m' d !! arc_name_of s k = Some (arc_between s (Port_ prt) p)) ∧
    ((1 < length ports)%nat →
     ∀ (i : nat) p, ports !! i = Some p →
       ∃ d, branch_block self m (Z.of_nat i + 1) = Some d ∧
            members m d !! arc_name_of s (Z.of_nat i + 1) = None ∧
            members m' d !! arc_name_of s (Z.of_nat i + 1)
            = Some (arc_between s (Port_ prt) p)).

Lemma entry_wired_round s self k ports m m1 :
  wire_side s self (k, ports) m = Return tt m1 →
  entry_wired s self m m1 k ports.
Proof.
  intros Hround.
  destruct (wire_side_Return_port s self k ports m m1 Hround) as [prt Hprt].
  apply wire_side_Return in Hround as (port & Hport & Hedges).
  rewrite Hprt in Hport. injection Hport as <-.
  exists prt. split; [done|].
  destruct Hedges as [(p & -> & Hnew & _) | [Hlen (Hnew & _)]].
  - split; [|simpl; lia].
    intros p' [= <-]. apply (Hnew k p). by left.
  - split; [intros p ->; simpl in Hlen; lia|].
    intros _ i p Hp.
    replace (Z.of_nat i + 1) with (1 + Z.of_nat i) by lia.
    apply (Hnew _ p). apply elem_of_enumerate_from. by exists i.
Qed.

Lemma entry_wired_later s self k ports m m1 m' :
  entry_wired s self m m1 k ports →
  edge_step self (arc_name_of s) m1 m' →
  entry_wired s self m m' k ports.
Proof.
  intros (prt & Hprt & Hone & Hmore) (Hkeep & _). exists prt.
  split; [done|]. split.
  - intros p Hp. destruct (Hone p Hp) as (d & Hb & Hfree & Hset).
    exists d. split_and!; [done..|]. by apply Hkeep.
  - intros Hlen i p Hp. destruct (Hmore Hlen i p Hp) as (d & Hb & Hfree & Hset).
    exists d. split_and!; [done..|]. by apply Hkeep.
Qed.

Lemma entry_wired_earlier s self k ports m m1 m' :
  edge_step self (arc_name_of s) m m1 →
  entry_wired s self m1 m' k ports →
  entry_wired s self m m' k ports.
Proof.
  intros Hstep (prt & Hprt & Hone & Hmore).
  pose proof (edge_step_branch_block self (arc_name_of s) (arc_name_of_selector s)
                (arc_name_of_branch s) m m1) as Hbr.
  pose proof Hstep as (Hkeep & _).
  assert (Hback : ∀ d n, members m1 d !! n = None → members m d !! n = None).
  { intros d n Hnone. destruct (members m d !! n) as [c|] eqn:Hc; [|done].
    by rewrite (Hkeep _ _ _ Hc) in Hnone. }
  exists prt. split; [by rewrite <-(edge_step_port s s self m m1 k Hstep)|]. split.
  - intros p Hp. destruct (Hone p Hp) as (d & Hb & Hfree & Hset).
    exists d. split_and!; [by rewrite <-Hbr | by apply Hback | done].
  - intros Hlen i p Hp. destruct (Hmore Hlen i p Hp) as (d & Hb & Hfree & Hset).
    exists d. split_and!; [by rewrite <-Hbr | by apply Hback | done].
Qed.

(** A wiring loop that completes has wired every entry of its table. *)
Lemma wiring_of_Return_edges s self items m m' :
  for_each items (wire_side s self) m = Return tt m' →
  ∀ k ports, (k, ports) ∈ items → entry_wired s self m m' k ports.
Proof.
  revert m. induction items as [|[k0 ports0] items IH]; intros m.
  - by intros _ k ports ?%elem_of_nil.
  - rewrite for_each_cons.
    destruct (wire_side s self (k0, ports0) m) as [[] m1|] eqn:Hround; [|done].
    intros Hrest k ports [[= -> ->] | Hin]%elem_of_cons.
    + apply (entry_wired_later s self k0 ports0 m m1 m').
      * by apply entry_wired_round.
      * pose proof (edge_step_wiring_of s self items m1) as Hstep.
        by rewrite Hrest in Hstep.
    + apply (entry_wired_earlier s self k ports m m1 m').
      * pose proof (edge_step_wire_side s self (k0, ports0) m) as Hstep.
        by rewrite Hround in Hstep.
      * by apply IH.
Qed.

(** [C2], as the code has it. A wiring method, [arc_selector_inlet_to_unit]
    or [arc_unit_outlet_to_selector], completes exactly on a table that can
    be wired: the entries claim pairwise different branches, an entry with
    a list of one point the branch of its own index and an entry with a
    longer list the branches 1, 2, ..., whatever its index; no list is
    empty; the selector has a port for every index; and every claimed
    branch is there with the name of its edge free. When the method
    completes, every index [k] of the table has its edges: for a list of
    one point, one edge inside branch [k], and for a longer list one edge
    per element, the i-th inside branch i, counting from 1. Each edge was
    not there before and joins the selector's port of [k] and the listed
    point, from the selector into the candidate on the inlet side and from
    the candidate into the selector on the outlet side. No member is new
    but these edges, and no member has changed. *)
Theorem wiring_places_edges (s : side) (cfg : config) (self : positive)
    (m : model) :
  (raised (wiring_method s cfg self m) = None ↔
   wirable s self (wiring_of s cfg) m) ∧
  (∀ m', wiring_method s cfg self m = Return tt m' →
     (∀ k ports, (k, ports) ∈ wiring_of s cfg →
        ∃ prt, members m self !! port_name_of s k = Some (Port_ prt) ∧
          (∀ p, ports = [p] →
             ∃ d, branch_block self m k = Some d ∧
                  members m d !! arc_name_of s k = None ∧
                  members m' d !! arc_name_of s k
                  = Some (match s with
                          | Inlet => Arc_ (Port_ prt) (Port_ (CandidatePort p))
                          | Outlet => Arc_ (Port_ (CandidatePort p)) (Port_ prt)
                          end)) ∧
          ((1 < length ports)%nat →
           ∀ (i : nat) p, ports !! i = Some p →
             ∃ d, branch_block self m (Z.of_nat i + 1) = Some d ∧
                  members m d !! arc_name_of s (Z.of_nat i + 1) = None ∧
                  members m' d !! arc_name_of s (Z.of_nat i + 1)
                  = Some (match s with
                          | Inlet => Arc_ (Port_ prt) (Port_ (CandidatePort p))
                          | Outlet => Arc_ (Port_ (CandidatePort p)) (Port_ prt)
                          end))) ∧
     (∀ b n, members m b !! n = None → is_Some (members m' b !! n) →
        ∃ i, i ∈ wiring_of s cfg ≫= targets ∧ n = arc_name_of s i ∧
             branch_block self m i = Some b) ∧
     (∀ b n c, members m b !! n = Some c → members m' b !! n = Some c)).
Proof.
  rewrite wiring_method_loop. split.
  - split.
    + intros Hret%returns_final.
      destruct (wiring_of_Return_targets s self _ _ _ Hret)
        as (Hnd & Hmarks & _ & Hne).
      split_and!; [done | |].
      * intros k ports Hin. split; [by eapply Hne|].
        by eapply wiring_of_Return_port_objects.
      * intros i Hi. destruct (Hmarks i Hi) as (d & ? & ? & _). by exists d.
    + intros Hw. destruct (wirable_returns s self _ m Hw) as [m' Hm'].
      by rewrite Hm'.
  - intros m' Hret. split_and!.
    + intros k ports Hin.
      destruct (wiring_of_Return_edges s self _ _ _ Hret k ports Hin)
        as (prt & Hprt & Hone & Hmore).
      exists prt. split; [done|]. split.
      * intros p Hp. destruct (Hone p Hp) as (d & Hb & Hfree & Hset).
        exists d. split_and!; [done..|]. rewrite Hset. by destruct s.
      * intros Hlen i p Hp. destruct (Hmore Hlen i p Hp) as (d & Hb & Hfree & Hset).
        exists d. split_and!; [done..|]. rewrite Hset. by destruct s.
    + by destruct (wiring_of_Return_targets s self _ _ _ Hret) as (_ & _ & Hnew & _).
    + pose proof (edge_step_wiring_of s self (wiring_of s cfg) m) as Hstep.
      rewrite Hret in Hstep. by destruct Hstep as (Hkeep & _).
Qed.

(** Two candidates, a first inlet index with two points and a second
    index with one. *)
Definition overlapping_lists : config :=
  Config False_ False_ [R1; R2] (Some properties) (Some properties)
    [(1, [inlet_of R1; inlet_of R2]); (2, [inlet_of R2])] [] None true.

Definition overlapping_unwired : model :=
  final (build_up_to_wiring overlapping_lists 2 flowsheet).

(** The list of index 1 has put its second edge into branch 2, so that the
    list of index 2, of one point, finds the name of its edge in use:
    branch 2 holds an edge from the port of index 1, none from the port of
    index 2, and the method raises. *)
Lemma overlapping_lists_stop_wiring :
  raised (build_up_to_wiring overlapping_lists 2 flowsheet) = None ∧
  raised (arc_selector_inlet_to_unit overlapping_lists 2 overlapping_unwired)
  = Some (RuntimeError "inlet_to_unit_arc_2") ∧
  members overlapping_unwired 2 !! "inlet_1" = Some (Port_ (SelectorPort 6)) ∧
  members overlapping_unwired 2 !! "inlet_2" = Some (Port_ (SelectorPort 7)) ∧
  branch_block 2 overlapping_unwired 2 = Some 5%positive ∧
  members (final (arc_selector_inlet_to_unit overlapping_lists 2 overlapping_unwired))
    5 !! "inlet_to_unit_arc_2"
  = Some (Arc_ (Port_ (SelectorPort 6)) (Port_ (CandidatePort (inlet_of R2)))) ∧
  raised (build overlapping_lists 2 flowsheet)
  = Some (RuntimeError "inlet_to_unit_arc_2").
Proof. repeat split; vm_compute; reflexivity. Qed.

Lemma wiring_places_edges_witness :
  ∃ m' prt d1 d2,
    wiring_method Inlet two_reactors 2 two_reactors_unwired = Return tt m' ∧
    members two_reactors_unwired 2 !! "inlet_1" = Some (Port_ prt) ∧
    branch_block 2 two_reactors_unwired 1 = Some d1 ∧
    branch_block 2 two_reactors_unwired 2 = Some d2 ∧
    members m' d1 !! "inlet_to_unit_arc_1"
    = Some (Arc_ (Port_ prt) (Port_ (CandidatePort (inlet_of R1)))) ∧
    members m' d2 !! "inlet_to_unit_arc_2"
    = Some (Arc_ (Port_ prt) (Port_ (CandidatePort (inlet_of R2)))).
Proof.
  assert (Hret : wiring_method Inlet two_reactors 2 two_reactors_unwired
                 = Return tt (final (wiring_method Inlet two_reactors 2
                                       two_reactors_unwired))).
  { apply returns_final. vm_compute. reflexivity. }
  destruct (wiring_places_edges Inlet two_reactors 2 two_reactors_unwired)
    as [_ Hedges].
  destruct (Hedges _ Hret) as (Hentries & _).
  destruct (Hentries 1 [inlet_of R1; inlet_of R2]) as (prt & Hprt & _ & Hmore).
  { apply list_elem_of_here. }
  destruct (Hmore ltac:(simpl; lia) 0%nat (inlet_of R1) eq_refl)
    as (d1 & Hb1 & _ & Hset1).
  destruct (Hmore ltac:(simpl; lia) 1%nat (inlet_of R2) eq_refl)
    as (d2 & Hb2 & _ & Hset2).
  exists (final (wiring_method Inlet two_reactors 2 two_reactors_unwired)), prt, d1, d2.
  split; [exact Hret|]. split; [exact Hprt|]. split; [exact Hb1|].
  split; [exact Hb2|]. split; [exact Hset1 | exact Hset2].
Defined.

(** * [build], then [initialize] *)

(** The edge of a claimed branch joins the port of some index of the
    table and a connection point. *)
Lemma wiring_target_edge s self items m m' i :
  for_each items (wire_side s self) m = Return tt m' →
  i ∈ items ≫= targets →
  ∃ k prt p d, members m self !! port_name_of s k = Some (Port_ prt) ∧
    branch_block self m i = Some d ∧
    members m' d !! arc_name_of s i = Some (arc_between s (Port_ prt) p).
Proof.
  intros Hret ([k ports] & Hi & Hin)%list_elem_of_bind.
  destruct (wiring_of_Return_edges s self _ _ _ Hret k ports Hin)
    as (prt & Hprt & Hone & Hmore).
  destruct (wiring_of_Return_targets s self _ _ _ Hret) as (_ & _ & _ & Hne).
  unfold targets in Hi. case_bool_decide as Hlen.
  - apply elem_of_seqZ in Hi.
    destruct (lookup_lt_is_Some_2 ports (Z.to_nat (i - 1))) as [p Hp]; [lia|].
    destruct (Hmore Hlen _ p Hp) as (d & Hb & _ & Hset).
    replace (Z.of_nat (Z.to_nat (i - 1)) + 1) with i in Hb, Hset by lia.
    by exists k, prt, p, d.
  - apply list_elem_of_singleton in Hi as ->.
    destruct ports as [|p [|q rest]]; [by destruct (Hne k [] Hin) | | simpl in Hlen; lia].
    destruct (Hone p eq_refl) as (d & Hb & _ & Hset).
    by exists k, prt, p, d.
Qed.

(** The two ends of the inlet edge of branch [i], read off the model. *)
Definition inlet_ends (m : model) (ds : list positive) (i : nat)
    : port_obj * port_obj :=
  match ds !! i ≫= λ d, members m d !! inlet_to_unit_arc_ (Z.of_nat i + 1) with
  | Some (Arc_ (Port_ x) (Port_ y)) => (x, y)
  | _ => (SelectorPort 1, SelectorPort 1)
  end.

(** [X20] [build] and [initialize] fit together. Take a [build] that has
    completed for pairwise different candidates and wiring tables that
    claim every branch 1..N on both sides, and give a value to every port
    the selector has under the name of an inlet. Then [initialize]
    completes when every candidate's own [initialize] succeeds and leaves
    those ports with a value. It records, candidate by candidate, one
    propagation from an inlet port of the selector into a port of that
    candidate followed by the candidate's [initialize], and leaves the
    store as it was. *)
Theorem build_then_initialize
    (unit_initialize : unit_model → kwargs → gmap port_obj Z → gmap port_obj Z + exn)
    (cfg : config) (self : positive) (options : kwargs) (m m' mv : model) :
  consistent m → self ∈ dom (blocks m) →
  NoDup (unit_disjunct cfg) →
  build cfg self m = Return tt m' →
  (∀ i, 1 ≤ i ≤ Z.of_nat (length (unit_disjunct cfg)) →
     i ∈ wiring_of Inlet cfg ≫= targets ∧ i ∈ wiring_of Outlet cfg ≫= targets) →
  blocks mv = blocks m' → parent mv = parent m' →
  (∀ k prt, members m' self !! inlet_ k = Some (Port_ prt) →
     is_Some (values mv !! prt)) →
  (∀ u v v' k prt, members m' self !! inlet_ k = Some (Port_ prt) →
     unit_initialize u options v = inl v' →
     is_Some (v !! prt) → is_Some (v' !! prt)) →
  (∀ u v, u ∈ unit_disjunct cfg → ∃ v', unit_initialize u options v = inl v') →
  ∃ ends m'',
    initialize cfg self unit_initialize options mv = Return tt m'' ∧
    length ends = length (unit_disjunct cfg) ∧
    (∀ e, e ∈ ends →
       (∃ k, members m' self !! inlet_ k = Some (Port_ e.1)) ∧
       ∃ p, e.2 = CandidatePort p) ∧
    blocks m'' = blocks mv ∧ parent m'' = parent mv ∧
    trace m'' = trace mv ++ rounds options (unit_disjunct cfg) ends.
Proof.
  intros Hc Hself Hnd Hbuild Hall Hbl Hpa Hval Hkeep Hok.
  destruct (build_Return_stages cfg self m m' Hc Hself Hbuild)
    as (sb & ds & m1 & m2 & m3 & l_in & m4 & l_out & m6 & m8 & m9 & m10 & m11
        & _ & _ & _ & Hasm & Hmove & Hb3 & _ & _ & _ & _ & Hports
        & Hb9 & Hw1 & Hb10 & Hw2 & Hb11 & ->).
  set (m' := record (EvTransformation "network.expand_arcs" self) m11) in *.
  assert (Hb' : built cfg self sb ds m') by by apply (built_same_store _ _ _ _ m11).
  assert (Hmem : ∀ b, members mv b = members m' b).
  { intros b. unfold members. by rewrite Hbl. }
  pose proof (built_layout _ _ _ _ _ Hb') as [Hsel Htab _ _].
  pose proof (built_layout _ _ _ _ _ Hb3) as [_ _ Hdist3 Halloc3].
  destruct (Hports (Halloc3 self ltac:(by left))) as (_ & _ & Hothers9 & _).
  destruct (add_units_to_disjunct_Return _ _ _ _ _ _ Hasm Hmove)
    as (_ & _ & Hmoved & _).
  pose proof (edge_step_wiring_of Inlet self (wiring_of Inlet cfg) m9) as Hin.
  rewrite Hw1 in Hin. cbn [final] in Hin. destruct Hin as (Hkeep1 & _).
  pose proof (edge_step_wiring_of Outlet self (wiring_of Outlet cfg) m10) as Hout.
  rewrite Hw2 in Hout. cbn [final] in Hout. destruct Hout as (Hkeep2 & _).
  destruct (wiring_of_Return_targets Outlet self _ _ _ Hw2) as (_ & Htar2 & _).
  assert (Hbranch : ∀ (i : nat) u d,
            unit_disjunct cfg !! i = Some u → ds !! i = Some d →
            members m' sb !! unit_disjunct_ (Z.of_nat i + 1) = Some (Disjunct_ d) ∧
            members m' d !! local_name u = Some (Unit_ u) ∧
            (∃ k x p, members m' self !! inlet_ k = Some (Port_ x) ∧
                      members m' d !! inlet_to_unit_arc_ (Z.of_nat i + 1)
                      = Some (Arc_ (Port_ x) (Port_ (CandidatePort p)))) ∧
            is_Some (members m' d !! unit_to_outlet_arc_ (Z.of_nat i + 1))).
  { intros i u d Hu Hd.
    destruct (Hall (Z.of_nat i + 1)) as [Hi1 Hi2].
    { apply lookup_lt_Some in Hu. lia. }
    split_and!.
    - by rewrite Htab, selection_table_branch, Hd.
    - destruct (Hmoved u) as (d' & Hd' & Hp'); [by eapply list_elem_of_lookup_2|].
      pose proof (built_consistent _ _ _ _ _ Hb3 u d' Hp') as Hmem'.
      pose proof Hd' as [j' Hj']%list_elem_of_lookup_1.
      destruct (built_branches _ _ _ _ _ Hb3 j' d' _ _ Hj' Hmem') as [Hu' _].
      assert (j' = i) as -> by exact (NoDup_lookup _ _ _ _ Hnd Hu' Hu).
      assert (d' = d) as -> by congruence.
      apply Hkeep2, Hkeep1. rewrite Hothers9; [done | |].
      + apply Halloc3. by do 2 right.
      + intros ->. by apply NoDup_cons in Hdist3 as [[]%not_elem_of_cons _].
    - destruct (wiring_target_edge Inlet self _ _ _ _ Hw1 Hi1)
        as (k & prt & p & d0 & Hprt & Hbr & Harc).
      apply (built_branch_block _ _ _ _ _ _ _ Hb9) in Hbr as (j & Hj & Hd0).
      assert (j = i) as -> by lia. assert (d0 = d) as -> by congruence.
      exists k, prt, p. split.
      + by apply Hkeep2, Hkeep1.
      + by apply Hkeep2.
    - destruct (Htar2 _ Hi2) as (d0 & Hbr & _ & Hsome).
      apply (built_branch_block _ _ _ _ _ _ _ Hb10) in Hbr as (j & Hj & Hd0).
      assert (j = i) as -> by lia. by assert (d0 = d) as -> by congruence. }
  set (ends := inlet_ends m' ds <$> seq 0 (length (unit_disjunct cfg))).
  assert (Hlen : length ends = length (unit_disjunct cfg)).
  { unfold ends. by rewrite length_fmap, length_seq. }
  assert (Hends : ∀ (i : nat) u d e,
            unit_disjunct cfg !! i = Some u → ds !! i = Some d →
            ends !! i = Some e →
            members m' d !! inlet_to_unit_arc_ (Z.of_nat i + 1)
              = Some (Arc_ (Port_ e.1) (Port_ e.2))
            ∧ (∃ k, members m' self !! inlet_ k = Some (Port_ e.1))
            ∧ ∃ p, e.2 = CandidatePort p).
  { intros i u d e Hu Hd He. unfold ends in He.
    rewrite list_lookup_fmap, lookup_seq_lt in He
      by (by apply lookup_lt_Some in Hu).
    injection He as <-.
    destruct (Hbranch i u d Hu Hd) as (_ & _ & (k & x & p & Hport & Harc) & _).
    unfold inlet_ends. rewrite Hd. simpl. rewrite Harc. simpl.
    split_and!; [done | by exists k | by exists p]. }
  assert (Hsrc : ∀ e, e ∈ ends →
            (∃ k, members m' self !! inlet_ k = Some (Port_ e.1)) ∧
            ∃ p, e.2 = CandidatePort p).
  { intros e [i He]%list_elem_of_lookup_1.
    destruct (lookup_lt_is_Some_2 (unit_disjunct cfg) i) as [u Hu].
    { rewrite <-Hlen. by eapply lookup_lt_Some. }
    destruct (lookup_lt_is_Some_2 ds i) as [d Hd].
    { rewrite (built_count _ _ _ _ _ Hb'). by eapply lookup_lt_Some. }
    by destruct (Hends i u d e Hu Hd He) as (_ & ? & ?). }
  destruct (initialize_loop_reaches unit_initialize
              (λ p, ∃ k, members m' self !! inlet_ k = Some (Port_ p)) sb options 0
              (unit_disjunct cfg) ds ends mv (length (unit_disjunct cfg))
              (built_count _ _ _ _ _ Hb') Hlen)
    as (m'' & Hloop & Hbl'' & Hpa'' & Htrace & _).
  - intros j u d e Hu Hd He. rewrite !Hmem.
    destruct (Hbranch j u d Hu Hd) as (Hsb & Hunit & _ & Houtlet).
    destruct (Hends j u d e Hu Hd He) as [Harc _]. by split_and!.
  - intros e He. by destruct (Hsrc e He).
  - intros p [k Hk]. by apply (Hval k).
  - intros u v v' p [k Hk]. by apply (Hkeep u v v' k).
  - intros j u v _ Hu. apply Hok. by eapply list_elem_of_lookup_2.
  - exists ends, m''. split_and!; [|done..|].
    + apply (initialize_returns unit_initialize cfg self sb); [|done].
      by rewrite Hmem.
    + rewrite Htrace. by rewrite take_ge, (take_ge ends) by lia.
Qed.

Lemma build_then_initialize_witness :
  consistent flowsheet ∧ 2%positive ∈ dom (blocks flowsheet) ∧
  NoDup (unit_disjunct two_reactors) ∧
  build two_reactors 2 flowsheet = Return tt two_reactors_built ∧
  blocks two_reactors_ready = blocks two_reactors_built ∧
  parent two_reactors_ready = parent two_reactors_built ∧
  ∃ ends m'',
    initialize two_reactors 2 inert [] two_reactors_ready = Return tt m'' ∧
    length ends = 2%nat ∧
    trace m'' = trace two_reactors_ready ++ rounds [] [R1; R2] ends.
Proof.
  assert (Hnd : NoDup (unit_disjunct two_reactors)).
  { apply NoDup_cons. split; [|apply NoDup_singleton].
    intros H%list_elem_of_singleton. discriminate H. }
  assert (Hall : ∀ i, 1 ≤ i ≤ Z.of_nat (length (unit_disjunct two_reactors)) →
            i ∈ wiring_of Inlet two_reactors ≫= targets
            ∧ i ∈ wiring_of Outlet two_reactors ≫= targets).
  { intros i Hi. simpl in Hi.
    assert (i = 1 ∨ i = 2) as [-> | ->] by lia.
    - split; apply list_elem_of_here.
    - split; apply list_elem_of_further, list_elem_of_here. }
  assert (Hok : ∀ u v, u ∈ unit_disjunct two_reactors →
                  ∃ v', inert u [] v = inl v').
  { intros u v _. exists v. reflexivity. }
  assert (Hkeep : ∀ u v v' k prt,
            members two_reactors_built 2 !! inlet_ k = Some (Port_ prt) →
            inert u [] v = inl v' → is_Some (v !! prt) → is_Some (v' !! prt)).
  { intros u v v' k prt _ [= <-] H. exact H. }
  assert (Hval : ∀ k prt,
            members two_reactors_built 2 !! inlet_ k = Some (Port_ prt) →
            is_Some (values two_reactors_ready !! prt)).
  { intros k prt Hk. apply elem_of_map_to_list, list_elem_of_In in Hk.
    assert (Hcheck : forallb (λ nc : string * component,
               if starts_with "inlet_" nc.1 then
                 match nc.2 with
                 | Port_ p => bool_decide (is_Some (values two_reactors_ready !! p))
                 | _ => true
                 end
               else true) (map_to_list (members two_reactors_built 2)) = true).
    { vm_compute. reflexivity. }
    rewrite forallb_forall in Hcheck. specialize (Hcheck _ Hk).
    by apply bool_decide_eq_true_1 in Hcheck. }
  split; [exact flowsheet_consistent|].
  split; [exact flowsheet_selector|].
  split; [exact Hnd|]. split; [exact two_reactors_build|].
  split; [reflexivity|]. split; [reflexivity|].
  destruct (build_then_initialize inert two_reactors 2 [] flowsheet
              two_reactors_built two_reactors_ready
              flowsheet_consistent flowsheet_selector Hnd
              two_reactors_build Hall eq_refl eq_refl Hval Hkeep Hok)
    as (ends & m'' & Hrun & Hlen & _ & _ & _ & Htrace).
  exists ends, m''. split; [exact Hrun|]. split; [exact Hlen | exact Htrace].
Defined.
